(** * innvestigate/utils/keras/graph.py: execution tracing and model reversal

    A shallow embedding of the graph utilities of iNNvestigate
    ([trace_model_execution], [get_model_execution_trace],
    [get_bottleneck_tensors], [reverse_model]) together with the properties
    the specification states about them.

    Keras objects are modelled by what the code observes of them: a tensor
    or a layer is an identity (Python compares and hashes both by identity),
    a node of the execution list is the triple [(layer, Xs, Ys)] the code
    builds, and a Python exception is the [Raise] branch of [result]. *)

From Stdlib Require Import ZArith String.
From stdpp Require Import base option gmap sets sorting functions.
From stdpp Require Import list.

Set Default Proof Using "Type".
Set Warnings "-register-all,-clear-no-such-hyp".

(** ** Data model *)

(** A Keras tensor object, by identity. *)
Definition tensor : Type := nat.

(** A Keras layer object.  [InputLayer] stands for
    [isinstance(l, keras.layers.InputLayer)], [Container] for
    [kchecks.is_container(l)] together with its [.layers] attribute; the
    number is the identity of the object. *)
Inductive layer : Type :=
  | InputLayer (id : nat)
  | Layer (id : nat)
  | Container (id : nat) (layers : list layer).

Definition layer_id (l : layer) : nat :=
  match l with
  | InputLayer id | Layer id | Container id _ => id
  end.

Definition is_input_layer (l : layer) : bool :=
  match l with InputLayer _ => true | _ => false end.

Definition is_container (l : layer) : bool :=
  match l with Container _ _ => true | _ => false end.

(** [a is b] on layers. *)
Definition layer_is (a b : layer) : bool :=
  bool_decide (layer_id a = layer_id b).

(** [layer in ret]. *)
Definition layer_in (l : layer) (ret : list layer) : bool :=
  existsb (layer_is l) ret.

(** One entry [(layer, Xs, Ys)] of an execution list. *)
Definition exec_node : Type := layer * list tensor * list tensor.

Definition node_layer (n : exec_node) : layer := n.1.1.
Definition node_Xs (n : exec_node) : list tensor := n.1.2.
Definition node_Ys (n : exec_node) : list tensor := n.2.

(** A Keras [Node] as read at lines 376: [outbound_layer], [input_tensors],
    [output_tensors]. *)
Record keras_node : Type := KerasNode {
  outbound_layer : layer;
  input_tensors : list tensor;
  output_tensors : list tensor;
}.

(** The attributes of the traced model the code reads. *)
Record model : Type := Model {
  model_id : nat;
  model_layers : list layer;
  model_inputs : list tensor;
  model_outputs : list tensor;
  nodes_by_depth : gmap nat (list keras_node);
}.

(** ** Exceptions *)

Inductive exn : Type :=
  | AssertionError
  | KeyError
  | IndexError
  | TypeError
  | ValueError
  | Exception (msg : string)
  | FrameworkError (code : nat).

Inductive result (A : Type) : Type :=
  | Ok (a : A)
  | Raise (e : exn).
Arguments Ok {A} a.
Arguments Raise {A} e.

#[global] Instance result_ret : MRet result := λ A, @Ok A.
#[global] Instance result_bind : MBind result := λ A B f r,
  match r with Ok a => f a | Raise e => Raise e end.
#[global] Instance result_fmap : FMap result := λ A B f r,
  match r with Ok a => Ok (f a) | Raise e => Raise e end.

Definition is_Ok {A} (r : result A) : Prop := ∃ a, r = Ok a.

(** [d[k]] on a dictionary: [KeyError] when the key is missing. *)
Definition getitem `{Countable K} {V} (d : gmap K V) (k : K) : result V :=
  match d !! k with Some v => Ok v | None => Raise KeyError end.

(** [[f(x) for x in xs]] for an [f] that may raise. *)
Fixpoint map_result {A B} (f : A → result B) (xs : list A) : result (list B) :=
  match xs with
  | [] => Ok []
  | x :: xs' => y ← f x; ys ← map_result f xs'; Ok (y :: ys)
  end.

(** ** get_model_layers (lines 234-245) *)

(** One iteration of the loop of [collect_layers], on [l]; the inner [fix]
    is the recursive call [collect_layers(layer)] on a container. *)
Fixpoint collect_layer (l : layer) (ret : list layer) : result (list layer) :=
  if layer_in l ret then Raise AssertionError
  else
    let ret := ret ++ [l] in
    match l with
    | Container _ ls =>
        (fix collect_layers (ls : list layer) (ret : list layer) : result (list layer) :=
           match ls with
           | [] => Ok ret
           | l' :: ls' => ret' ← collect_layer l' ret; collect_layers ls' ret'
           end) ls ret
    | _ => Ok ret
    end.

Fixpoint collect_layers (ls : list layer) (ret : list layer) : result (list layer) :=
  match ls with
  | [] => Ok ret
  | l :: ls' => ret' ← collect_layer l ret; collect_layers ls' ret'
  end.

Definition get_model_layers (m : model) : result (list layer) :=
  collect_layers (model_layers m) [].

(** ** The pruning step of trace_model_execution (lines 390-396) *)

(** The loop over [reversed(list(executed_nodes))]: [used_as_input] and
    [tmp] are the two lists the loop grows. *)
Fixpoint prune_loop (nodes : list exec_node) (used_as_input : list tensor)
    (tmp : list exec_node) : list exec_node :=
  match nodes with
  | [] => tmp
  | (l, Xs, Ys) :: rest =>
      if forallb (λ y, bool_decide (y ∈ used_as_input)) Ys
      then prune_loop rest (used_as_input ++ Xs) (tmp ++ [(l, Xs, Ys)])
      else prune_loop rest used_as_input tmp
  end.

Definition prune (outputs : list tensor) (executed_nodes : list exec_node)
    : list exec_node :=
  reverse (prune_loop (reverse executed_nodes) outputs []).

(** ** The native path of trace_model_execution (lines 375-382) *)

(** [sorted(model._nodes_by_depth.keys())]. *)
Definition sorted_depths (nbd : gmap nat (list keras_node)) : list nat :=
  merge_sort (≤) (elements (dom nbd)).

Definition node_triple (n : keras_node) : exec_node :=
  (outbound_layer n, input_tensors n, output_tensors n).

Definition reverse_executed_nodes (nbd : gmap nat (list keras_node)) : list exec_node :=
  depth ← sorted_depths nbd;
  node ← default [] (nbd !! depth);
  [node_triple node].

Definition native_executed_nodes (m : model) : list exec_node :=
  reverse (reverse_executed_nodes (nodes_by_depth m)).

(** ** Interpreter state and the framework *)

(** The value of a layer's [call] attribute: the method the layer came
    with, or the closure [f] that [patch] builds around a method (it
    carries [__patched__]). *)
Inductive method : Type :=
  | Method (owner : nat)
  | Patched (self : nat) (old : method).

Definition is_patched (m : method) : bool :=
  match m with Patched _ _ => true | Method _ => false end.

(** An event the caller's reverse mappings can observe: a
    [ReverseMappingBase] subclass [cls] instantiated on a layer (giving
    object [obj]), or a resolved mapping called at node [nid]. *)
Inductive mapping_ref : Type :=
  | FunctionRef (fn : nat)
  | ApplyOf (obj : nat).

Inductive event : Type :=
  | Constructed (cls : nat) (layer : nat) (obj : nat)
  | Invoked (mapping : mapping_ref) (nid : Z) (layer : nat).

(** The part of the Python heap the code reads and writes: the [call]
    attribute of every layer (by layer identity), the identities not yet
    given to a tensor or an object, and the trace of what the caller's
    reverse mappings were asked to do. *)
Record heap : Type := Heap {
  call_attr : nat → method;
  next_tensor : nat;
  next_object : nat;
  events : list event;
}.

Definition M (A : Type) : Type := heap → result A * heap.

#[global] Instance M_ret : MRet M := λ A a h, (Ok a, h).
#[global] Instance M_bind : MBind M := λ A B f m h,
  match m h with
  | (Ok a, h') => f a h'
  | (Raise e, h') => (Raise e, h')
  end.

Definition raise {A} (e : exn) : M A := λ h, (Raise e, h).
Definition lift {A} (r : result A) : M A := λ h, (r, h).

(** [try: body finally: cleanup]: the cleanup runs on both exits of the
    body; an exception of the cleanup itself replaces the body's outcome. *)
Definition try_finally {A} (body : M A) (cleanup : M unit) : M A := λ h,
  let '(r, h1) := body h in
  match cleanup h1 with
  | (Ok _, h2) => (r, h2)
  | (Raise e, h2) => (Raise e, h2)
  end.

(** [for x in xs: f(x)]. *)
Fixpoint for_each {A} (f : A → M unit) (xs : list A) : M unit :=
  match xs with
  | [] => mret ()
  | x :: xs' => _ ← f x; for_each f xs'
  end.

(** [[f(x) for x in xs]] (also the values of a dict comprehension). *)
Fixpoint map_M {A B} (f : A → M B) (xs : list A) : M (list B) :=
  match xs with
  | [] => mret []
  | x :: xs' => y ← f x; ys ← map_M f xs'; mret (y :: ys)
  end.

(** [d.update(pairs)] and [{k: v for k, v in pairs}]: later pairs win. *)
Definition dict_update `{Countable K} {V} (d : gmap K V) (pairs : list (K * V))
    : gmap K V :=
  foldl (λ d kv, <[kv.1 := kv.2]> d) d pairs.

(** What the code calls and this file does not define.

    - [replay_model m] is lines 337-339,
      [to_list(Model(inputs=model.inputs, outputs=model.outputs)(model.inputs))],
      run while the layers are patched: it gives the entries the patched
      [call]s appended to [executed_nodes], in that order, and the outputs
      of the re-applied model, or raises.
    - [kapply layer Xs] is [to_list(kapply(layer, new_Xs))] of line 365.
    - [copy_layer layer] is [copy_layer(layer)] of line 352, which rebuilds
      the layer through Keras' [from_config]. *)
Class Framework : Type := {
  replay_model : model → M (list exec_node * list tensor);
  kapply : layer → list tensor → M (list tensor);
  copy_layer : layer → M layer;
}.

(** ** trace_model_execution (lines 274-398) *)

Definition getattr_call (l : layer) : M method := λ h,
  (Ok (call_attr h (layer_id l)), h).

Definition setattr_call (l : layer) (m : method) : M unit := λ h,
  (Ok (), Heap (<[layer_id l := m]> (call_attr h)) (next_tensor h)
               (next_object h) (events h)).

(** [patch(self, method)], lines 317-330. *)
Definition patch (self : layer) (m : method) : M method :=
  if is_patched m
  then raise (Exception "Should not happen as we patch objects not classes.")
  else mret (Patched (layer_id self) m).

Section Trace.
Context `{Framework}.

(** Lines 315-343: the patches are recorded, then applied and the model
    replayed inside [try], and reverted in [finally]. *)
Definition instrumented_replay (m : model) (layers : list layer)
    : M (list exec_node * list tensor) :=
  monkey_patches ← map_M (λ layer, c ← getattr_call layer; mret (layer, c)) layers;
  try_finally
    (_ ← for_each (λ layer,
            c ← getattr_call layer;
            p ← patch layer c;
            setattr_call layer p) layers;
     replay_model m)
    (for_each (λ lm : layer * method, setattr_call lm.1 lm.2) monkey_patches).

(** One iteration of the loop of lines 356-368. *)
Definition reapply_node (layer_mapping : gmap nat layer)
    (acc : gmap tensor tensor * list exec_node) (n : exec_node)
    : M (gmap tensor tensor * list exec_node) :=
  let '(tensor_mapping, new_executed_nodes) := acc in
  let '(layer, Xs, Ys) := n in
  layer ← lift (getitem layer_mapping (layer_id layer));
  '(new_Xs, new_Ys) ←
    (if is_input_layer layer then mret (Xs, Ys)
     else
       new_Xs ← lift (map_result (getitem tensor_mapping) Xs);
       new_Ys ← kapply layer new_Xs;
       mret (new_Xs, new_Ys));
  mret (dict_update tensor_mapping (zip Ys new_Ys),
        new_executed_nodes ++ [(layer, new_Xs, new_Ys)]).

Fixpoint reapply_loop (layer_mapping : gmap nat layer)
    (acc : gmap tensor tensor * list exec_node) (executed_nodes : list exec_node)
    : M (gmap tensor tensor * list exec_node) :=
  match executed_nodes with
  | [] => mret acc
  | n :: rest =>
      acc' ← reapply_node layer_mapping acc n;
      reapply_loop layer_mapping acc' rest
  end.

(** Lines 349-372. *)
Definition reapply (m : model) (reapply_on_copied_layers : bool)
    (layers : list layer) (executed_nodes : list exec_node)
    (outputs : list tensor) : M (list layer * list exec_node * list tensor) :=
  let tensor_mapping : gmap tensor tensor :=
    dict_update ∅ ((λ tmp, (tmp, tmp)) <$> model_inputs m) in
  layer_mapping ←
    (if reapply_on_copied_layers
     then pairs ← map_M (λ layer, c ← copy_layer layer; mret (layer_id layer, c)) layers;
          mret (dict_update (∅ : gmap nat layer) pairs)
     else mret (dict_update (∅ : gmap nat layer) ((λ layer, (layer_id layer, layer)) <$> layers)));
  '(tensor_mapping, new_executed_nodes) ←
    reapply_loop layer_mapping (tensor_mapping, []) executed_nodes;
  layers ← lift (map_result (λ layer, getitem layer_mapping (layer_id layer)) layers);
  outputs ← lift (map_result (getitem tensor_mapping) outputs);
  mret (layers, new_executed_nodes, outputs).

(** Line 292: [any([(l is not model) and is_container(l) for l in layers])]. *)
Definition contains_container (m : model) (layers : list layer) : bool :=
  existsb (λ l, negb (bool_decide (layer_id l = model_id m)) && is_container l) layers.

(** Lines 287-383: the execution list and the outputs before pruning. *)
Definition trace_unpruned (m : model) (reapply_on_copied_layers : bool)
    : M (list layer * list exec_node * list tensor) :=
  layers ← lift (get_model_layers m);
  if contains_container m layers
  then
    '(executed_nodes, outputs) ← instrumented_replay m layers;
    reapply m reapply_on_copied_layers layers executed_nodes outputs
  else
    mret (layers, native_executed_nodes m, model_outputs m).

Definition trace_model_execution (m : model) (reapply_on_copied_layers : bool)
    : M (list layer * list exec_node * list tensor) :=
  '(layers, executed_nodes, outputs) ← trace_unpruned m reapply_on_copied_layers;
  mret (layers, prune outputs executed_nodes, outputs).

End Trace.

(** ** get_model_execution_trace (lines 401-479) *)

(** An entry of the enriched trace: the dictionary built at lines 461-470. *)
Record trace_entry : Type := TraceEntry {
  nid : option nat;
  entry_layer : layer;
  Xs : list tensor;
  Ys : list tensor;
  Xs_nids : list (option nat);
  Ys_nids : list (list (option nat));
  Xs_layers : list layer;
  Ys_layers : list (list layer);
}.

Definition id_node : Type := option nat * layer * list tensor * list tensor.

(** Lines 409-417: node ids, [None] for the input layers. *)
Fixpoint enrich_with_nids (current_nid : nat) (execution_trace : list exec_node)
    : list id_node :=
  match execution_trace with
  | [] => []
  | (l, Xs, Ys) :: rest =>
      if is_input_layer l
      then (None, l, Xs, Ys) :: enrich_with_nids current_nid rest
      else (Some current_nid, l, Xs, Ys) :: enrich_with_nids (S current_nid) rest
  end.

(** Lines 424-429, for one [X]. *)
Definition record_input (nid : nat) (inputs_to_node : gmap tensor (list nat))
    (X : tensor) : gmap tensor (list nat) :=
  match inputs_to_node !! X with
  | Some nids => <[X := nids ++ [nid]]> inputs_to_node
  | None => <[X := [nid]]> inputs_to_node
  end.

(** Lines 432-436: the loop over [Ys]. *)
Fixpoint record_outputs (nid : option nat) (inputs_to_node : gmap tensor (list nat))
    (outputs_to_node : gmap tensor (option nat)) (Ys : list tensor)
    : result (gmap tensor (option nat)) :=
  match Ys with
  | [] => Ok outputs_to_node
  | Y :: Ys' =>
      if bool_decide (is_Some (inputs_to_node !! Y))
      then Raise (Exception "Cannot be more than one creating node.")
      else record_outputs nid inputs_to_node (<[Y := nid]> outputs_to_node) Ys'
  end.

(** Lines 420-436: the lookups from a tensor to the nodes receiving it and
    to the node creating it. *)
Fixpoint create_lookups (keep_input_layers : bool)
    (inputs_to_node : gmap tensor (list nat))
    (outputs_to_node : gmap tensor (option nat))
    (execution_trace : list id_node)
    : result (gmap tensor (list nat) * gmap tensor (option nat)) :=
  match execution_trace with
  | [] => Ok (inputs_to_node, outputs_to_node)
  | (nid, l, Xs, Ys) :: rest =>
      let inputs_to_node :=
        match nid with
        | Some n => foldl (record_input n) inputs_to_node Xs
        | None => inputs_to_node
        end in
      outputs_to_node ←
        (if keep_input_layers || bool_decide (is_Some nid)
         then record_outputs nid inputs_to_node outputs_to_node Ys
         else Ok outputs_to_node);
      create_lookups keep_input_layers inputs_to_node outputs_to_node rest
  end.

(** [nid_to_nodes[nid][1]]. *)
Definition layer_of_nid (nid_to_nodes : gmap (option nat) id_node) (nid : option nat)
    : result layer :=
  (λ t : id_node, t.1.1.2) <$> getitem nid_to_nodes nid.

(** Lines 441-471, for one node. *)
Definition enrich_node (inputs_to_node : gmap tensor (list nat))
    (outputs_to_node : gmap tensor (option nat))
    (nid_to_nodes : gmap (option nat) id_node) (t : id_node) : result trace_entry :=
  let '(nid, l, Xs, Ys) := t in
  if is_input_layer l then
    Ys_nids ← map_result (λ Y, fmap (M := list) Some <$> getitem inputs_to_node Y) Ys;
    Ys_layers ← map_result (map_result (layer_of_nid nid_to_nodes)) Ys_nids;
    Ok (TraceEntry nid l Xs Ys [] Ys_nids [] Ys_layers)
  else
    let Xs_nids := (λ X, default None (outputs_to_node !! X)) <$> Xs in
    let Ys_nids :=
      (λ Y, default [None] (fmap (M := list) Some <$> inputs_to_node !! Y)) <$> Ys in
    Xs_layers ← map_result (layer_of_nid nid_to_nodes)
                  (filter (λ Xnid, is_Some Xnid) Xs_nids);
    Ys_layers ← map_result (λ Ynids2,
                    map_result (layer_of_nid nid_to_nodes)
                      (filter (λ Ynid, is_Some Ynid) Ynids2)) Ys_nids;
    Ok (TraceEntry nid l Xs Ys Xs_nids Ys_nids Xs_layers Ys_layers).

(** Lines 408-479 on the execution list [trace_model_execution] returned. *)
Definition enrich_trace (keep_input_layers : bool) (execution_trace : list exec_node)
    : result (list trace_entry) :=
  let execution_trace := enrich_with_nids 0 execution_trace in
  '(inputs_to_node, outputs_to_node) ←
    create_lookups keep_input_layers ∅ ∅ execution_trace;
  let nid_to_nodes : gmap (option nat) id_node :=
    dict_update ∅ ((λ t : id_node, (t.1.1.1, t)) <$> execution_trace) in
  execution_trace ←
    map_result (enrich_node inputs_to_node outputs_to_node nid_to_nodes) execution_trace;
  Ok (if keep_input_layers then execution_trace
      else filter (λ tmp, is_Some (nid tmp)) execution_trace).

Section ExecutionTrace.
Context `{Framework}.

Definition get_model_execution_trace (m : model) (keep_input_layers : bool)
    (reapply_on_copied_layers : bool) : M (list trace_entry) :=
  '(_, execution_trace, _) ← trace_model_execution m reapply_on_copied_layers;
  lift (enrich_trace keep_input_layers execution_trace).

End ExecutionTrace.

(** ** get_bottleneck_tensors (lines 536-583) *)

(** Lines 549-553, for one [x]. *)
Definition connect (Ys : list tensor) (forward_connections : gmap tensor (list tensor))
    (x : tensor) : gmap tensor (list tensor) :=
  match forward_connections !! x with
  | Some c => <[x := c ++ Ys]> forward_connections
  | None => <[x := Ys]> forward_connections
  end.

(** Lines 543-553. *)
Definition forward_connections_of (execution_list : list exec_node)
    : gmap tensor (list tensor) :=
  foldl (λ fc (n : exec_node),
           let '(l, Xs, Ys) := n in
           if is_input_layer l then fc else foldl (connect Ys) fc Xs)
        ∅ execution_list.

(** [for fw_c in forward_connections[x]: open_connections[fw_c] = True]. *)
Definition open_from (forward_connections : gmap tensor (list tensor))
    (open_connections : gset tensor) (x : tensor) : result (gset tensor) :=
  c ← getitem forward_connections x;
  Ok (open_connections ∪ list_to_set c).

(** A left fold with a body that may raise. *)
Fixpoint foldl_result {A B} (f : A → B → result A) (a : A) (xs : list B) : result A :=
  match xs with
  | [] => Ok a
  | x :: xs' => a' ← f a x; foldl_result f a' xs'
  end.

(** Lines 568-570. *)
Definition close_output (open_connections : gset tensor) (y : tensor)
    : result (gset tensor) :=
  if bool_decide (y ∈ open_connections) then Ok (open_connections ∖ {[y]})
  else Raise AssertionError.

(** Lines 572-576. *)
Definition mark (open_connections : gset tensor) (Xs Ys : list tensor)
    (ret : gset tensor) : result (gset tensor) :=
  if bool_decide (open_connections = ∅) then
    match Xs with
    | [x0] =>
        match Ys with
        | y0 :: _ => Ok (ret ∪ {[x0]} ∪ {[y0]})
        | [] => Raise IndexError
        end
    | _ => Ok ret
    end
  else Ok ret.

(** Lines 561-581: one iteration of the second loop. *)
Definition bottleneck_step (forward_connections : gmap tensor (list tensor))
    (outputs : list tensor) (st : gset tensor * gset tensor) (n : exec_node)
    : result (gset tensor * gset tensor) :=
  let '(open_connections, ret) := st in
  let '(l, Xs, Ys) := n in
  if is_input_layer l then Ok (open_connections, ret)
  else
    open_connections ← foldl_result close_output open_connections Ys;
    ret ← mark open_connections Xs Ys ret;
    open_connections ←
      foldl_result (λ oc y,
          if bool_decide (y ∈ outputs) then Ok oc
          else open_from forward_connections oc y) open_connections Ys;
    Ok (open_connections, ret).

Definition get_bottleneck_tensors (inputs outputs : list tensor)
    (execution_list : list exec_node) : result (gset tensor) :=
  let forward_connections := forward_connections_of execution_list in
  open_connections ← foldl_result (open_from forward_connections) ∅ inputs;
  st ← foldl_result (bottleneck_step forward_connections outputs)
         (open_connections, ∅) execution_list;
  Ok st.2.

(** ** reverse_model (lines 600-788) *)

(** What the reverse pass computes with.  A reversed tensor is modelled by
    the vector of numbers it evaluates to; [num_add] is the addition of
    two of its components.  [tensor_value] reads a tensor of the model as
    such a value (the default [head_mapping] returns its argument), and
    [project], [clip] stand for [ilayers.Project(arg)(x)] and
    [ilayers.Clip(lo, hi)(x)], which this file does not define. *)
Class TensorOps : Type := {
  num : Type;
  num_add : num → num → num;
  tensor_value : tensor → list num;
  project : option (num * num) → list num → list num;
  clip : num → num → list num → list num;
}.

Section Reverse.
Context `{Framework} `{TensorOps}.

Definition value : Type := list num.

(** [keras.layers.Add()(tensors)]: the elementwise sum of two or more
    tensors; Keras refuses a shorter list. *)
Definition keras_Add (tensors : list value) : result value :=
  match tensors with
  | t0 :: t1 :: rest => Ok (foldl (zip_with num_add) t0 (t1 :: rest))
  | _ => Raise ValueError
  end.

(** An entry of [reversed_tensors]: a dictionary with the keys ["id"],
    ["tensor"], ["tensors"] and ["final_tensor"], each present or not. *)
Record entry : Type := Entry {
  entry_id : Z * nat;
  entry_tensor : option value;
  entry_tensors : option (list value);
  entry_final_tensor : option value;
}.

(** [add_reversed_tensor(i, X, reversed_X)], lines 663-675. *)
Definition add_reversed_tensor (reverse_id : Z) (reversed_tensors : gmap tensor entry)
    (i : nat) (X : tensor) (reversed_X : value) : result (gmap tensor entry) :=
  match reversed_tensors !! X with
  | None =>
      Ok (<[X := Entry (reverse_id, i) (Some reversed_X) None None]>
            reversed_tensors)
  | Some tmp =>
      match entry_tensor tmp, entry_tensors tmp with
      | Some _, Some _ => Raise (Exception "Wrong order, tensors already aggregated!")
      | Some t, None =>
          Ok (<[X := Entry (entry_id tmp) None (Some [t; reversed_X])
                       (entry_final_tensor tmp)]> reversed_tensors)
      | None, Some ts =>
          Ok (<[X := Entry (entry_id tmp) None (Some (ts ++ [reversed_X]))
                       (entry_final_tensor tmp)]> reversed_tensors)
      | None, None => Raise KeyError
      end
  end.

(** The loop of lines 677-679 over [enumerate(zip(...))], from index [i]. *)
Fixpoint add_reversed_tensors_from (reverse_id : Z) (i : nat)
    (pairs : list (tensor * value)) (reversed_tensors : gmap tensor entry)
    : result (gmap tensor entry) :=
  match pairs with
  | [] => Ok reversed_tensors
  | (X, reversed_X) :: rest =>
      reversed_tensors ← add_reversed_tensor reverse_id reversed_tensors i X reversed_X;
      add_reversed_tensors_from reverse_id (S i) rest reversed_tensors
  end.

(** [add_reversed_tensors(reverse_id, tensors_list, reversed_tensors_list)],
    lines 659-679. *)
Definition add_reversed_tensors (reverse_id : Z) (tensors_list : list tensor)
    (reversed_tensors_list : list value) (reversed_tensors : gmap tensor entry)
    : result (gmap tensor entry) :=
  add_reversed_tensors_from reverse_id 0 (zip tensors_list reversed_tensors_list)
    reversed_tensors.

(** [project_bottleneck_tensors]: [False], [True] or a range [(a, b)]. *)
Inductive project_arg : Type :=
  | ProjectFalse
  | ProjectTrue
  | ProjectRange (a b : num).

Definition project_with (p : project_arg) (x : value) : value :=
  match p with
  | ProjectFalse => x
  | ProjectTrue => project None x
  | ProjectRange a b => project (Some (a, b)) x
  end.

(** The arguments of [reverse_model] that the two closures read. *)
Record aggregation : Type := Aggregation {
  project_bottleneck_tensors : project_arg;
  clip_all_reversed_tensors : option (num * num);
  bottleneck_tensors : gset tensor;
}.

(** Lines 690-697: projection of a bottleneck tensor, then clipping. *)
Definition post_process (cfg : aggregation) (t : tensor) (final_tensor : value) : value :=
  let final_tensor :=
    match project_bottleneck_tensors cfg with
    | ProjectFalse => final_tensor
    | p => if bool_decide (t ∈ bottleneck_tensors cfg)
           then project_with p final_tensor else final_tensor
    end in
  match clip_all_reversed_tensors cfg with
  | None => final_tensor
  | Some (lo, hi) => clip lo hi final_tensor
  end.

(** [get_reversed_tensor(tensor)], lines 681-701. *)
Definition get_reversed_tensor (cfg : aggregation) (t : tensor)
    (reversed_tensors : gmap tensor entry) : result (value * gmap tensor entry) :=
  tmp ← getitem reversed_tensors t;
  match entry_final_tensor tmp with
  | Some final_tensor => Ok (final_tensor, reversed_tensors)
  | None =>
      final_tensor ←
        match entry_tensor tmp with
        | None => tensors ← (match entry_tensors tmp with
                             | Some ts => Ok ts
                             | None => Raise KeyError
                             end);
                  keras_Add tensors
        | Some x => Ok x
        end;
      let final_tensor := post_process cfg t final_tensor in
      Ok (final_tensor,
          <[t := Entry (entry_id tmp) (entry_tensor tmp) (entry_tensors tmp)
                   (Some final_tensor)]> reversed_tensors)
  end.

(** [[get_reversed_tensor(t) for t in ts]]. *)
Fixpoint get_reversed_tensors (cfg : aggregation) (ts : list tensor)
    (reversed_tensors : gmap tensor entry) : result (list value * gmap tensor entry) :=
  match ts with
  | [] => Ok ([], reversed_tensors)
  | t :: ts' =>
      '(v, reversed_tensors) ← get_reversed_tensor cfg t reversed_tensors;
      '(vs, reversed_tensors) ← get_reversed_tensors cfg ts' reversed_tensors;
      Ok (v :: vs, reversed_tensors)
  end.

(** The fourth argument of a reverse mapping: the dictionary with the keys
    ["nid"], ["model"] and ["layer"]. *)
Record reverse_state : Type := ReverseState {
  state_nid : Z;
  state_model : model;
  state_layer : layer;
}.

(** A callable [(Xs, Ys, reversed_Ys, reverse_state) -> reversed_Xs]. *)
Definition handler : Type :=
  list tensor → list tensor → list value → reverse_state → result (list value).

(** What [reverse_mappings(layer)] may return: a function, or a subclass
    of [ReverseMappingBase], whose instances are built from a layer and the
    model and expose a handler as [apply].  The number names the Python
    function or class object. *)
Inductive reverse_mapping : Type :=
  | MappingFunction (fn : nat) (f : handler)
  | MappingClass (cls : nat) (init : layer → model → handler).

(** The arguments of [reverse_model] besides the model;
    [reverse_mappings] is the callable of lines 639-647. *)
Record reverse_args : Type := ReverseArgs {
  reverse_mappings : layer → option reverse_mapping;
  default_reverse_mapping : option reverse_mapping;
  head_mapping : option (tensor → value);
  return_all_reversed_tensors : bool;
  clip_all_reversed_tensors_arg : option (num * num);
  project_bottleneck_tensors_arg : project_arg;
  reapply_on_copied_layers : bool;
}.

Definition log_event (e : event) : M unit := λ h,
  (Ok (), Heap (call_attr h) (next_tensor h) (next_object h) (events h ++ [e])).

Definition new_object : M nat := λ h,
  (Ok (next_object h),
   Heap (call_attr h) (next_tensor h) (S (next_object h)) (events h)).

(** Lines 723-725: the mapping of the caller, or else the default one. *)
Definition resolve_reverse_mapping (args : reverse_args) (l : layer)
    : option reverse_mapping :=
  match reverse_mappings args l with
  | Some r => Some r
  | None => default_reverse_mapping args
  end.

(** Lines 723-738, for one layer: the mapping is resolved, a
    [ReverseMappingBase] subclass is instantiated, and the result is what
    [initialized_reverse_mappings[layer]] is set to. *)
Definition initialize_reverse_mapping (m : model) (args : reverse_args) (l : layer)
    : M (option (mapping_ref * handler)) :=
  match resolve_reverse_mapping args l with
  | Some (MappingClass cls init) =>
      obj ← new_object;
      _ ← log_event (Constructed cls (layer_id l) obj);
      mret (Some (ApplyOf obj, init l m))
  | Some (MappingFunction fn f) => mret (Some (FunctionRef fn, f))
  | None => mret None
  end.

(** Lines 717-738. *)
Fixpoint initialize_reverse_mappings (m : model) (args : reverse_args)
    (initialized : gmap nat (option (mapping_ref * handler))) (layers : list layer)
    : M (gmap nat (option (mapping_ref * handler))) :=
  match layers with
  | [] => mret initialized
  | l :: rest =>
      r ← initialize_reverse_mapping m args l;
      initialize_reverse_mappings m args (<[layer_id l := r]> initialized) rest
  end.

(** Lines 771-779: the call of the resolved mapping at a node. *)
Definition call_reverse_mapping (mapping : option (mapping_ref * handler))
    (Xs Ys : list tensor) (reversed_Ys : list value) (st : reverse_state)
    : M (list value) :=
  match mapping with
  | None => raise TypeError
  | Some (ref, f) =>
      _ ← log_event (Invoked ref (state_nid st) (layer_id (state_layer st)));
      lift (f Xs Ys reversed_Ys st)
  end.

(** Lines 753-780: one iteration of the reverse walk. *)
Definition reverse_node (m : model) (cfg : aggregation)
    (initialized : gmap nat (option (mapping_ref * handler)))
    (len_execution_list_wo_inputs_layers : Z)
    (reversed_tensors : gmap tensor entry) (_nid : nat) (n : exec_node)
    : M (gmap tensor entry) :=
  let '(layer, Xs, Ys) := n in
  let nid := (len_execution_list_wo_inputs_layers - Z.of_nat _nid - 1)%Z in
  if is_input_layer layer then mret reversed_tensors
  else if is_container layer then raise (Exception "This is not supposed to happen!")
  else if negb (forallb (λ ys, bool_decide (is_Some (reversed_tensors !! ys))) Ys)
  then mret reversed_tensors
  else
    '(reversed_Ys, reversed_tensors) ← lift (get_reversed_tensors cfg Ys reversed_tensors);
    reverse_mapping ← lift (getitem initialized (layer_id layer));
    reversed_Xs ← call_reverse_mapping reverse_mapping Xs Ys reversed_Ys
                    (ReverseState nid m layer);
    lift (add_reversed_tensors nid Xs reversed_Xs reversed_tensors).

(** The loop of line 753 over [enumerate(reverse_execution_list)]. *)
Fixpoint reverse_walk (m : model) (cfg : aggregation)
    (initialized : gmap nat (option (mapping_ref * handler)))
    (len_execution_list_wo_inputs_layers : Z)
    (reversed_tensors : gmap tensor entry) (_nid : nat)
    (reverse_execution_list : list exec_node) : M (gmap tensor entry) :=
  match reverse_execution_list with
  | [] => mret reversed_tensors
  | n :: rest =>
      reversed_tensors ← reverse_node m cfg initialized
                           len_execution_list_wo_inputs_layers reversed_tensors _nid n;
      reverse_walk m cfg initialized len_execution_list_wo_inputs_layers
        reversed_tensors (S _nid) rest
  end.

(** Lines 740-745. *)
Definition find_bottleneck_tensors (m : model) (args : reverse_args)
    (outputs : list tensor) (execution_list : list exec_node) : result (gset tensor) :=
  match project_bottleneck_tensors_arg args with
  | ProjectFalse => Ok ∅
  | _ => get_bottleneck_tensors (model_inputs m) outputs execution_list
  end.

(** Lines 703-788, on the triple [trace_model_execution] returned. *)
Definition reverse_traced (m : model) (args : reverse_args)
    (layers : list layer) (execution_list : list exec_node) (outputs : list tensor)
    : M (list value * option (gmap tensor entry)) :=
  let len_execution_list := length execution_list in
  let num_input_layers :=
    length (filter (λ n : exec_node, is_input_layer (node_layer n)) execution_list) in
  let len_execution_list_wo_inputs_layers :=
    (Z.of_nat len_execution_list - Z.of_nat num_input_layers)%Z in
  let reverse_execution_list := reverse execution_list in
  initialized_reverse_mappings ← initialize_reverse_mappings m args ∅ layers;
  bottleneck_tensors ← lift (find_bottleneck_tensors m args outputs execution_list);
  let cfg := Aggregation (project_bottleneck_tensors_arg args)
               (clip_all_reversed_tensors_arg args) bottleneck_tensors in
  let head := default tensor_value (head_mapping args) in
  reversed_tensors ← lift (add_reversed_tensors (-1) outputs (head <$> outputs) ∅);
  reversed_tensors ← reverse_walk m cfg initialized_reverse_mappings
                       len_execution_list_wo_inputs_layers reversed_tensors 0
                       reverse_execution_list;
  '(reversed_input_tensors, reversed_tensors) ←
    lift (get_reversed_tensors cfg (model_inputs m) reversed_tensors);
  mret (reversed_input_tensors,
        if return_all_reversed_tensors args then Some reversed_tensors else None).

Definition reverse_model (m : model) (args : reverse_args)
    : M (list value * option (gmap tensor entry)) :=
  '(layers, execution_list, outputs) ←
    trace_model_execution m (reapply_on_copied_layers args);
  reverse_traced m args layers execution_list outputs.

End Reverse.

(** ** Notions the properties are stated with *)

(** [n] reads a tensor that [m] produces. *)
Definition depends_on (n m : exec_node) : Prop :=
  ∃ t, t ∈ node_Xs n ∧ t ∈ node_Ys m.

(** A valid topological order: an entry that reads a tensor stands
    strictly after every entry that produces it. *)
Definition topological (l : list exec_node) : Prop :=
  ∀ i j n m, l !! i = Some n → l !! j = Some m → depends_on n m → j < i.

(** The pruning step read from the back of the list: the kept entries of
    [nodes], in forward order, and the list [used_as_input] has grown to. *)
Fixpoint prune_state (outputs : list tensor) (nodes : list exec_node)
    : list exec_node * list tensor :=
  match nodes with
  | [] => ([], outputs)
  | n :: rest =>
      let '(kept, used_as_input) := prune_state outputs rest in
      if forallb (λ y, bool_decide (y ∈ used_as_input)) (node_Ys n)
      then (n :: kept, used_as_input ++ node_Xs n)
      else (kept, used_as_input)
  end.

(** The tensors needed behind a position of the list: the outputs of the
    model and the inputs of the entries kept behind it. *)
Definition needed (outputs : list tensor) (post : list exec_node) (t : tensor) : Prop :=
  t ∈ outputs ∨ ∃ k, k ∈ prune outputs post ∧ t ∈ node_Xs k.


Section FrameworkAssumptions.
Context `{Framework}.




End FrameworkAssumptions.





(** A computation leaves the [call] attribute of the layers [P] as it
    found it, whether it returns or raises. *)
Definition keeps_call_on {A} (P : nat → Prop) (c : M A) : Prop :=
  ∀ h r h', c h = (r, h') → ∀ id, P id → call_attr h' id = call_attr h id.

Section FrameAssumptions.
Context `{Framework}.

(** Applying or copying a layer does not assign to a [call] attribute. *)
Definition kapply_keeps_call : Prop :=
  ∀ l xs, keeps_call_on (λ _, True) (kapply l xs).

Definition copy_layer_keeps_call : Prop :=
  ∀ l, keeps_call_on (λ _, True) (copy_layer l).

End FrameAssumptions.

Section ReversedTensorsNotions.
Context `{TensorOps}.

(** A call of one of the two closures over [reversed_tensors]. *)
Inductive table_op : Type :=
  | AddOp (reverse_id : Z) (i : nat) (X : tensor) (reversed_X : value)
  | GetOp (t : tensor).

Definition run_op (cfg : aggregation) (reversed_tensors : gmap tensor entry)
    (op : table_op) : result (gmap tensor entry) :=
  match op with
  | AddOp reverse_id i X reversed_X =>
      add_reversed_tensor reverse_id reversed_tensors i X reversed_X
  | GetOp t => snd <$> get_reversed_tensor cfg t reversed_tensors
  end.

(** The calls [ops] made one after the other, none of them raising. *)
Definition run_ops (cfg : aggregation) (reversed_tensors : gmap tensor entry)
    (ops : list table_op) : result (gmap tensor entry) :=
  foldl_result (run_op cfg) reversed_tensors ops.

(** The calls [add_reversed_tensors] makes (lines 677-679). *)
Definition add_ops (reverse_id : Z) (i : nat) (pairs : list (tensor * value))
    : list table_op :=
  imap (λ k p, AddOp reverse_id (i + k) p.1 p.2) pairs.



(** An entry holds exactly one of the keys ["tensor"] and ["tensors"]. *)
Definition one_key (e : entry) : Prop :=
  (is_Some (entry_tensor e) ∧ entry_tensors e = None) ∨
  (entry_tensor e = None ∧ is_Some (entry_tensors e)).

End ReversedTensorsNotions.

Section ReversedTensorsInvariant.
Context `{TensorOps}.

(** What the two closures maintain of an entry: the single contribution
    under ["tensor"], or two or more contributions under ["tensors"]. *)
Definition entry_wf (e : entry) : Prop :=
  match entry_tensor e, entry_tensors e with
  | Some _, None => True
  | None, Some ts => 2 ≤ length ts
  | _, _ => False
  end.

Definition table_wf (reversed_tensors : gmap tensor entry) : Prop :=
  ∀ X e, reversed_tensors !! X = Some e → entry_wf e.

End ReversedTensorsInvariant.


Fixpoint chain_nodes (t0 : tensor) (steps : list (layer * tensor)) : list exec_node :=
  match steps with
  | [] => []
  | (l, t) :: rest => (l, [t0], [t]) :: chain_nodes t rest
  end.

(** The entries of an execution list that are no input layers. *)
Definition applied_nodes (execution_list : list exec_node) : list exec_node :=
  filter (λ n, is_input_layer (node_layer n) = false) execution_list.

(** The tensor a chain produces from [k], if any. *)
Fixpoint chain_succ (t0 : tensor) (steps : list (layer * tensor)) (k : tensor)
    : option tensor :=
  match steps with
  | [] => None
  | (l, t) :: rest => if decide (k = t0) then Some t else chain_succ t rest k
  end.

(** The events a computation adds to the trace all satisfy [P], whether
    it returns or raises. *)
Definition extends_events {A} (P : event → Prop) (c : M A) : Prop :=
  ∀ h r h', c h = (r, h') →
    ∃ evs, events h' = events h ++ evs ∧ Forall P evs ∧
           next_object h ≤ next_object h'.

Definition is_construction (e : event) : Prop :=
  match e with Constructed _ _ _ => True | Invoked _ _ _ => False end.


(** The layer an event is about. *)
Definition event_layer (e : event) : nat :=
  match e with Constructed _ l _ | Invoked _ _ l => l end.

Section CopyAssumption.
Context `{Framework}.

(** A copy of a layer is a new object. *)
Definition copy_layer_allocates : Prop :=
  ∀ l h l' h', copy_layer l h = (Ok l', h') →
    next_object h ≤ layer_id l' < next_object h'.

End CopyAssumption.

(** ** Example models *)

(** A framework to run the examples with: an applied layer gives one new
    tensor, a copied layer is the same kind of layer under a new
    identity, and the replay logs the calls of [example_log], whose
    tensors 0, 1 and 2 exist afterwards. *)
Definition example_log : list exec_node :=
  [(InputLayer 10, [], [0]); (Layer 13, [0], [1]);
   (Container 11 [InputLayer 12; Layer 13], [0], [1]); (Layer 14, [1], [2])].

Definition example_kapply (l : layer) (xs : list tensor) : M (list tensor) := λ h,
  (Ok [next_tensor h],
   Heap (call_attr h) (S (next_tensor h)) (next_object h) (events h)).

Definition with_id (id : nat) (l : layer) : layer :=
  match l with
  | InputLayer _ => InputLayer id
  | Layer _ => Layer id
  | Container _ ls => Container id ls
  end.

Definition example_copy_layer (l : layer) : M layer := λ h,
  (Ok (with_id (next_object h) l),
   Heap (call_attr h) (next_tensor h) (S (next_object h)) (events h)).

Definition example_replay_model (m : model) : M (list exec_node * list tensor) := λ h,
  (Ok (example_log, [2]),
   Heap (call_attr h) (next_tensor h `max` 3) (next_object h) (events h)).

Definition example_framework : Framework :=
  {| replay_model := example_replay_model;
     kapply := example_kapply;
     copy_layer := example_copy_layer |}.

(** A model with a nested container, which takes the replay path. *)
Definition nested_model : model :=
  {| model_id := 100;
     model_layers := [InputLayer 10; Container 11 [InputLayer 12; Layer 13]; Layer 14];
     model_inputs := [0];
     model_outputs := [2];
     nodes_by_depth :=
       {[ 0 := [KerasNode (Layer 14) [1] [2]];
          1 := [KerasNode (Container 11 [InputLayer 12; Layer 13]) [0] [1]];
          2 := [KerasNode (InputLayer 10) [] [0]] ]} |}.

(** A diamond without containers, which takes the native path; the layer
    of the first branch is shared with an invocation outside the model,
    which gives the tensor 9 that nothing reads. *)
Definition diamond_model : model :=
  {| model_id := 100;
     model_layers := [InputLayer 10; Layer 11; Layer 12; Layer 13];
     model_inputs := [0];
     model_outputs := [3];
     nodes_by_depth :=
       {[ 0 := [KerasNode (Layer 13) [1; 2] [3]];
          1 := [KerasNode (Layer 11) [0] [1]; KerasNode (Layer 12) [0] [2];
                KerasNode (Layer 11) [7] [9]];
          2 := [KerasNode (InputLayer 10) [] [0]] ]} |}.

(** No layer is patched, and no tensor or object exists yet. *)
Definition empty_heap : heap :=
  {| call_attr := Method; next_tensor := 0; next_object := 0; events := [] |}.

(** Tensors of integers, to run the examples with; clipping is
    componentwise and projection is left out. *)
Definition example_tensor_ops : TensorOps :=
  {| num := Z;
     num_add := Z.add;
     tensor_value := λ t, [Z.of_nat t];
     project := λ _ v, v;
     clip := λ lo hi v, (λ x, Z.max lo (Z.min hi x)) <$> v |}.

(** A model applying the layer 11 twice, at two nodes in a row. *)
Definition shared_layer_model : model :=
  {| model_id := 100;
     model_layers := [InputLayer 10; Layer 11];
     model_inputs := [0];
     model_outputs := [2];
     nodes_by_depth :=
       {[ 0 := [KerasNode (Layer 11) [1] [2]];
          1 := [KerasNode (Layer 11) [0] [1]];
          2 := [KerasNode (InputLayer 10) [] [0]] ]} |}.

(** Reverse mappings that map every layer to the class 7, whose
    instances pass the reversed outputs on. *)
Definition example_reverse_args : @reverse_args example_tensor_ops :=
  {| reverse_mappings := λ _,
       Some (@MappingClass example_tensor_ops 7 (λ _ _ _ _ reversed_Ys _, Ok reversed_Ys));
     default_reverse_mapping := None;
     head_mapping := None;
     return_all_reversed_tensors := false;
     clip_all_reversed_tensors_arg := None;
     project_bottleneck_tensors_arg := @ProjectFalse example_tensor_ops;
     reapply_on_copied_layers := false |}.

(** Neither projection nor clipping. *)
Definition plain_aggregation : @aggregation example_tensor_ops :=
  {| project_bottleneck_tensors := @ProjectFalse example_tensor_ops;
     clip_all_reversed_tensors := None;
     bottleneck_tensors := ∅ |}.

(** ** Further code of the module, and notions for its properties *)

(** The layers below [l], [l] first: the order in which [collect_layers]
    meets them (a container, then what it contains, left to right). *)
Fixpoint flatten_layer (l : layer) : list layer :=
  l :: match l with
       | Container _ ls =>
           (fix flatten_layers (ls : list layer) : list layer :=
              match ls with
              | [] => []
              | l' :: ls' => flatten_layer l' ++ flatten_layers ls'
              end) ls
       | _ => []
       end.

Fixpoint flatten_layers (ls : list layer) : list layer :=
  match ls with
  | [] => []
  | l :: ls' => flatten_layer l ++ flatten_layers ls'
  end.

(** *** model_contains (lines 248-271) *)

(** The argument [layer_condition]: a callable, or a list of callables. *)
Inductive layer_condition : Type :=
  | Condition (condition : layer → bool)
  | Conditions (conditions : list (layer → bool)).

(** What [model_contains] returns: the layers or their number for a
    single condition, a list of either for a list of conditions. *)
Inductive contained : Type :=
  | ContainedLayers (layers : list layer)
  | ContainedCount (count : nat)
  | ContainedLayerLists (layers : list (list layer))
  | ContainedCounts (counts : list nat).

(** [xs[0]]. *)
Definition first_item {A} (xs : list A) : result A :=
  match xs with x :: _ => Ok x | [] => Raise IndexError end.

Definition model_contains (m : model) (layer_condition : layer_condition)
    (return_only_counts : bool) : result contained :=
  let '(layer_condition, single_condition) :=
    match layer_condition with
    | Condition c => ([c], true)
    | Conditions cs => (cs, false)
    end in
  layers ← get_model_layers m;
  let collected_layers :=
    (λ condition : layer → bool, filter (λ layer, condition layer) layers)
      <$> layer_condition in
  if return_only_counts then
    let collected_layers := length <$> collected_layers in
    if single_condition then ContainedCount <$> first_item collected_layers
    else Ok (ContainedCounts collected_layers)
  else
    if single_condition then ContainedLayers <$> first_item collected_layers
    else Ok (ContainedLayerLists collected_layers).


(** The heaps differ at most in [call] attributes. *)
Definition same_allocation (h h' : heap) : Prop :=
  next_tensor h' = next_tensor h ∧ next_object h' = next_object h ∧
  events h' = events h.

(** The entry [new] stands for the logged call [logged] in the list that
    lines 356-368 build: it has the layer that [layer_mapping] gives for
    the logged one and as many inputs, and the entry of an input layer
    is the logged one. *)
Definition reapplied (layer_mapping : gmap nat layer) (logged new : exec_node) : Prop :=
  layer_mapping !! layer_id (node_layer logged) = Some (node_layer new) ∧
  length (node_Xs new) = length (node_Xs logged) ∧
  (is_input_layer (node_layer new) = true →
     node_Xs new = node_Xs logged ∧ node_Ys new = node_Ys logged).

(** *** Notions for the enriched trace *)

Definition id_nid (t : id_node) : option nat := t.1.1.1.
Definition id_layer (t : id_node) : layer := t.1.1.2.
Definition id_Xs (t : id_node) : list tensor := t.1.2.
Definition id_Ys (t : id_node) : list tensor := t.2.

(** The ids of the nodes of [tr] that read [x], in the order of the
    trace; a node that reads [x] twice is listed twice. *)
Definition readers (x : tensor) (tr : list id_node) : list nat :=
  t ← tr;
  match id_nid t with
  | Some n => (λ _, n) <$> filter (λ x', x' = x) (id_Xs t)
  | None => []
  end.

(** The entries whose outputs lines 431-436 record: all of them with
    [keep_input_layers], else the ones with a node id. *)
Definition recorded (keep_input_layers : bool) (t : id_node) : bool :=
  keep_input_layers || bool_decide (is_Some (id_nid t)).

(** The ids of the recorded entries of [tr] that give [y], in the order
    of the trace. *)
Definition producers (keep_input_layers : bool) (y : tensor) (tr : list id_node)
    : list (option nat) :=
  id_nid <$> filter (λ t, recorded keep_input_layers t = true ∧ y ∈ id_Ys t) tr.

(** No recorded entry gives a tensor that it or an entry with a node id in
    front of it reads. *)
Definition no_early_reader (keep_input_layers : bool) (tr : list id_node) : Prop :=
  ∀ pre t post y, tr = pre ++ t :: post →
    recorded keep_input_layers t = true → y ∈ id_Ys t →
    readers y (pre ++ [t]) = [].

(** Every tensor an input layer gives is read by a node. *)
Definition inputs_are_read (tr : list id_node) : Prop :=
  ∀ t y, t ∈ tr → is_input_layer (id_layer t) = true → y ∈ id_Ys t →
    readers y tr ≠ [].

(** [nids], with [r] appended, as a value of [inputs_to_node]: a key is
    there once a node id was recorded for it. *)
Definition extend (nids : option (list nat)) (r : list nat) : option (list nat) :=
  match nids, r with
  | Some a, _ => Some (a ++ r)
  | None, [] => None
  | None, _ => Some r
  end.

(** The layer of the node with id [v], the node ids numbering the
    entries of the trace that are no input layers from 0 on. *)
Definition layer_at (trace : list exec_node) (v : option nat) : option layer :=
  n ← v; node_layer <$> applied_nodes trace !! n.

(** The first four fields of an entry of the enriched trace. *)
Definition entry_node (e : trace_entry) : id_node :=
  (nid e, entry_layer e, Xs e, Ys e).

(** *** get_model_execution_graph (lines 482-507) *)

(** A value of the dictionary [graph]: the entry of a node, or, under the
    key [None], the list of the entries of the input layers. *)
Inductive graph_value : Type :=
  | GraphNode (node : trace_entry)
  | GraphInputLayers (input_layers : list trace_entry).

(** Lines 501-507 on the trace that [get_model_execution_trace] returned. *)
Definition execution_graph (keep_input_layers : bool) (trace : list trace_entry)
    : gmap (option nat) graph_value :=
  let input_layers := filter (λ tmp, nid tmp = None) trace in
  let graph : gmap (option nat) graph_value :=
    dict_update ∅ ((λ tmp, (nid tmp, GraphNode tmp)) <$> trace) in
  if keep_input_layers then <[None := GraphInputLayers input_layers]> graph
  else graph.

Section ExecutionGraph.
Context `{Framework}.

Definition get_model_execution_graph (m : model) (keep_input_layers : bool)
    : M (gmap (option nat) graph_value) :=
  trace ← get_model_execution_trace m keep_input_layers false;
  mret (execution_graph keep_input_layers trace).

End ExecutionGraph.

(** *** Notions for the reversal of a chain *)

Section ChainNotions.
Context `{TensorOps}.

(** The callable that lines 723-738 store for a layer. *)
Definition handler_of (m : model) (args : reverse_args) (l : layer) : option handler :=
  match resolve_reverse_mapping args l with
  | Some (MappingFunction _ f) => Some f
  | Some (MappingClass _ init) => Some (init l m)
  | None => None
  end.

(** What reversing the operators [steps] of a chain makes of the
    reversed tensor [vN] of its last tensor, when the operator of a step
    turns the reversed tensor [v] of its output into [F l v]: the last
    operator is reversed first. *)
Fixpoint chain_reversed (F : layer → value → value) (steps : list (layer * tensor))
    (vN : value) : value :=
  match steps with
  | [] => vN
  | (l, _) :: rest => F l (chain_reversed F rest vN)
  end.

End ChainNotions.

(** *** get_kernel (lines 59-62) *)

(** A weight array of a layer, by what [get_kernel] reads of it: its
    shape; the number is the identity of the array. *)
Record ndarray : Type := NdArray {
  array_id : nat;
  shape : list nat;
}.

(** [get_kernel], on [layer.get_weights()]. *)
Definition get_kernel (weights : list ndarray) : result ndarray :=
  let ret := filter (λ x, 1 < length (shape x)) weights in
  if bool_decide (length ret = 1) then first_item ret else Raise AssertionError.

(** *** pre_softmax_tensors (lines 202-220) *)

(** What [pre_softmax_tensors] asks of Keras and of [kchecks]:
    - [keras_history x] is [x._keras_history];
    - [contains_softmax layer] is
      [kchecks.contains_activation(layer, activation="softmax")];
    - [is_activation layer] is [isinstance(layer, keras.layers.Activation)];
    - [first_input_at layer node_index] is
      [layer.get_input_at(node_index)[0]];
    - [apply_wo_activation layer node_index] is
      [copy_layer_wo_activation(layer)(layer.get_input_at(node_index))]. *)
Class SoftmaxOps : Type := {
  keras_history : tensor → layer * nat * nat;
  contains_softmax : layer → bool;
  is_activation : layer → bool;
  first_input_at : layer → nat → M tensor;
  apply_wo_activation : layer → nat → M tensor;
}.

Section PreSoftmax.
Context `{SoftmaxOps}.

(** The loop of lines 207-216, from the state [(softmax_found, ret)]. *)
Fixpoint pre_softmax_loop (Xs : list tensor) (st : bool * list tensor)
    : M (bool * list tensor) :=
  match Xs with
  | [] => mret st
  | x :: rest =>
      let '(softmax_found, ret) := st in
      let '(layer, node_index, tensor_index) := keras_history x in
      st' ←
        (if contains_softmax layer then
           t ← (if is_activation layer then first_input_at layer node_index
                else apply_wo_activation layer node_index);
           mret (true, ret ++ [t])
         else mret (softmax_found, ret));
      pre_softmax_loop rest st'
  end.

Definition pre_softmax_tensors (Xs : list tensor) (should_find_softmax : bool)
    : M (list tensor) :=
  '(softmax_found, ret) ← pre_softmax_loop Xs (false, []);
  if should_find_softmax && negb softmax_found
  then raise (Exception "No softmax found.")
  else mret ret.

(** The tensors of [Xs] that a layer with a softmax gave. *)
Definition softmax_outputs (Xs : list tensor) : list tensor :=
  filter (λ x, contains_softmax (keras_history x).1.1 = true) Xs.

End PreSoftmax.

(** * Properties *)

(** ** The pruning step *)

Lemma prune_loop_reverse outputs nodes rest :
  prune_loop (reverse nodes ++ rest) outputs [] =
  prune_loop rest (prune_state outputs nodes).2 (reverse (prune_state outputs nodes).1).
Proof.
  revert rest. induction nodes as [|[[l xs] ys] nodes IH]; intros rest; [done|].
  rewrite reverse_cons, <-app_assoc, IH. simpl.
  destruct (prune_state outputs nodes) as [kept used]. simpl.
  unfold node_Ys, node_Xs. simpl.
  destruct (forallb _ ys); simpl; [|done].
  by rewrite reverse_cons.
Qed.

Lemma prune_prune_state outputs nodes :
  prune outputs nodes = (prune_state outputs nodes).1.
Proof.
  unfold prune.
  rewrite <-(app_nil_r (reverse nodes)), prune_loop_reverse. simpl.
  apply reverse_involutive.
Qed.

Lemma prune_state_app outputs pre post :
  prune_state outputs (pre ++ post) =
  ((prune_state (prune_state outputs post).2 pre).1 ++ (prune_state outputs post).1,
   (prune_state (prune_state outputs post).2 pre).2).
Proof.
  induction pre as [|n pre IH]; simpl; [by destruct (prune_state outputs post)|].
  rewrite IH. simpl.
  destruct (prune_state (prune_state outputs post).2 pre) as [kept used]. simpl.
  by destruct (forallb _ (node_Ys n)).
Qed.

Lemma prune_state_used outputs nodes t :
  t ∈ (prune_state outputs nodes).2 ↔
  t ∈ outputs ∨ ∃ k, k ∈ (prune_state outputs nodes).1 ∧ t ∈ node_Xs k.
Proof.
  induction nodes as [|n nodes IH]; simpl.
  - split; [auto|]. intros [?|(k & Hk & _)]; [done|]. by apply elem_of_nil in Hk.
  - destruct (prune_state outputs nodes) as [kept used]. simpl in *.
    destruct (forallb _ (node_Ys n)); simpl; [|done].
    rewrite elem_of_app, IH. split.
    + intros [[?|(k & Hk & Ht)]|?]; [by left| |].
      * right. exists k. split; [by apply elem_of_cons; right|done].
      * right. exists n. split; [by apply elem_of_cons; left|done].
    + intros [?|(k & Hk & Ht)]; [by left; left|].
      apply elem_of_cons in Hk as [->|Hk]; [by right|].
      left. right. eauto.
Qed.

Lemma needed_used outputs post t :
  needed outputs post t ↔ t ∈ (prune_state outputs post).2.
Proof. unfold needed. by rewrite prune_state_used, prune_prune_state. Qed.

Lemma prune_state_sublist outputs nodes :
  (prune_state outputs nodes).1 `sublist_of` nodes.
Proof.
  induction nodes as [|n nodes IH]; simpl; [done|].
  destruct (prune_state outputs nodes) as [kept used]. simpl in *.
  destruct (forallb _ (node_Ys n)); simpl.
  - by apply sublist_skip.
  - by apply sublist_cons.
Qed.

Lemma prune_sublist outputs nodes : prune outputs nodes `sublist_of` nodes.
Proof. rewrite prune_prune_state. apply prune_state_sublist. Qed.

Lemma forallb_needed outputs post ys :
  forallb (λ y, bool_decide (y ∈ (prune_state outputs post).2)) ys = true ↔
  ∀ y, y ∈ ys → needed outputs post y.
Proof.
  rewrite forallb_forall. setoid_rewrite <-list_elem_of_In.
  setoid_rewrite bool_decide_eq_true. by setoid_rewrite needed_used.
Qed.

(** An entry with an output that is not needed is dropped, and the rest
    of the list is pruned as if the entry had never been there. *)
Lemma prune_drops outputs pre n post :
  (∃ y, y ∈ node_Ys n ∧ ¬ needed outputs post y) →
  prune outputs (pre ++ n :: post) = prune outputs (pre ++ post).
Proof.
  intros (y & Hy & Hn).
  rewrite !prune_prune_state, !prune_state_app. simpl.
  destruct (prune_state outputs post) as [kept used] eqn:E. simpl.
  destruct (forallb _ (node_Ys n)) eqn:Hall; [|done].
  exfalso. apply Hn.
  assert (Hall' : forallb (λ y, bool_decide (y ∈ (prune_state outputs post).2))
                    (node_Ys n) = true) by (by rewrite E).
  by apply (forallb_needed outputs post (node_Ys n)).
Qed.

(** An entry all of whose outputs are needed is kept, in front of what is
    kept behind it. *)
Lemma prune_keeps outputs pre n post :
  (∀ y, y ∈ node_Ys n → needed outputs post y) →
  ∃ kept_pre, kept_pre `sublist_of` pre ∧
    prune outputs (pre ++ n :: post) = kept_pre ++ n :: prune outputs post.
Proof.
  intros Hall. apply forallb_needed in Hall.
  rewrite !prune_prune_state, prune_state_app. simpl.
  destruct (prune_state outputs post) as [kept used] eqn:E. simpl in *.
  rewrite Hall. simpl.
  eexists. split; [|done]. apply prune_state_sublist.
Qed.

(** ** Topological orders *)






(** ** The native path *)





(** ** Reasoning about the two monads *)

Lemma result_bind_Ok {A B} (r : result A) (f : A → result B) b :
  r ≫= f = Ok b → ∃ a, r = Ok a ∧ f a = Ok b.
Proof. destruct r as [a|e]; [eauto|done]. Qed.

Lemma M_bind_inv {A B} (m : M A) (f : A → M B) h r h' :
  (m ≫= f) h = (r, h') →
  (∃ a h1, m h = (Ok a, h1) ∧ f a h1 = (r, h')) ∨
  (∃ e, m h = (Raise e, h') ∧ r = Raise e).
Proof.
  unfold mbind, M_bind. destruct (m h) as [[a|e] h1]; [eauto|].
  intros [= <- <-]. eauto.
Qed.

Lemma M_bind_Ok {A B} (m : M A) (f : A → M B) h b h' :
  (m ≫= f) h = (Ok b, h') → ∃ a h1, m h = (Ok a, h1) ∧ f a h1 = (Ok b, h').
Proof. intros [?|(e & _ & ?)]%M_bind_inv; [done|done]. Qed.

Lemma M_bind_eq_Ok {A B} (m : M A) (f : A → M B) h a h1 :
  m h = (Ok a, h1) → (m ≫= f) h = f a h1.
Proof. unfold mbind, M_bind. by intros ->. Qed.

Lemma M_bind_eq_Raise {A B} (m : M A) (f : A → M B) h e h1 :
  m h = (Raise e, h1) → (m ≫= f) h = (Raise e, h1).
Proof. unfold mbind, M_bind. by intros ->. Qed.

Lemma lift_inv {A} (r : result A) h r' h' : lift r h = (r', h') → r = r' ∧ h' = h.
Proof. by intros [= <- <-]. Qed.

Lemma mret_inv {A} (a : A) h r h' : mret (M := M) a h = (r, h') → r = Ok a ∧ h' = h.
Proof. by intros [= <- <-]. Qed.

Lemma try_finally_inv {A} (body : M A) (cleanup : M unit) h r h' :
  try_finally body cleanup h = (r, h') →
  ∃ rb h1 rc, body h = (rb, h1) ∧ cleanup h1 = (rc, h') ∧
              r = match rc with Ok _ => rb | Raise e => Raise e end.
Proof.
  unfold try_finally. destruct (body h) as [rb h1].
  destruct (cleanup h1) as [[u|e] h2] eqn:Hc; intros [= <- <-].
  - exists rb, h1, (Ok u). done.
  - exists rb, h1, (Raise e). done.
Qed.

Lemma map_result_Ok {A B} (f : A → result B) xs ys :
  map_result f xs = Ok ys → Forall2 (λ x y, f x = Ok y) xs ys.
Proof.
  revert ys. induction xs as [|x xs IH]; simpl; intros ys Hm.
  - injection Hm as <-. constructor.
  - apply result_bind_Ok in Hm as (y & Hy & Hm).
    apply result_bind_Ok in Hm as (ys' & Hys & Hm).
    injection Hm as <-. constructor; auto.
Qed.

Lemma getitem_Ok `{Countable K} {V} (d : gmap K V) k v :
  getitem d k = Ok v ↔ d !! k = Some v.
Proof. unfold getitem. destruct (d !! k); naive_solver. Qed.

Lemma dict_update_lookup `{Countable K} {V} (d : gmap K V) pairs k v :
  dict_update d pairs !! k = Some v → (k, v) ∈ pairs ∨ d !! k = Some v.
Proof.
  unfold dict_update. revert d.
  induction pairs as [|[k' v'] pairs IH]; simpl; intros d Hl; [by right|].
  apply IH in Hl as [Hl|Hl]; [left; by right|].
  apply lookup_insert_Some in Hl as [[<- <-]|[_ Hl]]; [left; by left|by right].
Qed.

(** ** The replay path *)

Section ReplayPath.
Context `{Framework}.








End ReplayPath.

(** ** trace_model_execution returns a topological order *)





Section TraceTopological.
Context `{Framework}.



End TraceTopological.

(** ** Pruning removes the invocations the model does not use *)

Lemma filter_sublist_mono {A} (P : A → Prop) `{!∀ x, Decision (P x)} (l k : list A) :
  l `sublist_of` k → filter P l `sublist_of` filter P k.
Proof.
  induction 1 as [|x l k Hs IH|x l k Hs IH]; [done| |].
  - rewrite !filter_cons. destruct (decide (P x)); [by apply sublist_skip|done].
  - rewrite filter_cons. destruct (decide (P x)); [by apply sublist_cons|done].
Qed.

Lemma sublist_singleton_elem {A} (l : list A) x y :
  l `sublist_of` [x] → y ∈ l → l = [x].
Proof.
  intros Hs Hy. destruct l as [|a l]; [by apply elem_of_nil in Hy|].
  apply sublist_cons_l in Hs as (k1 & k2 & Hk & Hs).
  destruct k1 as [|b k1].
  - injection Hk as <- <-. by apply sublist_nil_r in Hs as ->.
  - injection Hk as _ Hk. by destruct k1.
Qed.

(** C6.  In an execution list [pre ++ n :: post] with outputs [outputs]:
    - if an output of [n] is not needed -- it is no output of the model
      and no kept entry behind [n] reads it -- the pruning step removes
      [n], and prunes the rest as if [n] had not been there;
    - if all outputs of [n] are needed, [n] is kept, in front of what is
      kept behind it;
    - what is kept stands in forward order;
    - so when [n] is the stray invocation of a layer (one of its outputs
      is read by no entry and is no output) and the other entries have a
      single invocation [n_in] of the layer, which the model uses, the
      layer appears in the pruned list exactly once, as [n_in]. *)
Theorem prune_removes_unneeded_invocations outputs pre n post :
  ((∃ y, y ∈ node_Ys n ∧ ¬ needed outputs post y) →
     prune outputs (pre ++ n :: post) = prune outputs (pre ++ post)) ∧
  ((∀ y, y ∈ node_Ys n → needed outputs post y) →
     ∃ kept_pre, kept_pre `sublist_of` pre ∧
       prune outputs (pre ++ n :: post) = kept_pre ++ n :: prune outputs post) ∧
  prune outputs (pre ++ n :: post) `sublist_of` pre ++ n :: post ∧
  (∀ n_in,
     (∃ y, y ∈ node_Ys n ∧ (y ∉ outputs) ∧
           ∀ k, k ∈ pre ++ n :: post → y ∉ node_Xs k) →
     filter (λ k, layer_is (node_layer k) (node_layer n)) (pre ++ post) = [n_in] →
     n_in ∈ prune outputs (pre ++ post) →
     filter (λ k, layer_is (node_layer k) (node_layer n))
       (prune outputs (pre ++ n :: post)) = [n_in]).
Proof.
  split; [apply prune_drops|]. split; [apply prune_keeps|].
  split; [apply prune_sublist|].
  intros n_in (y & Hy & Hout & Hunread) Hone Hin.
  rewrite prune_drops.
  - apply (sublist_singleton_elem _ n_in n_in).
    + rewrite <-Hone. apply filter_sublist_mono, prune_sublist.
    + apply list_elem_of_filter. split; [|done].
      assert (Hf : n_in ∈ filter (λ k, layer_is (node_layer k) (node_layer n))
                     (pre ++ post)) by (rewrite Hone; by left).
      by apply list_elem_of_filter in Hf as [Hf _].
  - exists y. split; [done|]. intros [?|(k & Hk & Hx)]; [done|].
    apply (Hunread k); [|done].
    apply elem_of_app. right. right. eapply elem_of_sublist; [done|apply prune_sublist].
Qed.

(** ** The instrumentation is reverted *)

Lemma keeps_call_on_weaken {A} (P Q : nat → Prop) (c : M A) :
  (∀ id, Q id → P id) → keeps_call_on P c → keeps_call_on Q c.
Proof. intros HPQ Hc h r h' Hr id Hid. eapply Hc; eauto. Qed.

Lemma keeps_call_on_bind {A B} (P : nat → Prop) (c : M A) (f : A → M B) :
  keeps_call_on P c → (∀ a, keeps_call_on P (f a)) → keeps_call_on P (c ≫= f).
Proof.
  intros Hc Hf h r h' [(a & h1 & Ha & Hb)|(e & Ha & _)]%M_bind_inv id Hid.
  - rewrite (Hf a _ _ _ Hb id Hid). by eapply Hc.
  - by eapply Hc.
Qed.

Lemma keeps_call_on_mret {A} (P : nat → Prop) (a : A) : keeps_call_on P (mret a).
Proof. by intros h r h' [_ ->]%mret_inv. Qed.

Lemma keeps_call_on_lift {A} (P : nat → Prop) (r : result A) : keeps_call_on P (lift r).
Proof. by intros h r' h' [_ ->]%lift_inv. Qed.

Lemma keeps_call_on_map_M {A B} (P : nat → Prop) (f : A → M B) xs :
  (∀ x, keeps_call_on P (f x)) → keeps_call_on P (map_M f xs).
Proof.
  intros Hf. induction xs as [|x xs IH]; simpl; [apply keeps_call_on_mret|].
  apply keeps_call_on_bind; [done|]. intros y.
  apply keeps_call_on_bind; [done|]. intros ys. apply keeps_call_on_mret.
Qed.

Lemma map_M_getattr layers h :
  map_M (λ layer, c ← getattr_call layer; mret (layer, c)) layers h =
  (Ok ((λ l, (l, call_attr h (layer_id l))) <$> layers), h).
Proof.
  induction layers as [|l layers IH]; [done|]. simpl.
  rewrite (M_bind_eq_Ok _ _ h (l, call_attr h (layer_id l)) h) by done.
  by rewrite (M_bind_eq_Ok _ _ h _ h IH).
Qed.

(** The loop of [finally]: it does not raise, every layer it visits ends
    with the method recorded for it, and no other layer is touched. *)
Lemma for_each_setattr (f : nat → method) layers : ∀ h,
  ∃ h', for_each (λ lm : layer * method, setattr_call lm.1 lm.2)
          ((λ l, (l, f (layer_id l))) <$> layers) h = (Ok (), h') ∧
        ∀ id, call_attr h' id =
              if decide (id ∈ layer_id <$> layers) then f id else call_attr h id.
Proof.
  induction layers as [|l0 layers IH]; intros h.
  - exists h. split; [done|]. intros id. by rewrite decide_False by apply not_elem_of_nil.
  - destruct (IH (Heap (<[layer_id l0 := f (layer_id l0)]> (call_attr h))
                   (next_tensor h) (next_object h) (events h))) as (h' & Hf & Hl).
    exists h'. split.
    { rewrite fmap_cons, <-Hf.
      exact (M_bind_eq_Ok (setattr_call l0 (f (layer_id l0))) _ h () _ eq_refl). }
    intros id. rewrite Hl. simpl.
    destruct (decide (id ∈ layer_id <$> layers)) as [Hin|Hnin].
    + rewrite decide_True; [done|by right].
    + destruct (decide (id = layer_id l0)) as [->|Hne].
      * rewrite decide_True by (by left). by rewrite fn_lookup_insert.
      * rewrite decide_False by (by intros [?|?]%elem_of_cons).
        by rewrite fn_lookup_insert_ne.
Qed.

Section Instrumentation.
Context `{Framework}.

(** The [try]/[finally] of lines 315-343, on every outcome. *)
Lemma instrumented_replay_restores m layers :
  keeps_call_on (λ id, ∃ l, l ∈ layers ∧ layer_id l = id) (instrumented_replay m layers).
Proof.
  intros h r h' Hi id (l & Hl & <-). unfold instrumented_replay in Hi.
  apply M_bind_inv in Hi as [(patches & h0 & Hp & Hi)|(e & Hp & _)];
    rewrite map_M_getattr in Hp; [|done].
  injection Hp as <- <-.
  apply try_finally_inv in Hi as (rb & h1 & rc & _ & Hfin & _).
  destruct (for_each_setattr (call_attr h) layers h1) as (h2 & Hfin' & Hres).
  rewrite Hfin in Hfin'. injection Hfin' as _ ->.
  rewrite Hres, decide_True; [done|]. apply list_elem_of_fmap. eauto.
Qed.

Lemma reapply_keeps_call m copied layers log outs :
  kapply_keeps_call → copy_layer_keeps_call →
  keeps_call_on (λ _, True) (reapply m copied layers log outs).
Proof.
  intros Hk Hc. unfold reapply.
  apply keeps_call_on_bind.
  { destruct copied; [|apply keeps_call_on_mret].
    apply keeps_call_on_bind; [|intros; apply keeps_call_on_mret].
    apply keeps_call_on_map_M. intros l.
    apply keeps_call_on_bind; [apply Hc|intros; apply keeps_call_on_mret]. }
  intros layer_mapping. apply keeps_call_on_bind.
  { generalize (dict_update (∅ : gmap tensor tensor)
                  ((λ tmp, (tmp, tmp)) <$> model_inputs m), @nil exec_node).
    induction log as [|n log IH]; intros acc; simpl; [apply keeps_call_on_mret|].
    apply keeps_call_on_bind; [|done].
    unfold reapply_node. destruct acc as [tm acc], n as [[l xs] ys].
    apply keeps_call_on_bind; [apply keeps_call_on_lift|intros l'].
    apply keeps_call_on_bind; [|intros [? ?]; apply keeps_call_on_mret].
    destruct (is_input_layer l'); [apply keeps_call_on_mret|].
    apply keeps_call_on_bind; [apply keeps_call_on_lift|intros new_xs].
    apply keeps_call_on_bind; [apply Hk|intros; apply keeps_call_on_mret]. }
  intros [tm acc].
  apply keeps_call_on_bind; [apply keeps_call_on_lift|intros ls].
  apply keeps_call_on_bind; [apply keeps_call_on_lift|intros os].
  apply keeps_call_on_mret.
Qed.

(** C9.  On every exit of the replay branch the [call] attribute of
    every layer has the value it had on entry.  (1) The [try]/[finally]
    of lines 315-343 restores it whatever happens inside -- the patching
    raises, the replay raises or returns -- so no layer is instrumented
    when the re-application starts.  (2) Hence [trace_model_execution]
    as a whole, returning or raising, leaves it restored, the
    re-application of lines 349-372 assigning to no [call] attribute. *)
Theorem instrumentation_is_reverted m :
  (∀ layers h r h' l,
     instrumented_replay m layers h = (r, h') → l ∈ layers →
     call_attr h' (layer_id l) = call_attr h (layer_id l)) ∧
  (kapply_keeps_call → copy_layer_keeps_call →
   ∀ copied layers h r h' l,
     get_model_layers m = Ok layers →
     trace_model_execution m copied h = (r, h') → l ∈ layers →
     call_attr h' (layer_id l) = call_attr h (layer_id l)).
Proof.
  split.
  - intros layers h r h' l Hi Hl.
    eapply instrumented_replay_restores; eauto.
  - intros Hk Hc copied layers h r h' l Hlayers Ht Hl.
    assert (Hkeep : keeps_call_on (λ id, ∃ l, l ∈ layers ∧ layer_id l = id)
                      (trace_model_execution m copied)).
    { unfold trace_model_execution.
      apply keeps_call_on_bind; [|intros [[? ?] ?]; apply keeps_call_on_mret].
      intros h0 r0 h0' Hrun. unfold trace_unpruned in Hrun.
      rewrite Hlayers, (M_bind_eq_Ok _ _ h0 layers h0) in Hrun by done.
      revert h0 r0 h0' Hrun.
      destruct (contains_container m layers); [|apply keeps_call_on_mret].
      apply keeps_call_on_bind; [apply instrumented_replay_restores|].
      intros [log os].
      eapply keeps_call_on_weaken; [|by apply reapply_keeps_call]. done. }
    eapply Hkeep; eauto.
Qed.

End Instrumentation.

(** ** The table of reversed tensors *)


Section ReversedTensors.
Context `{TensorOps}.

Lemma entry_wf_one_key e : entry_wf e → one_key e.
Proof.
  unfold entry_wf, one_key.
  destruct (entry_tensor e), (entry_tensors e); naive_solver.
Qed.

Lemma table_wf_empty : table_wf ∅.
Proof. intros X e. by rewrite lookup_empty. Qed.

Lemma table_wf_insert t X e : table_wf t → entry_wf e → table_wf (<[X := e]> t).
Proof.
  intros Ht He X' e' [[<- <-]|[_ Hl]]%lookup_insert_Some; [done|by eapply Ht].
Qed.

(** On a well-formed table [add_reversed_tensor] does not raise. *)
Lemma add_reversed_tensor_wf reverse_id t i X v :
  table_wf t →
  ∃ t', add_reversed_tensor reverse_id t i X v = Ok t' ∧ table_wf t'.
Proof.
  intros Ht. unfold add_reversed_tensor.
  destruct (t !! X) as [tmp|] eqn:HX.
  - pose proof (Ht X tmp HX) as He. unfold entry_wf in He.
    destruct (entry_tensor tmp), (entry_tensors tmp) as [ts|]; try done.
    + eexists. split; [done|]. apply table_wf_insert; [done|].
      unfold entry_wf. simpl. lia.
    + eexists. split; [done|]. apply table_wf_insert; [done|].
      unfold entry_wf. simpl. rewrite length_app. simpl. lia.
  - eexists. split; [done|]. by apply table_wf_insert.
Qed.

(** On a well-formed table [get_reversed_tensor] raises only for a tensor
    without an entry, and changes nothing but ["final_tensor"]. *)
Lemma get_reversed_tensor_wf cfg x t :
  table_wf t →
  match t !! x with
  | None => get_reversed_tensor cfg x t = Raise KeyError
  | Some e =>
      ∃ v t', get_reversed_tensor cfg x t = Ok (v, t') ∧ table_wf t' ∧
              (∃ f, t' !! x = Some (Entry (entry_id e) (entry_tensor e)
                                      (entry_tensors e) f)) ∧
              ∀ y, y ≠ x → t' !! y = t !! y
  end.
Proof.
  intros Ht. unfold get_reversed_tensor, getitem.
  destruct (t !! x) as [e|] eqn:Hx; [|done]. simpl.
  pose proof (Ht x e Hx) as He. unfold entry_wf in He.
  destruct (entry_final_tensor e) as [f|] eqn:Hf.
  { eexists _, _. split; [done|]. split; [done|]. split; [|done].
    exists (Some f). rewrite Hx. f_equal. destruct e; simpl in *. by subst. }
  destruct (entry_tensor e) as [a|] eqn:Ha, (entry_tensors e) as [ts|] eqn:Hts;
    try done; simpl.
  - eexists _, _. split; [done|]. split; [|split].
    + by apply table_wf_insert.
    + eexists. by rewrite lookup_insert_eq.
    + intros y Hy. by rewrite lookup_insert_ne.
  - destruct ts as [|t0 [|t1 ts]]; simpl in He; try lia. simpl.
    eexists _, _. split; [done|]. split; [|split].
    + apply table_wf_insert; [done|]. unfold entry_wf. simpl. lia.
    + eexists. by rewrite lookup_insert_eq.
    + intros y Hy. by rewrite lookup_insert_ne.
Qed.

Lemma run_op_wf cfg t op t' :
  table_wf t → run_op cfg t op = Ok t' → table_wf t'.
Proof.
  intros Ht. destruct op as [rid i X v|x]; simpl.
  - destruct (add_reversed_tensor_wf rid t i X v Ht) as (t2 & -> & Ht2).
    by intros [= <-].
  - pose proof (get_reversed_tensor_wf cfg x t Ht) as Hg.
    destruct (t !! x); [|by rewrite Hg].
    destruct Hg as (v & t2 & -> & Ht2 & _). by intros [= <-].
Qed.

Lemma run_ops_wf cfg ops : ∀ t t',
  table_wf t → run_ops cfg t ops = Ok t' → table_wf t'.
Proof.
  unfold run_ops. induction ops as [|op ops IH]; intros t t' Ht; simpl.
  - by intros [= <-].
  - intros (t1 & Hop & Hrest)%result_bind_Ok.
    eapply IH; [|done]. by eapply run_op_wf.
Qed.

(** [add_reversed_tensors] is its calls of [add_reversed_tensor], one
    after the other. *)
Lemma add_reversed_tensors_from_ops cfg reverse_id pairs : ∀ i t,
  add_reversed_tensors_from reverse_id i pairs t =
  run_ops cfg t (add_ops reverse_id i pairs).
Proof.
  unfold run_ops, add_ops.
  induction pairs as [|[X v] pairs IH]; intros i t; [done|]. simpl.
  rewrite Nat.add_0_r. destruct (add_reversed_tensor reverse_id t i X v); [|done].
  simpl. rewrite IH. f_equal. apply imap_ext. intros k p _. simpl.
  f_equal. lia.
Qed.

Lemma add_reversed_tensors_ops cfg reverse_id tl rl t :
  add_reversed_tensors reverse_id tl rl t =
  run_ops cfg t (add_ops reverse_id 0 (zip tl rl)).
Proof. apply add_reversed_tensors_from_ops. Qed.

Lemma add_reversed_tensors_from_wf reverse_id pairs : ∀ i t,
  table_wf t →
  ∃ t', add_reversed_tensors_from reverse_id i pairs t = Ok t' ∧ table_wf t'.
Proof.
  induction pairs as [|[X v] pairs IH]; intros i t Ht; simpl; [eauto|].
  destruct (add_reversed_tensor_wf reverse_id t i X v Ht) as (t1 & -> & Ht1).
  simpl. by apply IH.
Qed.

(** C10.  After any calls of the two closures on the empty table, none
    of which raised, every entry holds exactly one of the keys ["tensor"]
    and ["tensors"].  So a further [add_reversed_tensor] never raises
    "Wrong order, tensors already aggregated!", and neither does
    [add_reversed_tensors], which is a run of such calls: the branch of
    line 670 cannot be reached. *)
Theorem reversed_tensors_hold_one_key cfg ops reversed_tensors :
  run_ops cfg ∅ ops = Ok reversed_tensors →
  (∀ X e, reversed_tensors !! X = Some e → one_key e) ∧
  (∀ reverse_id i X v,
     add_reversed_tensor reverse_id reversed_tensors i X v ≠
     Raise (Exception "Wrong order, tensors already aggregated!")) ∧
  (∀ reverse_id tensors_list reversed_tensors_list,
     add_reversed_tensors reverse_id tensors_list reversed_tensors_list
       reversed_tensors =
     run_ops cfg reversed_tensors
       (add_ops reverse_id 0 (zip tensors_list reversed_tensors_list)) ∧
     add_reversed_tensors reverse_id tensors_list reversed_tensors_list
       reversed_tensors ≠
     Raise (Exception "Wrong order, tensors already aggregated!")).
Proof.
  intros Hrun.
  assert (Hwf : table_wf reversed_tensors).
  { eapply run_ops_wf; [apply table_wf_empty|done]. }
  split; [|split].
  - intros X e He. by eapply entry_wf_one_key, Hwf.
  - intros rid i X v.
    by destruct (add_reversed_tensor_wf rid reversed_tensors i X v Hwf) as (t' & -> & _).
  - intros rid tl rl. split; [apply add_reversed_tensors_ops|].
    unfold add_reversed_tensors.
    by destruct (add_reversed_tensors_from_wf rid (zip tl rl) 0 reversed_tensors Hwf)
      as (t' & -> & _).
Qed.




End ReversedTensors.

(** ** Bottleneck tensors *)

Lemma foldl_result_applied {A} (f : A → exec_node → result A) l : ∀ a,
  (∀ a n, is_input_layer (node_layer n) = true → f a n = Ok a) →
  foldl_result f a l = foldl_result f a (applied_nodes l).
Proof.
  intros a Hskip. revert a. unfold applied_nodes.
  induction l as [|n l IH]; intros a; [done|].
  rewrite filter_cons. destruct (decide _) as [Hn|Hn]; simpl.
  - destruct (f a n); simpl; [apply IH|done].
  - apply not_false_is_true in Hn. rewrite (Hskip a n Hn). simpl. apply IH.
Qed.

Lemma forward_connections_of_applied l :
  forward_connections_of l = forward_connections_of (applied_nodes l).
Proof.
  unfold forward_connections_of, applied_nodes. generalize (∅ : gmap tensor (list tensor)).
  induction l as [|[[la xs] ys] l IH]; intros fc; [done|].
  rewrite filter_cons. unfold node_layer. simpl.
  destruct (decide _) as [Hn|Hn]; simpl.
  - rewrite Hn. apply IH.
  - apply not_false_is_true in Hn. rewrite Hn. apply IH.
Qed.

(** Input layers play no part in [get_bottleneck_tensors]. *)
Lemma get_bottleneck_tensors_applied inputs outputs l :
  get_bottleneck_tensors inputs outputs l =
  get_bottleneck_tensors inputs outputs (applied_nodes l).
Proof.
  unfold get_bottleneck_tensors. rewrite <-forward_connections_of_applied.
  destruct (foldl_result _ ∅ inputs) as [oc|]; simpl; [|done].
  rewrite (foldl_result_applied _ l); [done|].
  intros [oc' ret] [[la xs] ys] Hn. unfold node_layer in Hn. simpl in *. by rewrite Hn.
Qed.

(** Lines 572-576: what an entry that applies a layer adds to the result. *)
Lemma bottleneck_step_marks fc outputs oc ret l Xs Ys oc' ret' :
  is_input_layer l = false →
  bottleneck_step fc outputs (oc, ret) (l, Xs, Ys) = Ok (oc', ret') →
  ∃ oc1, foldl_result close_output oc Ys = Ok oc1 ∧
    ((oc1 = ∅ ∧ ∃ x y ys, Xs = [x] ∧ Ys = y :: ys ∧ ret' = ret ∪ {[x]} ∪ {[y]}) ∨
     ((oc1 ≠ ∅ ∨ length Xs ≠ 1) ∧ ret' = ret)).
Proof.
  intros Hl Hstep. unfold bottleneck_step in Hstep. rewrite Hl in Hstep.
  apply result_bind_Ok in Hstep as (oc1 & Hclose & Hstep).
  apply result_bind_Ok in Hstep as (ret1 & Hmark & Hstep).
  apply result_bind_Ok in Hstep as (oc2 & _ & [= _ <-]).
  exists oc1. split; [done|]. unfold mark in Hmark.
  destruct (bool_decide (oc1 = ∅)) eqn:Hoc.
  - apply bool_decide_eq_true in Hoc.
    destruct Xs as [|x [|x' Xs]].
    + injection Hmark as <-. right. split; [right; simpl; lia|done].
    + destruct Ys as [|y ys]; [done|]. injection Hmark as <-.
      left. split; [done|]. by exists x, y, ys.
    + injection Hmark as <-. right. split; [right; simpl; lia|done].
  - apply bool_decide_eq_false in Hoc. injection Hmark as <-.
    right. split; [by left|done].
Qed.

Lemma chain_succ_None t0 steps k :
  k ∉ t0 :: steps.*2 → chain_succ t0 steps k = None.
Proof.
  revert t0. induction steps as [|[l t] steps IH]; intros t0 Hk; [done|]. simpl.
  rewrite decide_False by (intros ->; apply Hk; by left).
  apply IH. intros Hin. apply Hk. by right.
Qed.

Lemma forward_connections_chain steps : ∀ t0 (acc : gmap tensor (list tensor)) k,
  NoDup (t0 :: steps.*2) →
  Forall (λ s, is_input_layer s.1 = false) steps →
  (∀ k, k ∈ t0 :: steps.*2 → acc !! k = None) →
  foldl (λ fc (n : exec_node),
           let '(l, Xs, Ys) := n in
           if is_input_layer l then fc else foldl (connect Ys) fc Xs)
        acc (chain_nodes t0 steps) !! k =
  match chain_succ t0 steps k with
  | Some t' => Some [t']
  | None => acc !! k
  end.
Proof.
  induction steps as [|[l t] steps IH]; intros t0 acc k Hnd Hl Hacc; [done|].
  apply list.NoDup_cons in Hnd as [Ht0 Hnd]. apply list.Forall_cons in Hl as [Hl0 Hl].
  simpl in *. rewrite Hl0. unfold connect at 2.
  rewrite (Hacc t0) by (by left).
  rewrite IH; [|done|done|].
  - destruct (decide (k = t0)) as [->|Hne].
    + rewrite chain_succ_None by done. by rewrite lookup_insert_eq.
    + rewrite lookup_insert_ne by done. done.
  - intros k' Hk'. rewrite lookup_insert_ne; [apply Hacc; by right|].
    intros ->. done.
Qed.

Lemma singleton_minus_itself (t : tensor) : ({[t]} ∖ {[t]} : gset tensor) = ∅.
Proof. set_solver. Qed.

Lemma empty_union_singleton_list (t : tensor) :
  (∅ ∪ list_to_set [t] : gset tensor) = {[t]}.
Proof. set_solver. Qed.



Lemma foldl_result_cons {A B} (f : A → B → result A) a x xs :
  foldl_result f a (x :: xs) = f a x ≫= λ a', foldl_result f a' xs.
Proof. done. Qed.

Lemma chain_nodes_cons t0 l t steps :
  chain_nodes t0 ((l, t) :: steps) = (l, [t0], [t]) :: chain_nodes t steps.
Proof. done. Qed.

Lemma open_from_single (fc : gmap tensor (list tensor)) t t' :
  fc !! t = Some [t'] → open_from fc ∅ t = Ok {[t']}.
Proof.
  intros Hfc. unfold open_from, getitem. rewrite Hfc. cbn [mbind result_bind].
  by rewrite empty_union_singleton_list.
Qed.

Lemma bottleneck_step_chain fc outputs ret l t0 t1 :
  is_input_layer l = false →
  bottleneck_step fc outputs ({[t1]}, ret) (l, [t0], [t1]) =
  (if bool_decide (t1 ∈ outputs) then Ok (∅, ret ∪ {[t0]} ∪ {[t1]})
   else oc ← open_from fc ∅ t1; Ok (oc, ret ∪ {[t0]} ∪ {[t1]})).
Proof.
  intros Hl. unfold bottleneck_step. rewrite Hl. simpl.
  unfold close_output.
  rewrite (bool_decide_eq_true_2 (t1 ∈ ({[t1]} : gset tensor)))
    by (by apply elem_of_singleton).
  simpl. rewrite singleton_minus_itself. unfold mark.
  rewrite (bool_decide_eq_true_2 ((∅ : gset tensor) = ∅)) by done. simpl.
  destruct (bool_decide (t1 ∈ outputs)); simpl; [done|].
  by destruct (open_from fc ∅ t1).
Qed.


Lemma forward_connections_of_chain t0 steps k :
  NoDup (t0 :: steps.*2) →
  Forall (λ s, is_input_layer s.1 = false) steps →
  forward_connections_of (chain_nodes t0 steps) !! k =
  (λ t', [t']) <$> chain_succ t0 steps k.
Proof.
  intros Hnd Hl. unfold forward_connections_of.
  rewrite forward_connections_chain by done.
  by destruct (chain_succ t0 steps k).
Qed.

Lemma chain_succ_tail l t0 t1 steps k :
  NoDup (t0 :: t1 :: steps.*2) → k ∈ t1 :: steps.*2 →
  chain_succ t0 ((l, t1) :: steps) k = chain_succ t1 steps k.
Proof.
  intros [Hnd _]%list.NoDup_cons Hk. simpl.
  rewrite decide_False; [done|]. by intros ->.
Qed.







(** ** The layers of a model are collected once each *)

Lemma layer_in_false l ret : layer_in l ret = false → layer_id l ∉ layer_id <$> ret.
Proof.
  unfold layer_in. intros Hin (l' & Heq & Hl')%list_elem_of_fmap.
  assert (existsb (layer_is l) ret = true); [|congruence].
  apply existsb_exists. exists l'. split; [by apply list_elem_of_In|].
  unfold layer_is. by apply bool_decide_eq_true.
Qed.

Lemma collect_layer_NoDup : ∀ l ret ret',
  collect_layer l ret = Ok ret' →
  NoDup (layer_id <$> ret) → NoDup (layer_id <$> ret').
Proof.
  fix IH 1. intros l ret ret' Hc Hnd.
  assert (Hsnoc : layer_in l ret = false → NoDup (layer_id <$> (ret ++ [l]))).
  { intros Hin%layer_in_false. rewrite fmap_app. apply NoDup_app.
    split; [done|]. split; [|apply NoDup_singleton].
    intros x Hx ->%list_elem_of_singleton. done. }
  destruct l as [id|id|id ls]; simpl in Hc.
  - destruct (layer_in (InputLayer id) ret) eqn:Hin; [done|].
    injection Hc as <-. by apply Hsnoc.
  - destruct (layer_in (Layer id) ret) eqn:Hin; [done|].
    injection Hc as <-. by apply Hsnoc.
  - destruct (layer_in (Container id ls) ret) eqn:Hin; [done|].
    specialize (Hsnoc eq_refl). revert Hc Hsnoc.
    generalize (ret ++ [Container id ls]). clear Hnd Hin ret.
    induction ls as [|l' ls IHls]; intros ret Hc Hnd.
    + by injection Hc as <-.
    + apply result_bind_Ok in Hc as (ret1 & Hc1 & Hc).
      apply (IHls ret1); [done|]. by apply (IH l' ret).
Qed.

Lemma collect_layers_NoDup ls : ∀ ret ret',
  collect_layers ls ret = Ok ret' →
  NoDup (layer_id <$> ret) → NoDup (layer_id <$> ret').
Proof.
  induction ls as [|l ls IH]; intros ret ret' Hc Hnd; simpl in Hc.
  - by injection Hc as <-.
  - apply result_bind_Ok in Hc as (ret1 & Hc1 & Hc).
    apply (IH ret1); [done|]. by eapply collect_layer_NoDup.
Qed.

(** [get_model_layers] returns every layer once (line 239 asserts it). *)
Lemma get_model_layers_NoDup m layers :
  get_model_layers m = Ok layers → NoDup (layer_id <$> layers).
Proof. intros Hg. eapply collect_layers_NoDup; [done|]. constructor. Qed.

Lemma NoDup_fmap_inj_on {A B} (f : A → B) (l : list A) x y :
  NoDup (f <$> l) → x ∈ l → y ∈ l → f x = f y → x = y.
Proof.
  induction l as [|a l IH]; intros Hnd Hx Hy Hf; [by apply elem_of_nil in Hx|].
  rewrite fmap_cons in Hnd. apply list.NoDup_cons in Hnd as [Ha Hnd].
  apply elem_of_cons in Hx as [->|Hx]; apply elem_of_cons in Hy as [->|Hy].
  - done.
  - exfalso. apply Ha. rewrite Hf. by apply list_elem_of_fmap_2.
  - exfalso. apply Ha. rewrite <-Hf. by apply list_elem_of_fmap_2.
  - by apply IH.
Qed.

(** The layers looked up in a layer mapping are distinct when the layers
    the mapping was built from are and it maps to distinct layers. *)
Lemma mapped_layers_NoDup (pairs : list (nat * layer)) layers layers' :
  NoDup (layer_id <$> layers) →
  NoDup ((λ p, layer_id p.2) <$> pairs) →
  Forall2 (λ l l', (layer_id l, l') ∈ pairs) layers layers' →
  NoDup (layer_id <$> layers').
Proof.
  intros Hnd Hpairs Hf. induction Hf as [|l l' layers layers' Hl Hf IH]; [constructor|].
  rewrite fmap_cons in *. apply list.NoDup_cons in Hnd as [Hl_new Hnd].
  apply list.NoDup_cons. split; [|by apply IH].
  intros (l2' & Heq & Hl2')%list_elem_of_fmap.
  apply list_elem_of_lookup in Hl2' as [i Hi].
  destruct (Forall2_lookup_r _ _ _ _ _ Hf Hi) as (l2 & Hl2 & Hp2).
  assert (Hsame : (layer_id l, l') = (layer_id l2, l2')).
  { by apply (NoDup_fmap_inj_on (λ p, layer_id p.2) pairs). }
  injection Hsame as Hid _. apply Hl_new. rewrite Hid.
  apply list_elem_of_fmap_2, list_elem_of_lookup. eauto.
Qed.

Section TraceLayers.
Context `{Framework}.

Lemma map_M_copy_layer_pairs layers : ∀ h pairs h',
  copy_layer_allocates →
  map_M (λ layer, c ← copy_layer layer; mret (layer_id layer, c)) layers h
    = (Ok pairs, h') →
  next_object h ≤ next_object h' ∧
  Forall (λ p : nat * layer, next_object h ≤ layer_id p.2 < next_object h') pairs.
Proof.
  induction layers as [|l layers IH]; intros h pairs h' Hcopy Hm.
  - apply mret_inv in Hm as [[= ->] ->]. split; [done|constructor].
  - simpl in Hm. apply M_bind_Ok in Hm as (p & h1 & Hp & Hm).
    apply M_bind_Ok in Hp as (c & h2 & Hc & Hp).
    apply mret_inv in Hp as [[= ->] ->].
    apply M_bind_Ok in Hm as (ps & h3 & Hps & Hm).
    apply mret_inv in Hm as [[= ->] ->].
    apply Hcopy in Hc. apply IH in Hps as [Hmono Hps]; [|done].
    split; [lia|]. constructor; [simpl; lia|].
    eapply Forall_impl; [done|]. simpl. intros; lia.
Qed.

Lemma copied_layers_NoDup layers : ∀ h pairs h',
  copy_layer_allocates →
  map_M (λ layer, c ← copy_layer layer; mret (layer_id layer, c)) layers h
    = (Ok pairs, h') →
  NoDup ((λ p, layer_id p.2) <$> pairs).
Proof.
  induction layers as [|l layers IH]; intros h pairs h' Hcopy Hm.
  - apply mret_inv in Hm as [[= ->] ->]. constructor.
  - simpl in Hm. apply M_bind_Ok in Hm as (p & h1 & Hp & Hm).
    apply M_bind_Ok in Hp as (c & h2 & Hc & Hp).
    apply mret_inv in Hp as [[= ->] ->].
    apply M_bind_Ok in Hm as (ps & h3 & Hps & Hm).
    apply mret_inv in Hm as [[= ->] ->].
    apply Hcopy in Hc. rewrite fmap_cons. apply list.NoDup_cons. split.
    + apply map_M_copy_layer_pairs in Hps as [_ Hps]; [|done].
      intros (p & Heq & Hp)%list_elem_of_fmap. simpl in Heq.
      rewrite Forall_forall in Hps. specialize (Hps p Hp). lia.
    + by eapply IH.
Qed.

Lemma reapply_layers_NoDup m copied layers log outs h layers' nodes outs' h' :
  copy_layer_allocates →
  NoDup (layer_id <$> layers) →
  reapply m copied layers log outs h = (Ok (layers', nodes, outs'), h') →
  NoDup (layer_id <$> layers').
Proof.
  intros Hcopy Hnd Hre. unfold reapply in Hre.
  apply M_bind_Ok in Hre as (layer_mapping & h0 & Hlm & Hre).
  apply M_bind_Ok in Hre as ([tm acc] & h1 & _ & Hre).
  apply M_bind_Ok in Hre as (ls & h2 & Hls & Hre).
  apply lift_inv in Hls as [Hls _].
  apply M_bind_Ok in Hre as (os & h3 & _ & Hre).
  apply mret_inv in Hre as [[= <- _ _] _].
  apply map_result_Ok in Hls.
  assert (∃ pairs, layer_mapping = dict_update ∅ pairs ∧
                   NoDup ((λ p : nat * layer, layer_id p.2) <$> pairs))
    as (pairs & -> & Hpairs).
  { destruct copied.
    - apply M_bind_Ok in Hlm as (pairs & h4 & Hpairs & Hlm).
      apply mret_inv in Hlm as [[= ->] _]. exists pairs. split; [done|].
      by eapply copied_layers_NoDup.
    - apply mret_inv in Hlm as [[= ->] _]. eexists. split; [done|].
      by rewrite <-list_fmap_compose. }
  apply (mapped_layers_NoDup pairs layers); [done|done|].
  eapply Forall2_impl; [done|]. intros l l' Hg. simpl in Hg.
  apply getitem_Ok, dict_update_lookup in Hg as [?|Hg]; [done|].
  by rewrite lookup_empty in Hg.
Qed.

(** The layers [trace_model_execution] returns are distinct objects. *)
Lemma trace_model_execution_layers_NoDup m copied h layers nodes outs h' :
  copy_layer_allocates →
  trace_model_execution m copied h = (Ok (layers, nodes, outs), h') →
  NoDup (layer_id <$> layers).
Proof.
  intros Hcopy Ht. unfold trace_model_execution in Ht.
  apply M_bind_Ok in Ht as ([[ls en] os] & h1 & Hu & Hret).
  apply mret_inv in Hret as [[= -> _ _] _].
  unfold trace_unpruned in Hu.
  apply M_bind_Ok in Hu as (ls0 & h0 & Hl & Hu).
  apply lift_inv in Hl as [Hl _]. apply get_model_layers_NoDup in Hl.
  destruct (contains_container m ls0).
  - apply M_bind_Ok in Hu as ([log os'] & h2 & _ & Hre).
    by eapply reapply_layers_NoDup.
  - by apply mret_inv in Hu as [[= <- _ _] _].
Qed.

End TraceLayers.

(** ** Reverse mappings are initialized once per layer *)

Lemma extends_events_weaken {A} (P Q : event → Prop) (c : M A) :
  (∀ e, P e → Q e) → extends_events P c → extends_events Q c.
Proof.
  intros HPQ Hc h r h' Hr. destruct (Hc h r h' Hr) as (evs & ? & ? & ?).
  exists evs. split; [done|]. split; [by eapply Forall_impl|done].
Qed.






Section ReverseMappings.
Context `{Framework} `{TensorOps}.


Lemma initialize_reverse_mapping_spec m args l h :
  ∃ r h', initialize_reverse_mapping m args l h = (Ok r, h') ∧
    match resolve_reverse_mapping args l with
    | Some (MappingClass cls fn) =>
        r = Some (ApplyOf (next_object h), fn l m) ∧
        events h' = events h ++ [Constructed cls (layer_id l) (next_object h)]
    | _ => events h' = events h
    end.
Proof.
  unfold initialize_reverse_mapping.
  destruct (resolve_reverse_mapping args l) as [[fn f|cls fn]|].
  - by eexists _, _.
  - by eexists _, _.
  - by eexists _, _.
Qed.

(** The loop of lines 717-738 does not raise; it instantiates the class
    resolved for a layer once, and stores the [apply] of that instance
    for the layer. *)
Lemma initialize_reverse_mappings_spec m args layers : ∀ initialized h,
  NoDup (layer_id <$> layers) →
  ∃ initialized' h' cons,
    initialize_reverse_mappings m args initialized layers h = (Ok initialized', h') ∧
    events h' = events h ++ cons ∧
    Forall (λ e, is_construction e ∧ event_layer e ∈ layer_id <$> layers) cons ∧
    (∀ k, k ∉ layer_id <$> layers → initialized' !! k = initialized !! k) ∧
    (∀ l cls fn, l ∈ layers →
       resolve_reverse_mapping args l = Some (MappingClass cls fn) →
       ∃ obj f,
         filter (λ e, event_layer e = layer_id l) cons =
           [Constructed cls (layer_id l) obj] ∧
         initialized' !! layer_id l = Some (Some (ApplyOf obj, f))).
Proof.
  induction layers as [|l0 layers IH]; intros init h Hnd.
  { exists init, h, []. rewrite app_nil_r. split; [done|]. split; [done|].
    split; [constructor|]. split; [done|]. intros l cls fn Hl. by apply elem_of_nil in Hl. }
  rewrite fmap_cons in Hnd. apply list.NoDup_cons in Hnd as [Hl0 Hnd].
  destruct (initialize_reverse_mapping_spec m args l0 h) as (r0 & h1 & Hstep & Hr0).
  destruct (IH (<[layer_id l0 := r0]> init) h1 Hnd)
    as (init' & h' & cons & Hloop & Hev & Hcons & Hother & Hcls).
  set (cons0 := match resolve_reverse_mapping args l0 with
                | Some (MappingClass cls fn) =>
                    [Constructed cls (layer_id l0) (next_object h)]
                | _ => []
                end).
  assert (Hev0 : events h1 = events h ++ cons0).
  { unfold cons0. destruct (resolve_reverse_mapping args l0) as [[fn f|cls fn]|].
    - by rewrite app_nil_r.
    - by destruct Hr0.
    - by rewrite app_nil_r. }
  assert (Hcons0 : Forall (λ e, is_construction e ∧ event_layer e = layer_id l0) cons0).
  { unfold cons0. destruct (resolve_reverse_mapping args l0) as [[fn f|cls fn]|];
      repeat constructor. }
  exists init', h', (cons0 ++ cons).
  split. { simpl. by rewrite (M_bind_eq_Ok _ _ h r0 h1 Hstep). }
  split. { by rewrite Hev, Hev0, app_assoc. }
  split.
  { apply Forall_app. split.
    - eapply Forall_impl; [exact Hcons0|]. intros e [? ->]. split; [done|by left].
    - eapply Forall_impl; [exact Hcons|]. intros e [? ?]. split; [done|by right]. }
  split.
  { intros k Hk. rewrite Hother by (intros ?; apply Hk; by right).
    apply lookup_insert_ne. intros <-. apply Hk. by left. }
  intros l cls fn Hl Hres. rewrite filter_app.
  destruct (decide (layer_id l = layer_id l0)) as [Hid|Hid].
  - (* the layer at hand: later layers are other objects *)
    assert (Hl_here : l ∉ layers).
    { intros Hin. apply Hl0. rewrite <-Hid. by apply list_elem_of_fmap_2. }
    apply elem_of_cons in Hl as [->|Hl]; [|done].
    assert (Hrest : filter (λ e, event_layer e = layer_id l0) cons = []).
    { clear -Hcons Hl0. induction Hcons as [|e cons [_ He] _ IH]; [done|].
      rewrite filter_cons_False; [done|]. intros Heq. apply Hl0. by rewrite <-Heq. }
    rewrite Hrest, app_nil_r. unfold cons0. rewrite Hres in *. destruct Hr0 as [-> _].
    eexists _, _. split; [by rewrite filter_cons_True|].
    by rewrite Hother, lookup_insert_eq.
  - apply elem_of_cons in Hl as [->|Hl]; [done|].
    assert (Hfirst : filter (λ e, event_layer e = layer_id l) cons0 = []).
    { clear -Hcons0 Hid. induction Hcons0 as [|e cons0 [_ He] _ IH]; [done|].
      rewrite filter_cons_False; [done|]. by rewrite He. }
    rewrite Hfirst. by apply (Hcls l cls fn).
Qed.


End ReverseMappings.

(** ** Where the code departs from the specification *)

(** C3 (the code does not do this).  Line 434 tests the tensor against
    [inputs_to_node], the lookup of the receiving nodes, where
    [outputs_to_node] holds the creating ones.  So two nodes creating the
    same tensor raise nothing -- the second silently replaces the first in
    [outputs_to_node] -- while a tensor with a single creating node raises
    "Cannot be more than one creating node." as soon as an earlier entry
    of the trace has read it. *)
Lemma two_creating_nodes_are_not_detected :
  let twice := [(Layer 1, [0], [1]); (Layer 2, [0], [1])] in
  let once := [(Layer 1, [1], [2]); (Layer 2, [0], [1])] in
  (∀ keep_input_layers,
     create_lookups keep_input_layers ∅ ∅ (enrich_with_nids 0 twice)
       = Ok ({[0 := [0; 1]]}, {[1 := Some 1]}) ∧
     is_Ok (enrich_trace keep_input_layers twice)) ∧
  (∀ keep_input_layers,
     enrich_trace keep_input_layers once
       = Raise (Exception "Cannot be more than one creating node.")).
Proof.
  split.
  - intros []; (split; [by vm_compute|eexists; by vm_compute]).
  - by intros []; vm_compute.
Qed.

Section LateContribution.
Context `{TensorOps}.

(** C2 (the code does not do this).  Line 669 tests for the keys
    ["tensor"] and ["tensors"], which an entry never holds together, and
    not for ["final_tensor"].  So a contribution [b] delivered to [X]
    after its reversed tensor was read is not refused: it is stored with
    the first contribution [a], and the cached tensor -- which does not
    include it -- is what every later read returns. *)
Lemma late_contribution_is_accepted_and_ignored cfg X a b :
  let final := post_process cfg X a in
  run_ops cfg ∅ [AddOp (-1) 0 X a; GetOp X; AddOp 0 0 X b]
    = Ok {[X := Entry ((-1)%Z, 0) None (Some [a; b]) (Some final)]} ∧
  get_reversed_tensor cfg X {[X := Entry ((-1)%Z, 0) None (Some [a; b]) (Some final)]}
    = Ok (final, {[X := Entry ((-1)%Z, 0) None (Some [a; b]) (Some final)]}).
Proof.
  split.
  - unfold run_ops. cbn [foldl_result run_op]. unfold add_reversed_tensor at 2.
    rewrite lookup_empty. cbn [mbind result_bind].
    unfold get_reversed_tensor, getitem. rewrite lookup_insert_eq.
    cbn. unfold add_reversed_tensor. rewrite lookup_insert_eq. cbn.
    by rewrite !insert_insert_eq, insert_empty.
  - unfold get_reversed_tensor, getitem. by rewrite lookup_singleton_eq.
Qed.

End LateContribution.

(** * Further properties *)

(** ** get_model_layers and model_contains *)

Lemma flatten_layer_container id ls :
  flatten_layer (Container id ls) = Container id ls :: flatten_layers ls.
Proof. simpl. by f_equal. Qed.

Lemma layer_in_true l ret : layer_in l ret = true → layer_id l ∈ layer_id <$> ret.
Proof.
  unfold layer_in. intros (l' & Hl' & His)%existsb_exists.
  unfold layer_is in His. apply bool_decide_eq_true in His. rewrite His.
  by apply list_elem_of_fmap_2, list_elem_of_In.
Qed.

Lemma NoDup_snoc_id (ret : list layer) l :
  NoDup (layer_id <$> ret) → layer_id l ∉ layer_id <$> ret →
  NoDup (layer_id <$> (ret ++ [l])).
Proof.
  intros Hnd Hin. rewrite fmap_app. apply NoDup_app.
  split; [done|]. split; [|apply NoDup_singleton].
  intros x Hx ->%list_elem_of_singleton. done.
Qed.

Lemma collect_layer_flatten : ∀ l ret,
  NoDup (layer_id <$> ret) →
  collect_layer l ret =
    if decide (NoDup (layer_id <$> (ret ++ flatten_layer l)))
    then Ok (ret ++ flatten_layer l) else Raise AssertionError.
Proof.
  fix IH 1. intros l ret Hnd.
  destruct (layer_in l ret) eqn:Hin.
  - assert (Hc : collect_layer l ret = Raise AssertionError).
    { destruct l; simpl; by rewrite Hin. }
    rewrite Hc. rewrite decide_False; [done|].
    intros Hnd'. apply layer_in_true in Hin.
    destruct l; simpl in Hnd'; rewrite fmap_app, fmap_cons in Hnd';
      apply NoDup_app in Hnd' as (_ & Hdis & _);
      apply (Hdis _ Hin); by left.
  - apply layer_in_false in Hin. pose proof (NoDup_snoc_id ret l Hnd Hin) as Hsnoc.
    destruct l as [id|id|id ls].
    + simpl. destruct (layer_in (InputLayer id) ret) eqn:Hin'.
      { by apply layer_in_true in Hin'. }
      by rewrite decide_True.
    + simpl. destruct (layer_in (Layer id) ret) eqn:Hin'.
      { by apply layer_in_true in Hin'. }
      by rewrite decide_True.
    + assert (Hgen : ∀ ret0, NoDup (layer_id <$> ret0) →
        collect_layers ls ret0 =
          if decide (NoDup (layer_id <$> (ret0 ++ flatten_layers ls)))
          then Ok (ret0 ++ flatten_layers ls) else Raise AssertionError).
      { clear -IH. induction ls as [|l' ls IHls]; intros ret Hnd; simpl.
        - rewrite app_nil_r. by rewrite decide_True.
        - rewrite (IH l' ret Hnd).
          destruct (decide (NoDup (layer_id <$> ret ++ flatten_layer l'))) as [Hnd1|Hnd1].
          + cbn [mbind result_bind]. rewrite (IHls _ Hnd1).
            by rewrite <-!app_assoc.
          + cbn [mbind result_bind]. rewrite decide_False; [done|].
            intros Hnd2. apply Hnd1. rewrite app_assoc, fmap_app in Hnd2.
            by apply NoDup_app in Hnd2 as (? & _). }
      assert (Hunf : collect_layer (Container id ls) ret =
                if layer_in (Container id ls) ret then Raise AssertionError
                else collect_layers ls (ret ++ [Container id ls])) by done.
      rewrite Hunf. destruct (layer_in (Container id ls) ret) eqn:Hin'.
      { by apply layer_in_true in Hin'. }
      rewrite (Hgen _ Hsnoc), flatten_layer_container.
      by rewrite <-!app_assoc.
Qed.

Lemma collect_layers_flatten ls : ∀ ret,
  NoDup (layer_id <$> ret) →
  collect_layers ls ret =
    if decide (NoDup (layer_id <$> (ret ++ flatten_layers ls)))
    then Ok (ret ++ flatten_layers ls) else Raise AssertionError.
Proof.
  induction ls as [|l ls IH]; intros ret Hnd; simpl.
  - rewrite app_nil_r. by rewrite decide_True.
  - rewrite (collect_layer_flatten l ret Hnd).
    destruct (decide (NoDup (layer_id <$> ret ++ flatten_layer l))) as [Hnd1|Hnd1].
    + cbn [mbind result_bind]. rewrite (IH _ Hnd1). by rewrite <-!app_assoc.
    + cbn [mbind result_bind]. rewrite decide_False; [done|].
      intros Hnd2. apply Hnd1. rewrite app_assoc, fmap_app in Hnd2.
      by apply NoDup_app in Hnd2 as (? & _).
Qed.

(** [get_model_layers] returns the layers of the model and of its nested
    containers, every container in front of what it contains, when no
    layer object occurs twice among them; when one does, the assertion
    of line 239 fails. *)
Theorem get_model_layers_flatten m :
  get_model_layers m =
    if decide (NoDup (layer_id <$> flatten_layers (model_layers m)))
    then Ok (flatten_layers (model_layers m)) else Raise AssertionError.
Proof.
  unfold get_model_layers. rewrite collect_layers_flatten by constructor. done.
Qed.

(** [model_contains] looks at every layer of the model, the nested ones
    included, once: for one condition it returns the layers that satisfy
    it, in the order of [get_model_layers], or their number; for a list
    of conditions one such answer per condition (none for the empty
    list).  When a layer object occurs twice in the model it raises the
    [AssertionError] of [get_model_layers], whatever is asked. *)
Theorem model_contains_collects m :
  let all := flatten_layers (model_layers m) in
  (NoDup (layer_id <$> all) → ∀ c cs,
     model_contains m (Condition c) false
       = Ok (ContainedLayers (filter (λ l, c l) all)) ∧
     model_contains m (Condition c) true
       = Ok (ContainedCount (length (filter (λ l, c l) all))) ∧
     model_contains m (Conditions cs) false
       = Ok (ContainedLayerLists ((λ c : layer → bool, filter (λ l, c l) all) <$> cs)) ∧
     model_contains m (Conditions cs) true
       = Ok (ContainedCounts ((λ c : layer → bool, length (filter (λ l, c l) all)) <$> cs)) ∧
     length (filter (λ l, c l) all) + length (filter (λ l, negb (c l)) all)
       = length all) ∧
  (¬ NoDup (layer_id <$> all) → ∀ layer_condition return_only_counts,
     model_contains m layer_condition return_only_counts = Raise AssertionError).
Proof.
  intros all. split.
  - intros Hnd c cs. unfold model_contains.
    unfold get_model_layers. rewrite collect_layers_flatten by constructor.
    simpl. rewrite decide_True by done.
    cbn [mbind result_bind fmap list_fmap first_item result_fmap].
    repeat split; try done.
    + by rewrite <-list_fmap_compose.
    + clear. induction all as [|l all IH]; [done|].
      rewrite !filter_cons. destruct (c l); simpl; lia.
  - intros Hnd lc flag. unfold model_contains.
    unfold get_model_layers. rewrite collect_layers_flatten by constructor.
    simpl. rewrite decide_False by done.
    by destruct lc.
Qed.

(** ** The pruned execution list *)

Lemma prune_state_idempotent outputs nodes :
  prune_state outputs (prune_state outputs nodes).1 = prune_state outputs nodes.
Proof.
  induction nodes as [|n nodes IH]; simpl; [done|].
  destruct (prune_state outputs nodes) as [kept used] eqn:E. simpl in *.
  destruct (forallb _ (node_Ys n)) eqn:Hall; simpl; [|done].
  by rewrite IH, Hall.
Qed.

Lemma prune_state_alive outputs nodes : ∀ pre n post,
  (prune_state outputs nodes).1 = pre ++ n :: post →
  ∀ y, y ∈ node_Ys n → y ∈ outputs ∨ ∃ k, k ∈ post ∧ y ∈ node_Xs k.
Proof.
  induction nodes as [|a nodes IH]; intros pre n post Hsplit y Hy; simpl in Hsplit.
  { by destruct pre. }
  pose proof (prune_state_used outputs nodes y) as Hused.
  destruct (prune_state outputs nodes) as [kept used] eqn:E. simpl in *.
  destruct (forallb _ (node_Ys a)) eqn:Hall; simpl in Hsplit; [|by eapply IH].
  destruct pre as [|a' pre]; simplify_eq/=; [|by eapply IH].
  apply Hused. rewrite forallb_forall in Hall.
  apply list_elem_of_In, Hall in Hy. by apply bool_decide_eq_true in Hy.
Qed.

(** What the pruning step of [trace_model_execution] leaves is closed:
    pruning it again changes nothing, and every tensor that one of its
    entries gives is an output of the model or is read by an entry
    further back.  An entry that gives no tensor at all is never
    dropped ([all([])] holds). *)
Theorem pruned_list_is_closed outputs executed_nodes :
  prune outputs (prune outputs executed_nodes) = prune outputs executed_nodes ∧
  (∀ pre n post y,
     prune outputs executed_nodes = pre ++ n :: post → y ∈ node_Ys n →
     y ∈ outputs ∨ ∃ k, k ∈ post ∧ y ∈ node_Xs k) ∧
  (∀ n, n ∈ executed_nodes → node_Ys n = [] → n ∈ prune outputs executed_nodes).
Proof.
  split; [|split].
  - by rewrite !prune_prune_state, prune_state_idempotent.
  - intros pre n post y Hsplit Hy. rewrite prune_prune_state in Hsplit.
    by eapply prune_state_alive.
  - intros n (pre & post & ->)%list_elem_of_split Hys.
    destruct (prune_keeps outputs pre n post) as (kept_pre & _ & ->).
    + rewrite Hys. intros y Hy. by apply elem_of_nil in Hy.
    + apply elem_of_app. right. by left.
Qed.

(** ** A layer that is instrumented already *)

Lemma for_each_setattr_allocation (lms : list (layer * method)) : ∀ h r h',
  for_each (λ lm : layer * method, setattr_call lm.1 lm.2) lms h = (r, h') →
  same_allocation h h'.
Proof.
  induction lms as [|lm lms IH]; intros h r h' Hf.
  - by apply mret_inv in Hf as [_ ->].
  - simpl in Hf. apply M_bind_inv in Hf as [(u & h1 & Hs & Hf)|(e & Hs & _)].
    + unfold setattr_call in Hs. injection Hs as _ <-.
      apply IH in Hf. exact Hf.
    + unfold setattr_call in Hs. done.
Qed.


Section PatchedLayer.
Context `{Framework}.


End PatchedLayer.

(** The loop of line 333 on layers that are distinct objects, none of
    them patched: every one of them ends patched, around the method it
    had. *)
Lemma patch_loop_patches layers : ∀ h,
  NoDup (layer_id <$> layers) →
  (∀ l, l ∈ layers → is_patched (call_attr h (layer_id l)) = false) →
  ∃ hp,
    for_each (λ layer, c ← getattr_call layer; p ← patch layer c;
                       setattr_call layer p) layers h = (Ok (), hp) ∧
    same_allocation h hp ∧
    ∀ id, call_attr hp id =
          if decide (id ∈ layer_id <$> layers)
          then Patched id (call_attr h id) else call_attr h id.
Proof.
  induction layers as [|l0 layers IH]; intros h Hnd Hun.
  { exists h. split; [done|]. split; [done|]. intros id.
    by rewrite decide_False by apply not_elem_of_nil. }
  rewrite fmap_cons in Hnd. apply list.NoDup_cons in Hnd as [Hl0 Hnd].
  cbn [for_each].
  set (h0 := Heap (<[layer_id l0 := Patched (layer_id l0) (call_attr h (layer_id l0))]>
                     (call_attr h)) (next_tensor h) (next_object h) (events h)).
  assert (Hstep : (c ← getattr_call l0; p ← patch l0 c; setattr_call l0 p) h
                  = (Ok (), h0)).
  { rewrite (M_bind_eq_Ok _ _ h (call_attr h (layer_id l0)) h) by done.
    unfold patch. rewrite (Hun l0) by (by left).
    by rewrite (M_bind_eq_Ok _ _ h (Patched (layer_id l0) (call_attr h (layer_id l0))) h). }
  rewrite (M_bind_eq_Ok _ _ h () h0 Hstep).
  assert (Hother : ∀ id, id ∈ layer_id <$> layers → call_attr h0 id = call_attr h id).
  { intros id Hid. simpl. rewrite fn_lookup_insert_ne; [done|]. by intros <-. }
  destruct (IH h0 Hnd) as (hp & Hrun & Halloc & Hcall).
  { intros l Hl. rewrite Hother by (by apply list_elem_of_fmap_2).
    apply Hun. by right. }
  exists hp. split; [done|]. split; [done|].
  intros id. rewrite Hcall, fmap_cons.
  destruct (decide (id ∈ layer_id <$> layers)) as [Hin|Hnin].
  - rewrite decide_True by (by right). by rewrite Hother.
  - destruct (decide (id = layer_id l0)) as [->|Hne].
    + rewrite decide_True by (by left). simpl. by rewrite fn_lookup_insert.
    + rewrite decide_False by (by intros [?|?]%elem_of_cons).
      simpl. by rewrite fn_lookup_insert_ne.
Qed.

Section InstrumentedRun.
Context `{Framework}.

(** On layers that are distinct objects with no patched [call], lines
    315-343 replay the model on a heap [hp] in which exactly these
    layers are patched, each around the method it had; whatever the
    replay returns or raises is the outcome, on the heap the replay
    left with the methods of these layers put back. *)
Theorem replay_runs_instrumented m layers h :
  NoDup (layer_id <$> layers) →
  (∀ l, l ∈ layers → is_patched (call_attr h (layer_id l)) = false) →
  ∃ hp,
    same_allocation h hp ∧
    (∀ id, call_attr hp id =
           if decide (id ∈ layer_id <$> layers)
           then Patched id (call_attr h id) else call_attr h id) ∧
    ∀ r h1, replay_model m hp = (r, h1) →
      ∃ h', instrumented_replay m layers h = (r, h') ∧
            same_allocation h1 h' ∧
            ∀ id, call_attr h' id =
                  if decide (id ∈ layer_id <$> layers)
                  then call_attr h id else call_attr h1 id.
Proof.
  intros Hnd Hun.
  destruct (patch_loop_patches layers h Hnd Hun) as (hp & Hloop & Halloc & Hcall).
  exists hp. split; [done|]. split; [done|]. intros r h1 Hrep.
  destruct (for_each_setattr (call_attr h) layers h1) as (h2 & Hfin & Hres).
  exists h2. split; [|split; [by eapply for_each_setattr_allocation|done]].
  unfold instrumented_replay.
  rewrite (M_bind_eq_Ok _ _ h _ h (map_M_getattr layers h)).
  unfold try_finally. rewrite (M_bind_eq_Ok _ _ h () hp Hloop), Hrep, Hfin. done.
Qed.

End InstrumentedRun.

(** ** The re-application keeps the recorded calls apart and in order *)

Lemma dict_update_lookup_last `{Countable K} {V} (pairs : list (K * V)) :
  ∀ (d : gmap K V) k v,
  NoDup pairs.*1 → (k, v) ∈ pairs → dict_update d pairs !! k = Some v.
Proof.
  unfold dict_update.
  induction pairs as [|[k0 v0] pairs IH] using rev_ind; intros d k v Hnd Hin.
  { by apply elem_of_nil in Hin. }
  rewrite foldl_app. simpl. rewrite fmap_app in Hnd.
  apply NoDup_app in Hnd as (Hnd & Hdis & _).
  apply elem_of_app in Hin as [Hin|Hin].
  - rewrite lookup_insert_ne; [by apply IH|].
    intros <-. apply (Hdis k0); [|by left].
    apply list_elem_of_fmap. by exists (k0, v).
  - apply list_elem_of_singleton in Hin as [= -> ->]. by rewrite lookup_insert_eq.
Qed.

Lemma map_result_length {A B} (f : A → result B) xs ys :
  map_result f xs = Ok ys → length ys = length xs.
Proof. intros Hm%map_result_Ok. symmetry. by eapply Forall2_length. Qed.

Section ReapplyStructure.
Context `{Framework}.

Lemma reapply_node_structure layer_mapping tm acc n h tm' acc' h' :
  reapply_node layer_mapping (tm, acc) n h = (Ok (tm', acc'), h') →
  ∃ new, acc' = acc ++ [new] ∧ reapplied layer_mapping n new.
Proof.
  destruct n as [[l xs] ys]. unfold reapply_node. intros Hstep.
  apply M_bind_Ok in Hstep as (l' & h1 & Hl & Hstep).
  apply lift_inv in Hl as [Hl ->]. apply getitem_Ok in Hl.
  apply M_bind_Ok in Hstep as ([nxs nys] & h2 & Hnew & Hret).
  apply mret_inv in Hret as [[= -> ->] ->].
  exists (l', nxs, nys). split; [done|].
  unfold reapplied, node_layer, node_Xs, node_Ys. simpl. split; [done|].
  destruct (is_input_layer l').
  - by apply mret_inv in Hnew as [[= -> ->] ->].
  - apply M_bind_Ok in Hnew as (new_xs & h3 & Hxs & Hnew).
    apply lift_inv in Hxs as [Hxs ->].
    apply M_bind_Ok in Hnew as (new_ys & h3 & Hk & Hret).
    apply mret_inv in Hret as [[= -> ->] ->].
    split; [by eapply map_result_length|done].
Qed.

Lemma reapply_loop_structure layer_mapping rest : ∀ tm acc h tm' acc' h',
  reapply_loop layer_mapping (tm, acc) rest h = (Ok (tm', acc'), h') →
  ∃ new, acc' = acc ++ new ∧ Forall2 (reapplied layer_mapping) rest new.
Proof.
  induction rest as [|n rest IH]; intros tm acc h tm' acc' h' Hloop.
  - apply mret_inv in Hloop as [[= -> ->] ->]. exists []. by rewrite app_nil_r.
  - simpl in Hloop. apply M_bind_Ok in Hloop as ([tm1 acc1] & h1 & Hstep & Hloop).
    apply reapply_node_structure in Hstep as (new1 & -> & Hnew1).
    apply IH in Hloop as (new & -> & Hnew).
    exists (new1 :: new). rewrite <-app_assoc. split; [done|by constructor].
Qed.

(** What lines 349-372 return for the recorded calls [log]: one entry per
    recorded call, in the same order, each with the layer that stands
    for the recorded one and with as many inputs; the entries of input
    layers are the recorded ones; as many outputs as the replay gave,
    and one layer per layer of the model.  Without
    [reapply_on_copied_layers] the layers are the layers of the model
    themselves. *)
Theorem reapply_keeps_structure m copied layers log outs h layers' nodes outs' h' :
  reapply m copied layers log outs h = (Ok (layers', nodes, outs'), h') →
  ∃ layer_mapping,
    Forall2 (reapplied layer_mapping) log nodes ∧
    Forall2 (λ l l', layer_mapping !! layer_id l = Some l') layers layers' ∧
    length outs' = length outs ∧
    (copied = false → NoDup (layer_id <$> layers) →
       layers' = layers ∧
       Forall2 (λ logged new, node_layer new ∈ layers ∧
                  layer_id (node_layer new) = layer_id (node_layer logged)) log nodes).
Proof.
  intros Hre. unfold reapply in Hre.
  apply M_bind_Ok in Hre as (layer_mapping & h0 & Hlm & Hre).
  apply M_bind_Ok in Hre as ([tm acc] & h1 & Hloop & Hre).
  apply M_bind_Ok in Hre as (ls & h2 & Hls & Hre).
  apply lift_inv in Hls as [Hls ->].
  apply M_bind_Ok in Hre as (os & h3 & Hos & Hre).
  apply lift_inv in Hos as [Hos ->].
  apply mret_inv in Hre as [[= -> -> ->] _].
  apply reapply_loop_structure in Hloop as (new & -> & Hnew). simpl.
  exists layer_mapping. split; [done|].
  assert (Hlayers : Forall2 (λ l l', layer_mapping !! layer_id l = Some l') layers ls).
  { apply map_result_Ok in Hls. eapply Forall2_impl; [done|].
    intros l l' Hl. by apply getitem_Ok in Hl. }
  split; [done|]. split; [by eapply map_result_length|].
  intros -> Hnd. apply mret_inv in Hlm as [[= ->] _].
  assert (Hpairs : NoDup ((λ layer, (layer_id layer, layer)) <$> layers).*1).
  { by rewrite <-list_fmap_compose. }
  split.
  - symmetry. apply list_eq. intros i.
    destruct (layers !! i) as [l|] eqn:Hi.
    + destruct (Forall2_lookup_l _ _ _ _ _ Hlayers Hi) as (l' & Hi' & Hl).
      rewrite Hi'. rewrite (dict_update_lookup_last _ _ (layer_id l) l Hpairs) in Hl.
      * by injection Hl as ->.
      * apply list_elem_of_fmap. exists l. split; [done|].
        by eapply list_elem_of_lookup_2.
    + symmetry. apply lookup_ge_None. apply lookup_ge_None in Hi.
      apply Forall2_length in Hlayers. lia.
  - eapply Forall2_impl; [done|]. intros logged new1 (Hl & _).
    apply dict_update_lookup in Hl as [Hin|Hl]; [|by rewrite lookup_empty in Hl].
    by apply list_elem_of_fmap in Hin as (l2 & [= -> ->] & Hl2).
Qed.

Lemma reapply_node_reads layer_mapping tm acc n h tm' acc' h' :
  reapply_node layer_mapping (tm, acc) n h = (Ok (tm', acc'), h') →
  ∃ new, acc' = acc ++ [new] ∧
    (is_input_layer (node_layer new) = false →
       ∀ x, x ∈ node_Xs n → is_Some (tm !! x)) ∧
    (∀ x, is_Some (tm' !! x) → is_Some (tm !! x) ∨ x ∈ node_Ys n).
Proof.
  destruct n as [[l xs] ys]. unfold reapply_node. intros Hstep.
  apply M_bind_Ok in Hstep as (l' & h1 & _ & Hstep).
  apply M_bind_Ok in Hstep as ([nxs nys] & h2 & Hnew & Hret).
  apply mret_inv in Hret as [[= -> ->] ->].
  exists (l', nxs, nys). split; [done|].
  unfold node_layer, node_Xs, node_Ys. simpl. split.
  - intros Hl'. rewrite Hl' in Hnew.
    apply M_bind_Ok in Hnew as (new_xs & h3 & Hxs & Hnew).
    apply lift_inv in Hxs as [Hxs%map_result_Ok ->].
    intros x [i Hi]%list_elem_of_lookup.
    destruct (Forall2_lookup_l _ _ _ _ _ Hxs Hi) as (t & _ & Ht).
    apply getitem_Ok in Ht. by rewrite Ht.
  - intros x [t [Hp|Ht]%dict_update_lookup]; [|by left].
    right. by apply elem_of_zip_l in Hp.
Qed.

Lemma reapply_loop_reads layer_mapping rest : ∀ tm acc h tm' acc' h',
  reapply_loop layer_mapping (tm, acc) rest h = (Ok (tm', acc'), h') →
  ∃ new, acc' = acc ++ new ∧
    (∀ i logged nw, rest !! i = Some logged → new !! i = Some nw →
       is_input_layer (node_layer nw) = false →
       ∀ x, x ∈ node_Xs logged →
         is_Some (tm !! x) ∨ ∃ j k, j < i ∧ rest !! j = Some k ∧ x ∈ node_Ys k) ∧
    (∀ x, is_Some (tm' !! x) →
       is_Some (tm !! x) ∨ ∃ k, k ∈ rest ∧ x ∈ node_Ys k).
Proof.
  induction rest as [|n rest IH]; intros tm acc h tm' acc' h' Hloop.
  - apply mret_inv in Hloop as [[= -> ->] ->]. exists []. rewrite app_nil_r.
    split; [done|]. split; [done|]. by left.
  - simpl in Hloop. apply M_bind_Ok in Hloop as ([tm1 acc1] & h1 & Hstep & Hloop).
    apply reapply_node_reads in Hstep as (new1 & -> & Hreads1 & Hdom1).
    apply IH in Hloop as (new & -> & Hreads & Hdom).
    exists (new1 :: new). rewrite <-app_assoc. split; [done|]. split.
    + intros [|i] logged nw Hi Hn Hl x Hx; simplify_eq/=.
      { left. by apply Hreads1. }
      destruct (Hreads i logged nw Hi Hn Hl x Hx) as [Hs|(j & k & Hj & Hk & Hy)].
      * destruct (Hdom1 x Hs) as [?|Hy]; [by left|].
        right. exists 0, n. split; [lia|done].
      * right. exists (S j), k. split; [lia|done].
    + intros x Hx. destruct (Hdom x Hx) as [Hs|(k & Hk & Hy)].
      * destruct (Hdom1 x Hs) as [?|Hy]; [by left|].
        right. exists n. split; [by left|done].
      * right. exists k. split; [by right|done].
Qed.

(** Lines 349-372 return only for a record that is closed: every
    recorded call that is re-applied reads inputs of the model and
    tensors that recorded calls in front of it gave, and so do the
    outputs; on any other record the lookup in [tensor_mapping]
    raises. *)
Theorem reapply_needs_closed_record m copied layers log outs h layers' nodes outs' h' :
  reapply m copied layers log outs h = (Ok (layers', nodes, outs'), h') →
  (∀ i logged new, log !! i = Some logged → nodes !! i = Some new →
     is_input_layer (node_layer new) = false →
     ∀ x, x ∈ node_Xs logged →
       x ∈ model_inputs m ∨ ∃ j k, j < i ∧ log !! j = Some k ∧ x ∈ node_Ys k) ∧
  (∀ x, x ∈ outs → x ∈ model_inputs m ∨ ∃ k, k ∈ log ∧ x ∈ node_Ys k).
Proof.
  intros Hre. unfold reapply in Hre.
  apply M_bind_Ok in Hre as (layer_mapping & h0 & Hlm & Hre).
  apply M_bind_Ok in Hre as ([tm acc] & h1 & Hloop & Hre).
  apply M_bind_Ok in Hre as (ls & h2 & Hls & Hre).
  apply M_bind_Ok in Hre as (os & h3 & Hos & Hre).
  apply lift_inv in Hos as [Hos%map_result_Ok ->].
  apply mret_inv in Hre as [[= -> -> ->] _].
  apply reapply_loop_reads in Hloop as (new & -> & Hreads & Hdom). simpl.
  assert (Hin : ∀ x,
    is_Some (dict_update (∅ : gmap tensor tensor)
               ((λ tmp, (tmp, tmp)) <$> model_inputs m) !! x) → x ∈ model_inputs m).
  { intros x [t [Hp|Ht]%dict_update_lookup]; [|by rewrite lookup_empty in Ht].
    by apply list_elem_of_fmap in Hp as (y & [= -> ->] & Hy). }
  split.
  - intros i logged nw Hi Hn Hl x Hx.
    destruct (Hreads i logged nw Hi Hn Hl x Hx) as [?|?]; [left; by apply Hin|by right].
  - intros x [i Hi]%list_elem_of_lookup.
    destruct (Forall2_lookup_l _ _ _ _ _ Hos Hi) as (t & _ & Ht).
    apply getitem_Ok in Ht.
    destruct (Hdom x) as [?|?]; [by rewrite Ht|left; by apply Hin|by right].
Qed.

End ReapplyStructure.

(** ** The lookups of get_model_execution_trace *)

Lemma extend_nil o : extend o [] = o.
Proof. destruct o; simpl; [by rewrite app_nil_r|done]. Qed.

Lemma extend_app o r1 r2 : extend (extend o r1) r2 = extend o (r1 ++ r2).
Proof.
  destruct o as [a|]; simpl; [by rewrite app_assoc|].
  destruct r1 as [|n r1]; simpl; [by destruct r2|done].
Qed.

Lemma extend_None o r : extend o r = None ↔ o = None ∧ r = [].
Proof. destruct o, r; simpl; naive_solver. Qed.

Lemma record_input_lookup n (itn : gmap tensor (list nat)) X x :
  record_input n itn X !! x = extend (itn !! x) (if decide (X = x) then [n] else []).
Proof.
  unfold record_input. destruct (decide (X = x)) as [->|Hne].
  - destruct (itn !! x) eqn:E; by rewrite lookup_insert_eq.
  - rewrite extend_nil. destruct (itn !! X); by rewrite lookup_insert_ne.
Qed.

Lemma foldl_record_input n Xs : ∀ (itn : gmap tensor (list nat)) x,
  foldl (record_input n) itn Xs !! x =
  extend (itn !! x) ((λ _, n) <$> filter (λ x', x' = x) Xs).
Proof.
  induction Xs as [|X Xs IH]; intros itn x; simpl; [by rewrite extend_nil|].
  rewrite IH, record_input_lookup, extend_app. f_equal.
  rewrite filter_cons. by destruct (decide (X = x)).
Qed.

Lemma readers_cons x t tr :
  readers x (t :: tr) =
  match id_nid t with
  | Some n => (λ _, n) <$> filter (λ x', x' = x) (id_Xs t)
  | None => []
  end ++ readers x tr.
Proof. done. Qed.

Lemma readers_app x tr1 tr2 : readers x (tr1 ++ tr2) = readers x tr1 ++ readers x tr2.
Proof. unfold readers. by rewrite bind_app. Qed.

Lemma readers_elem n x tr :
  n ∈ readers x tr ↔ ∃ t, t ∈ tr ∧ id_nid t = Some n ∧ x ∈ id_Xs t.
Proof.
  unfold readers. rewrite list_elem_of_bind. split.
  - intros (t & Hn & Ht). exists t. split; [done|].
    destruct (id_nid t) as [n'|]; [|by apply elem_of_nil in Hn].
    apply list_elem_of_fmap in Hn as (x' & -> & Hx).
    apply list_elem_of_filter in Hx as [-> Hx]. done.
  - intros (t & Ht & Hn & Hx). exists t. split; [|done]. rewrite Hn.
    apply list_elem_of_fmap. exists x. split; [done|].
    by apply list_elem_of_filter.
Qed.

Lemma readers_nil x tr :
  readers x tr = [] ↔ ∀ t, t ∈ tr → is_Some (id_nid t) → x ∉ id_Xs t.
Proof.
  split.
  - intros Hr t Ht [n Hn] Hx.
    assert (Hin : n ∈ readers x tr) by (apply readers_elem; eauto).
    rewrite Hr in Hin. by apply elem_of_nil in Hin.
  - intros Hno. destruct (readers x tr) as [|n r] eqn:Hr; [done|].
    assert (Hin : n ∈ readers x tr) by (rewrite Hr; by left).
    apply readers_elem in Hin as (t & Ht & Hn & Hx).
    destruct (Hno t Ht); [by rewrite Hn|done].
Qed.

Lemma record_outputs_Ok nid (itn : gmap tensor (list nat)) Ys : ∀ otn,
  Forall (λ y, itn !! y = None) Ys →
  record_outputs nid itn otn Ys = Ok (foldl (λ o y, <[y := nid]> o) otn Ys).
Proof.
  induction Ys as [|Y Ys IH]; intros otn HYs; simpl; [done|].
  apply list.Forall_cons in HYs as [HY HYs].
  rewrite bool_decide_eq_false_2 by (rewrite HY; by intros [??]).
  by apply IH.
Qed.

Lemma record_outputs_Raise nid (itn : gmap tensor (list nat)) Ys : ∀ otn,
  ¬ Forall (λ y, itn !! y = None) Ys →
  record_outputs nid itn otn Ys
    = Raise (Exception "Cannot be more than one creating node.").
Proof.
  induction Ys as [|Y Ys IH]; intros otn HYs; simpl; [by destruct HYs|].
  destruct (itn !! Y) as [nids|] eqn:HY.
  - by rewrite bool_decide_eq_true_2.
  - rewrite bool_decide_eq_false_2 by (by intros [??]).
    apply IH. intros HYs'. apply HYs. by constructor.
Qed.

Lemma foldl_insert_lookup {V} (v : V) Ys : ∀ (otn : gmap tensor V) y,
  foldl (λ o y, <[y := v]> o) otn Ys !! y =
  if decide (y ∈ Ys) then Some v else otn !! y.
Proof.
  induction Ys as [|Y Ys IH]; intros otn y; simpl.
  - done.
  - rewrite IH. destruct (decide (y ∈ Ys)) as [Hin|Hnin].
    + by rewrite decide_True by (by right).
    + destruct (decide (y = Y)) as [->|Hne].
      * rewrite decide_True by (by left). by rewrite lookup_insert_eq.
      * rewrite decide_False by (by intros [?|?]%elem_of_cons).
        by rewrite lookup_insert_ne.
Qed.

Lemma producers_cons keep y t tr :
  producers keep y (t :: tr) =
  (if decide (recorded keep t = true ∧ y ∈ id_Ys t) then [id_nid t] else [])
    ++ producers keep y tr.
Proof. unfold producers. rewrite filter_cons. by destruct (decide _). Qed.

Lemma producers_app keep y tr1 tr2 :
  producers keep y (tr1 ++ tr2) = producers keep y tr1 ++ producers keep y tr2.
Proof. unfold producers. by rewrite filter_app, fmap_app. Qed.

Lemma producers_elem keep y v tr :
  v ∈ producers keep y tr ↔
  ∃ t, t ∈ tr ∧ id_nid t = v ∧ recorded keep t = true ∧ y ∈ id_Ys t.
Proof.
  unfold producers. rewrite list_elem_of_fmap. split.
  - intros (t & -> & (Hr & Ht)%list_elem_of_filter). naive_solver.
  - intros (t & Ht & <- & Hr & Hy). exists t. split; [done|].
    by apply list_elem_of_filter.
Qed.

(** The lookups after the loop of lines 420-436, and what the loop has
    checked on its way. *)
Lemma create_lookups_Ok keep tr : ∀ itn otn itn' otn',
  create_lookups keep itn otn tr = Ok (itn', otn') →
  (∀ x, itn' !! x = extend (itn !! x) (readers x tr)) ∧
  (∀ y, otn' !! y = match list.last (producers keep y tr) with
                    | Some v => Some v
                    | None => otn !! y
                    end) ∧
  (∀ pre t post y, tr = pre ++ t :: post →
     recorded keep t = true → y ∈ id_Ys t →
     itn !! y = None ∧ readers y (pre ++ [t]) = []).
Proof.
  induction tr as [|[[[nid l] Xs] Ys] tr IH]; intros itn otn itn' otn' Hc.
  { injection Hc as <- <-. split; [intros x; by rewrite extend_nil|].
    split; [done|]. intros [|??] ????; simplify_eq/=. }
  cbn [create_lookups] in Hc.
  set (t := (nid, l, Xs, Ys)) in *.
  set (itn1 := match nid with
               | Some n => foldl (record_input n) itn Xs
               | None => itn
               end) in *.
  assert (Hitn1 : ∀ x, itn1 !! x = extend (itn !! x) (readers x [t])).
  { intros x. unfold itn1, readers. simpl. rewrite app_nil_r.
    destruct nid as [n|]; simpl; [apply foldl_record_input|by rewrite extend_nil]. }
  apply result_bind_Ok in Hc as (otn1 & Hrec & Hc).
  apply IH in Hc as (Hin & Hout & Hchk).
  assert (Hhead : recorded keep t = true →
            Forall (λ y, itn1 !! y = None) Ys ∧
            otn1 = foldl (λ o y, <[y := nid]> o) otn Ys).
  { intros Hr. change (keep || bool_decide (is_Some nid) = true) in Hr.
    rewrite Hr in Hrec.
    destruct (decide (Forall (λ y, itn1 !! y = None) Ys)) as [HYs|HYs].
    - rewrite record_outputs_Ok in Hrec by done. by injection Hrec as <-.
    - by rewrite record_outputs_Raise in Hrec. }
  split; [|split].
  - intros x. rewrite Hin, Hitn1, extend_app, <-readers_app. done.
  - intros y. rewrite Hout, producers_cons.
    destruct (list.last (producers keep y tr)) as [v|] eqn:Hlast.
    { by rewrite last_app, Hlast. }
    rewrite last_app, Hlast.
    destruct (decide (recorded keep t = true ∧ y ∈ id_Ys t)) as [[Hr Hy]|Hno]; simpl.
    + destruct (Hhead Hr) as [_ ->]. rewrite foldl_insert_lookup.
      by rewrite decide_True.
    + destruct (recorded keep t) eqn:Hr.
      * destruct (Hhead eq_refl) as [_ ->]. rewrite foldl_insert_lookup.
        rewrite decide_False; [done|]. intros Hy. by apply Hno.
      * change (keep || bool_decide (is_Some nid) = false) in Hr.
        rewrite Hr in Hrec. by injection Hrec as <-.
  - intros [|t0 pre] t' post y Heq Hr Hy; simpl in Heq; injection Heq as Ht Htr.
    + subst t'. destruct (Hhead Hr) as [HYs _].
      rewrite Forall_forall in HYs. specialize (HYs y Hy).
      rewrite Hitn1 in HYs. by apply extend_None in HYs.
    + subst t0. destruct (Hchk pre t' post y Htr Hr Hy) as [Hnone Hread].
      rewrite Hitn1 in Hnone. apply extend_None in Hnone as [Hnone Hread0].
      split; [done|].
      rewrite <-app_comm_cons, readers_cons, Hread.
      by rewrite readers_cons in Hread0.
Qed.

Lemma create_lookups_Raise keep tr : ∀ itn otn e,
  create_lookups keep itn otn tr = Raise e →
  e = Exception "Cannot be more than one creating node." ∧
  ∃ pre t post y, tr = pre ++ t :: post ∧
    recorded keep t = true ∧ y ∈ id_Ys t ∧
    (is_Some (itn !! y) ∨ readers y (pre ++ [t]) ≠ []).
Proof.
  induction tr as [|[[[nid l] Xs] Ys] tr IH]; intros itn otn e Hc; [done|].
  cbn [create_lookups] in Hc.
  set (t := (nid, l, Xs, Ys)) in *.
  set (itn1 := match nid with
               | Some n => foldl (record_input n) itn Xs
               | None => itn
               end) in *.
  assert (Hitn1 : ∀ x, itn1 !! x = extend (itn !! x) (readers x [t])).
  { intros x. unfold itn1, readers. simpl. rewrite app_nil_r.
    destruct nid as [n|]; simpl; [apply foldl_record_input|by rewrite extend_nil]. }
  assert (Hstep : ∀ y, is_Some (itn1 !! y) →
            is_Some (itn !! y) ∨ readers y [t] ≠ []).
  { intros y Hy. rewrite Hitn1 in Hy.
    destruct (itn !! y); [left; eauto|]. right. intros Hr. rewrite Hr in Hy.
    by destruct Hy. }
  change (keep || bool_decide (is_Some nid)) with (recorded keep t) in Hc.
  destruct (recorded keep t) eqn:Hr.
  - destruct (decide (Forall (λ y, itn1 !! y = None) Ys)) as [HYs|HYs].
    + rewrite record_outputs_Ok in Hc by done. cbn [mbind result_bind] in Hc.
      destruct (IH _ _ _ Hc) as (-> & pre & t' & post & y & -> & Hr' & Hy & Hbad).
      split; [done|]. exists (t :: pre), t', post, y. repeat split; try done.
      rewrite <-app_comm_cons, readers_cons.
      destruct Hbad as [Hs|Hread].
      * destruct (Hstep y Hs) as [?|Hread0]; [by left|].
        right. rewrite readers_cons in Hread0. simpl in Hread0.
        rewrite app_nil_r in Hread0. intros [Hnil _]%app_eq_nil. done.
      * right. intros [_ Hnil]%app_eq_nil. done.
    + rewrite record_outputs_Raise in Hc by done. injection Hc as <-.
      split; [done|].
      apply not_Forall_Exists in HYs; [|apply _].
      apply Exists_exists in HYs as (y & Hy & Hsome).
      exists [], t, tr, y. repeat split; try done.
      apply Hstep. simpl in Hsome. destruct (itn1 !! y); [by eexists|done].
  - cbn [mbind result_bind] in Hc.
    destruct (IH _ _ _ Hc) as (-> & pre & t' & post & y & -> & Hr' & Hy & Hbad).
    split; [done|]. exists (t :: pre), t', post, y. repeat split; try done.
    rewrite <-app_comm_cons, readers_cons.
    destruct Hbad as [Hs|Hread].
    * destruct (Hstep y Hs) as [?|Hread0]; [by left|].
      right. rewrite readers_cons in Hread0. simpl in Hread0.
      rewrite app_nil_r in Hread0. intros [Hnil _]%app_eq_nil. done.
    * right. intros [_ Hnil]%app_eq_nil. done.
Qed.

(** The loop of lines 420-436 returns exactly when no recorded entry
    gives a tensor that it or a node in front of it reads; the only
    error it raises is "Cannot be more than one creating node.". *)
Lemma create_lookups_checks keep tr :
  (is_Ok (create_lookups keep ∅ ∅ tr) ↔ no_early_reader keep tr) ∧
  (∀ e, create_lookups keep ∅ ∅ tr = Raise e →
     e = Exception "Cannot be more than one creating node.").
Proof.
  split; [split|].
  - intros [[itn otn] Hc] pre t post y Heq Hr Hy.
    by destruct (create_lookups_Ok keep tr _ _ _ _ Hc) as (_ & _ & [_ ?]%(λ H, H pre t post y Heq Hr Hy)).
  - intros Hno. destruct (create_lookups keep ∅ ∅ tr) as [a|e] eqn:Hc; [by eexists|].
    apply create_lookups_Raise in Hc as (_ & pre & t & post & y & Heq & Hr & Hy & [Hs|Hread]).
    + rewrite lookup_empty in Hs. by destruct Hs.
    + by destruct Hread; eapply Hno.
  - intros e Hc. by apply create_lookups_Raise in Hc as [-> _].
Qed.

Lemma map_result_is_Ok {A B} (f : A → result B) xs :
  is_Ok (map_result f xs) ↔ Forall (λ x, is_Ok (f x)) xs.
Proof.
  induction xs as [|x xs IH]; simpl.
  - split; [constructor|by eexists].
  - rewrite list.Forall_cons, <-IH. split.
    + intros [ys Hm]. apply result_bind_Ok in Hm as (y & Hy & Hm).
      apply result_bind_Ok in Hm as (ys' & Hys & _).
      split; by eexists.
    + intros [[y Hy] [ys Hys]]. rewrite Hy, Hys. by eexists.
Qed.

Lemma map_result_Raise {A B} (f : A → result B) xs e :
  map_result f xs = Raise e → ∃ x, x ∈ xs ∧ f x = Raise e.
Proof.
  induction xs as [|x xs IH]; simpl; [done|].
  destruct (f x) as [y|e'] eqn:Hx; simpl.
  - destruct (map_result f xs) as [ys|e'] eqn:Hxs; simpl; [done|].
    intros [= ->]. destruct (IH eq_refl) as (x' & Hin & Hx').
    exists x'. split; [by right|done].
  - intros [= ->]. exists x. split; [by left|done].
Qed.

Lemma dict_update_is_Some `{Countable K} {V} (pairs : list (K * V)) :
  ∀ (d : gmap K V) k, k ∈ pairs.*1 → is_Some (dict_update d pairs !! k).
Proof.
  unfold dict_update.
  induction pairs as [|[k0 v0] pairs IH] using rev_ind; intros d k Hk.
  { by apply elem_of_nil in Hk. }
  rewrite foldl_app. simpl. rewrite fmap_app in Hk.
  destruct (decide (k = k0)) as [->|Hne]; [by rewrite lookup_insert_eq|].
  rewrite lookup_insert_ne by done. apply IH.
  apply elem_of_app in Hk as [Hk|Hk]; [done|].
  by apply list_elem_of_singleton in Hk.
Qed.

Lemma layer_of_nid_is_Ok (ntn : gmap (option nat) id_node) v :
  is_Some (ntn !! v) → is_Ok (layer_of_nid ntn v).
Proof.
  intros [t Ht]. unfold layer_of_nid, getitem. rewrite Ht. by eexists.
Qed.

Lemma map_result_ext_Ok {A B} (f : A → result B) (g : A → B) xs :
  (∀ x, x ∈ xs → f x = Ok (g x)) → map_result f xs = Ok (g <$> xs).
Proof.
  induction xs as [|x xs IH]; intros Hf; [done|].
  cbn [map_result]. rewrite (Hf x) by (by left).
  rewrite IH by (intros x' Hx'; apply Hf; by right). done.
Qed.

Lemma map_result_only_Raise {A B} (f : A → result B) xs e :
  (∀ x e', x ∈ xs → f x = Raise e' → e' = e) →
  ¬ Forall (λ x, is_Ok (f x)) xs → map_result f xs = Raise e.
Proof.
  intros Hf Hnot. destruct (map_result f xs) as [ys|e'] eqn:Hm.
  - destruct Hnot. apply map_result_is_Ok. by eexists.
  - apply map_result_Raise in Hm as (x & Hx & Hfx). by rewrite (Hf x e' Hx Hfx).
Qed.

Lemma layer_of_nid_lookup (ntn : gmap (option nat) id_node) v t :
  ntn !! v = Some t → layer_of_nid ntn v = Ok (id_layer t).
Proof. intros Ht. unfold layer_of_nid, getitem. by rewrite Ht. Qed.

Section EnrichNode.
Variables (keep : bool) (tr : list id_node).
Variables (itn : gmap tensor (list nat)) (otn : gmap tensor (option nat)).
Variable ntn : gmap (option nat) id_node.
Hypothesis Hitn : ∀ x, itn !! x = extend None (readers x tr).
Hypothesis Hotn : ∀ y v, otn !! y = Some v → v ∈ producers keep y tr.
Hypothesis Hntn : ∀ t, t ∈ tr → is_Some (ntn !! id_nid t).

Lemma readers_known x nids n :
  itn !! x = Some nids → n ∈ nids → is_Some (ntn !! Some n).
Proof using All.
  rewrite Hitn. intros Hx Hn.
  assert (Hr : n ∈ readers x tr).
  { destruct (readers x tr); simpl in Hx; [done|]. by injection Hx as <-. }
  apply readers_elem in Hr as (t & Ht & Hnid & _). rewrite <-Hnid. by apply Hntn.
Qed.

Lemma creator_known y v : otn !! y = Some v → is_Some (ntn !! v).
Proof using All.
  intros Hy%Hotn. apply producers_elem in Hy as (t & Ht & <- & _). by apply Hntn.
Qed.

Lemma itn_is_Some y : is_Some (itn !! y) ↔ readers y tr ≠ [].
Proof using All. rewrite Hitn. destruct (readers y tr); simpl; split; naive_solver. Qed.

Lemma layers_of_nids (vs : list (option nat)) :
  (∀ v, v ∈ vs → is_Some v → is_Some (ntn !! v)) →
  map_result (layer_of_nid ntn) (filter (λ v, is_Some v) vs) =
  Ok (omap (λ v : option nat, t ← v ≫= (λ n, ntn !! Some n); Some (id_layer t)) vs).
Proof using All.
  induction vs as [|v vs IH]; intros Hvs; [done|].
  rewrite filter_cons. destruct v as [n|].
  - destruct (Hvs (Some n)) as [t Ht]; [by left|by eexists|].
    rewrite decide_True by (by eexists).
    cbn [map_result]. rewrite (layer_of_nid_lookup _ _ _ Ht).
    rewrite IH by (intros v Hv; apply Hvs; by right).
    simpl. by rewrite Ht.
  - rewrite decide_False by (by intros [??]).
    rewrite IH by (intros v Hv; apply Hvs; by right). done.
Qed.

Lemma layers_of_readers Y :
  map_result (layer_of_nid ntn) (Some <$> readers Y tr) =
  Ok (omap (λ v : option nat, t ← v ≫= (λ n, ntn !! Some n); Some (id_layer t))
        (Some <$> readers Y tr)).
Proof using All.
  rewrite <-layers_of_nids.
  - f_equal. induction (readers Y tr) as [|n r IH]; [done|].
    rewrite fmap_cons, filter_cons, decide_True by (by eexists). by rewrite <-IH.
  - intros v (n & -> & Hn)%list_elem_of_fmap _.
    apply readers_elem in Hn as (t & Ht & Hnid & _). rewrite <-Hnid. by apply Hntn.
Qed.

(** Lines 441-471 on an entry that is no input layer: they never fail. *)
Lemma enrich_node_applied nid l Xs0 Ys0 :
  is_input_layer l = false →
  enrich_node itn otn ntn (nid, l, Xs0, Ys0) =
  Ok (TraceEntry nid l Xs0 Ys0
        ((λ X, default None (otn !! X)) <$> Xs0)
        ((λ Y, default [None] (fmap (M := list) Some <$> itn !! Y)) <$> Ys0)
        (omap (λ v : option nat, t ← v ≫= (λ n, ntn !! Some n); Some (id_layer t))
           ((λ X, default None (otn !! X)) <$> Xs0))
        ((λ Y, omap (λ v : option nat, t ← v ≫= (λ n, ntn !! Some n); Some (id_layer t))
                 (default [None] (fmap (M := list) Some <$> itn !! Y))) <$> Ys0)).
Proof using All.
  intros Hl. unfold enrich_node. rewrite Hl.
  rewrite layers_of_nids.
  2:{ intros v (X & -> & HX)%list_elem_of_fmap Hv.
      destruct (otn !! X) as [v|] eqn:Hotn'; simpl in *; [|by destruct Hv].
      by eapply creator_known. }
  cbn [mbind result_bind].
  assert (HYs : map_result (λ Ynids2, map_result (layer_of_nid ntn)
                   (filter (λ Ynid, is_Some Ynid) Ynids2))
              ((λ Y, default [None] (fmap (M := list) Some <$> itn !! Y)) <$> Ys0) =
            Ok ((λ Y, omap (λ v : option nat, t ← v ≫= (λ n, ntn !! Some n); Some (id_layer t))
                  (default [None] (fmap (M := list) Some <$> itn !! Y))) <$> Ys0)).
  { induction Ys0 as [|Y Ys1 IH]; [done|]. rewrite !fmap_cons. cbn [map_result].
    rewrite IH. clear IH. rewrite layers_of_nids; [done|].
    intros v Hv Hsome. destruct (itn !! Y) as [nids|] eqn:HY; simpl in Hv.
    - apply list_elem_of_fmap in Hv as (n & -> & Hn). by eapply readers_known.
    - apply list_elem_of_singleton in Hv as ->. by destruct Hsome. }
  rewrite HYs. done.
Qed.

(** Lines 441-448 on an input layer: they fail, with a [KeyError], when
    no node reads one of the tensors it gives. *)
Lemma enrich_node_input nid l Xs0 Ys0 :
  is_input_layer l = true →
  (Forall (λ y, readers y tr ≠ []) Ys0 →
     enrich_node itn otn ntn (nid, l, Xs0, Ys0) =
     Ok (TraceEntry nid l Xs0 Ys0 []
           ((λ Y, Some <$> readers Y tr) <$> Ys0) []
           ((λ Y, omap (λ v : option nat, t ← v ≫= (λ n, ntn !! Some n); Some (id_layer t))
                    (Some <$> readers Y tr)) <$> Ys0))) ∧
  (¬ Forall (λ y, readers y tr ≠ []) Ys0 →
     enrich_node itn otn ntn (nid, l, Xs0, Ys0) = Raise KeyError).
Proof using All.
  intros Hl. unfold enrich_node. rewrite Hl. split.
  - intros HYs. rewrite Forall_forall in HYs.
    rewrite (map_result_ext_Ok _ (λ Y, Some <$> readers Y tr)).
    2:{ intros Y HY. unfold getitem. rewrite Hitn.
        specialize (HYs Y HY). by destruct (readers Y tr). }
    cbn [mbind result_bind].
    rewrite (map_result_ext_Ok _
      (omap (λ v : option nat, t ← v ≫= (λ n, ntn !! Some n); Some (id_layer t)))).
    2:{ intros vs (Y & -> & HY)%list_elem_of_fmap. apply layers_of_readers. }
    cbn [mbind result_bind]. by rewrite <-list_fmap_compose.
  - intros HYs.
    rewrite (map_result_only_Raise _ _ KeyError); [done| |].
    + intros Y e _. unfold getitem. by destruct (itn !! Y); intros [= <-].
    + intros Hall. apply HYs. eapply Forall_impl; [done|]. simpl.
      intros Y [vs HY]. apply itn_is_Some. unfold getitem in HY.
      by destruct (itn !! Y).
Qed.

End EnrichNode.

(** ** get_model_execution_trace: when it returns, and what *)

Lemma enrich_with_nids_nodes trace : ∀ c,
  Forall2 (λ (n : exec_node) (t : id_node),
             id_layer t = node_layer n ∧ id_Xs t = node_Xs n ∧ id_Ys t = node_Ys n ∧
             (is_Some (id_nid t) ↔ is_input_layer (node_layer n) = false))
          trace (enrich_with_nids c trace).
Proof.
  induction trace as [|[[l xs] ys] trace IH]; intros c; [constructor|].
  simpl. destruct (is_input_layer l) eqn:Hl; constructor; try apply IH.
  - unfold id_layer, id_Xs, id_Ys, id_nid, node_layer, node_Xs, node_Ys. simpl.
    rewrite Hl. repeat split; try done; by intros [??].
  - unfold id_layer, id_Xs, id_Ys, id_nid, node_layer, node_Xs, node_Ys. simpl.
    rewrite Hl. repeat split; try done; by eexists.
Qed.

Lemma topological_no_early_reader keep trace :
  topological trace → no_early_reader keep (enrich_with_nids 0 trace).
Proof.
  intros Htopo pre t post y Heq _ Hy. apply readers_nil.
  intros t' [j Hj]%list_elem_of_lookup _ Hx.
  pose proof (enrich_with_nids_nodes trace 0) as Hn. rewrite Heq in Hn.
  assert (Hi : (pre ++ t :: post) !! length pre = Some t).
  { by rewrite lookup_app_r, Nat.sub_diag by lia. }
  assert (Hj' : (pre ++ t :: post) !! j = Some t').
  { rewrite (cons_middle t pre post), app_assoc. by apply lookup_app_l_Some. }
  destruct (Forall2_lookup_r _ _ _ _ _ Hn Hi) as (n & Hni & _ & _ & HYs & _).
  destruct (Forall2_lookup_r _ _ _ _ _ Hn Hj') as (n' & Hnj & _ & HXs & _ & _).
  assert (Hdep : depends_on n' n).
  { exists y. by rewrite <-HXs, <-HYs. }
  specialize (Htopo _ _ _ _ Hnj Hni Hdep).
  apply lookup_lt_Some in Hj. rewrite length_app in Hj. simpl in Hj. lia.
Qed.

(** What [enrich_trace] has computed when it returns. *)
Lemma enrich_trace_Ok keep trace entries :
  enrich_trace keep trace = Ok entries →
  let tr := enrich_with_nids 0 trace in
  ∃ itn otn ntn all,
    create_lookups keep ∅ ∅ tr = Ok (itn, otn) ∧
    map_result (enrich_node itn otn ntn) tr = Ok all ∧
    entries = (if keep then all else filter (λ tmp, is_Some (nid tmp)) all) ∧
    (∀ x, itn !! x = extend None (readers x tr)) ∧
    (∀ y, otn !! y = list.last (producers keep y tr)) ∧
    (∀ t, t ∈ tr → is_Some (ntn !! id_nid t)) ∧
    ntn = dict_update ∅ ((λ t : id_node, (t.1.1.1, t)) <$> tr).
Proof.
  intros He tr. unfold enrich_trace in He. fold tr in He.
  apply result_bind_Ok in He as ([itn otn] & Hc & He).
  apply result_bind_Ok in He as (all & Hall & He). injection He as <-.
  exists itn, otn, (dict_update ∅ ((λ t : id_node, (t.1.1.1, t)) <$> tr)), all.
  split; [done|]. split; [done|]. split; [done|].
  destruct (create_lookups_Ok keep tr _ _ _ _ Hc) as (Hitn & Hotn & _).
  split; [|split; [|split; [|done]]].
  - intros x. by rewrite Hitn, lookup_empty.
  - intros y. rewrite Hotn, lookup_empty. by destruct (list.last _).
  - intros t Ht. apply dict_update_is_Some.
    rewrite <-list_fmap_compose. by apply list_elem_of_fmap_2.
Qed.

Lemma last_elem_of {A} (l : list A) x : list.last l = Some x → x ∈ l.
Proof. intros [l' ->]%last_Some. apply elem_of_app. right. by left. Qed.

Lemma enrich_node_outcome keep tr itn otn ntn t :
  (∀ x, itn !! x = extend None (readers x tr)) →
  (∀ y, otn !! y = list.last (producers keep y tr)) →
  (∀ t, t ∈ tr → is_Some (ntn !! id_nid t)) →
  (is_Ok (enrich_node itn otn ntn t) ↔
     (is_input_layer (id_layer t) = true →
        Forall (λ y, readers y tr ≠ []) (id_Ys t))) ∧
  (∀ e, enrich_node itn otn ntn t = Raise e →
     e = KeyError ∧ is_input_layer (id_layer t) = true ∧
     ¬ Forall (λ y, readers y tr ≠ []) (id_Ys t)).
Proof.
  intros Hitn Hotn Hntn.
  assert (Hotn' : ∀ y v, otn !! y = Some v → v ∈ producers keep y tr).
  { intros y v Hy. rewrite Hotn in Hy. by apply last_elem_of. }
  destruct t as [[[nid l] Xs0] Ys0].
  unfold id_layer, id_Ys. cbn [fst snd].
  destruct (is_input_layer l) eqn:Hl.
  - destruct (enrich_node_input keep tr itn otn ntn Hitn Hotn' Hntn nid l Xs0 Ys0 Hl)
      as [HOk HRaise].
    destruct (decide (Forall (λ y, readers y tr ≠ []) Ys0)) as [HYs|HYs].
    + rewrite (HOk HYs). split; [|done].
      split; [done|]. intros _. by eexists.
    + rewrite (HRaise HYs). split.
      * split; [by intros [??]|]. intros Hall. by destruct HYs; apply Hall.
      * by intros e [= <-].
  - rewrite (enrich_node_applied keep tr itn otn ntn Hitn Hotn' Hntn nid l Xs0 Ys0 Hl).
    split; [|done]. split; [done|]. intros _. by eexists.
Qed.

(** [enrich_trace], lines 408-479 of [get_model_execution_trace], on an
    execution list [trace]: it returns exactly when no recorded entry
    gives a tensor that it or a node in front of it reads, and every
    tensor an input layer gives is read by a node.  Else it raises
    "Cannot be more than one creating node." for the first reason, and a
    [KeyError], from line 444, for the second alone, with or without
    [keep_input_layers].  On a list in topological order the first error
    does not occur. *)
Theorem enrich_trace_succeeds keep trace :
  let tr := enrich_with_nids 0 trace in
  (is_Ok (enrich_trace keep trace) ↔ no_early_reader keep tr ∧ inputs_are_read tr) ∧
  (∀ e, enrich_trace keep trace = Raise e →
     (e = Exception "Cannot be more than one creating node." ∧
      ¬ no_early_reader keep tr) ∨
     (e = KeyError ∧ no_early_reader keep tr ∧ ¬ inputs_are_read tr)) ∧
  (topological trace → no_early_reader keep tr).
Proof.
  intros tr. destruct (create_lookups_checks keep tr) as [Hchk Hmsg].
  assert (Hrun : ∀ itn otn, create_lookups keep ∅ ∅ tr = Ok (itn, otn) →
    let ntn := dict_update ∅ ((λ t : id_node, (t.1.1.1, t)) <$> tr) in
    enrich_trace keep trace =
      (all ← map_result (enrich_node itn otn ntn) tr;
       Ok (if keep then all else filter (λ tmp, is_Some (nid tmp)) all)) ∧
    ∀ t, (is_Ok (enrich_node itn otn ntn t) ↔
           (is_input_layer (id_layer t) = true →
              Forall (λ y, readers y tr ≠ []) (id_Ys t))) ∧
         (∀ e, enrich_node itn otn ntn t = Raise e →
            e = KeyError ∧ is_input_layer (id_layer t) = true ∧
            ¬ Forall (λ y, readers y tr ≠ []) (id_Ys t))).
  { intros itn otn Hc ntn. split.
    - unfold enrich_trace. fold tr. by rewrite Hc.
    - intros t. destruct (create_lookups_Ok keep tr _ _ _ _ Hc) as (Hitn & Hotn & _).
      apply (enrich_node_outcome keep tr).
      + intros x. by rewrite Hitn, lookup_empty.
      + intros y. rewrite Hotn, lookup_empty. by destruct (list.last _).
      + intros t' Ht'. apply dict_update_is_Some.
        rewrite <-list_fmap_compose. by apply list_elem_of_fmap_2. }
  assert (Hread : ∀ itn otn, create_lookups keep ∅ ∅ tr = Ok (itn, otn) →
    let ntn := dict_update ∅ ((λ t : id_node, (t.1.1.1, t)) <$> tr) in
    Forall (λ t, is_Ok (enrich_node itn otn ntn t)) tr ↔ inputs_are_read tr).
  { intros itn otn Hc ntn. destruct (Hrun itn otn Hc) as [_ Hnode].
    rewrite Forall_forall. split.
    - intros Hall t y Ht Hl Hy. destruct (Hnode t) as [HOk _].
      apply HOk in Hl; [|by apply Hall].
      rewrite Forall_forall in Hl. by apply Hl.
    - intros Hin t Ht. destruct (Hnode t) as [HOk _]. apply HOk.
      intros Hl. apply Forall_forall. intros y Hy. by eapply Hin. }
  split; [split|split].
  - intros [entries He].
    destruct (create_lookups keep ∅ ∅ tr) as [[itn otn]|e] eqn:Hc.
    2:{ unfold enrich_trace in He. fold tr in He. by rewrite Hc in He. }
    split; [apply Hchk; by eexists|].
    apply (Hread itn otn eq_refl).
    destruct (Hrun itn otn eq_refl) as [Heq _]. rewrite Heq in He.
    apply result_bind_Ok in He as (all & Hall & _).
    apply map_result_is_Ok. by eexists.
  - intros [Hno Hin]. apply Hchk in Hno as [[itn otn] Hc].
    destruct (Hrun itn otn Hc) as [Heq _]. rewrite Heq.
    apply (Hread itn otn Hc), map_result_is_Ok in Hin as [all ->]. by eexists.
  - intros e He.
    destruct (create_lookups keep ∅ ∅ tr) as [[itn otn]|e'] eqn:Hc.
    + right. destruct (Hrun itn otn eq_refl) as [Heq Hnode]. rewrite Heq in He.
      destruct (map_result _ tr) as [all|e'] eqn:Hall; [done|].
      injection He as ->.
      assert (Hno : no_early_reader keep tr) by (apply Hchk; by eexists).
      apply map_result_Raise in Hall as (t & Ht & Hfail).
      destruct (Hnode t) as [_ HRaise].
      destruct (HRaise e Hfail) as (-> & Hl & HYs).
      split; [done|]. split; [done|]. intros Hin. apply HYs.
      apply Forall_forall. intros y Hy. by eapply Hin.
    + left. unfold enrich_trace in He. fold tr in He. rewrite Hc in He.
      injection He as ->. split; [by apply Hmsg|].
      intros [? Hc']%Hchk. congruence.
  - apply topological_no_early_reader.
Qed.

Lemma applied_nodes_cons n trace :
  applied_nodes (n :: trace) =
  if is_input_layer (node_layer n) then applied_nodes trace
  else n :: applied_nodes trace.
Proof.
  unfold applied_nodes. rewrite filter_cons.
  destruct (is_input_layer (node_layer n)); [by rewrite decide_False|by rewrite decide_True].
Qed.

Lemma enrich_with_nids_numbers trace : ∀ c,
  omap id_nid (enrich_with_nids c trace) = seq c (length (applied_nodes trace)).
Proof.
  induction trace as [|[[l xs] ys] trace IH]; intros c; [done|].
  rewrite applied_nodes_cons. unfold node_layer. simpl.
  destruct (is_input_layer l); simpl; by rewrite IH.
Qed.

(** The entry with the node id [n] is the [n]-th entry that is no input
    layer. *)
Lemma enrich_with_nids_applied trace : ∀ c t n,
  t ∈ enrich_with_nids c trace → id_nid t = Some n →
  c ≤ n ∧ applied_nodes trace !! (n - c) = Some (id_layer t, id_Xs t, id_Ys t).
Proof.
  induction trace as [|[[l xs] ys] trace IH]; intros c t n Ht Hn.
  { by apply elem_of_nil in Ht. }
  rewrite applied_nodes_cons. unfold node_layer. simpl in *.
  destruct (is_input_layer l).
  - apply elem_of_cons in Ht as [->|Ht]; [done|]. by apply IH.
  - apply elem_of_cons in Ht as [->|Ht].
    + injection Hn as <-. by rewrite Nat.sub_diag.
    + destruct (IH (S c) t n Ht Hn) as [Hle Hl]. split; [lia|].
      by replace (n - c) with (S (n - S c)) by lia.
Qed.

Lemma applied_enrich_with_nids trace : ∀ c k node,
  applied_nodes trace !! k = Some node →
  ∃ t, t ∈ enrich_with_nids c trace ∧ id_nid t = Some (c + k) ∧
       (id_layer t, id_Xs t, id_Ys t) = node.
Proof.
  induction trace as [|[[l xs] ys] trace IH]; intros c k node Hk; [done|].
  rewrite applied_nodes_cons in Hk. unfold node_layer in Hk. simpl in *.
  destruct (is_input_layer l).
  - destruct (IH c k node Hk) as (t & Ht & Hn & Hf). exists t. split; [by right|done].
  - destruct k as [|k]; simpl in Hk.
    + injection Hk as <-. exists (Some c, l, xs, ys). split; [by left|].
      split; [|done]. unfold id_nid. simpl. f_equal. lia.
    + destruct (IH (S c) k node Hk) as (t & Ht & Hn & Hf).
      exists t. split; [by right|]. split; [|done]. rewrite Hn. f_equal. lia.
Qed.

Lemma nid_to_nodes_lookup trace n :
  let tr := enrich_with_nids 0 trace in
  (dict_update (∅ : gmap (option nat) id_node) ((λ t : id_node, (t.1.1.1, t)) <$> tr)
     !! Some n ≫= λ t, Some (id_layer t)) = layer_at trace (Some n).
Proof.
  intros tr. unfold layer_at. cbn [mbind option_bind].
  destruct (dict_update _ _ !! Some n) as [t|] eqn:Ht; simpl.
  - apply dict_update_lookup in Ht as [Hin|Hl]; [|by rewrite lookup_empty in Hl].
    apply list_elem_of_fmap in Hin as (t' & [= Hn ->] & Ht').
    destruct (enrich_with_nids_applied trace 0 t' n Ht') as [_ Hl]; [done|].
    rewrite Nat.sub_0_r in Hl.
    transitivity (node_layer <$> Some (id_layer t', id_Xs t', id_Ys t')); [done|].
    f_equal. symmetry. exact Hl.
  - destruct (applied_nodes trace !! n) as [node|] eqn:Hk; [|done].
    destruct (applied_enrich_with_nids trace 0 n node Hk) as (t & Htr & Hn & _).
    assert (Hs : is_Some (dict_update (∅ : gmap (option nat) id_node)
                ((λ t : id_node, (t.1.1.1, t)) <$> tr) !! Some n)).
    { apply dict_update_is_Some. rewrite <-list_fmap_compose.
      apply list_elem_of_fmap. by exists t. }
    rewrite Ht in Hs. by destruct Hs.
Qed.

Lemma enrich_node_fields itn otn ntn t e :
  enrich_node itn otn ntn t = Ok e → entry_node e = t.
Proof.
  destruct t as [[[v l] Xs0] Ys0]. unfold enrich_node.
  destruct (is_input_layer l).
  - intros (? & _ & (? & _ & [= <-])%result_bind_Ok)%result_bind_Ok. done.
  - intros (? & _ & (? & _ & [= <-])%result_bind_Ok)%result_bind_Ok. done.
Qed.

Lemma enriched_entries itn otn ntn tr all :
  map_result (enrich_node itn otn ntn) tr = Ok all →
  entry_node <$> all = tr ∧
  ∀ e, e ∈ all → entry_node e ∈ tr ∧ enrich_node itn otn ntn (entry_node e) = Ok e.
Proof.
  intros Hall%map_result_Ok. split.
  - induction Hall as [|t e tr all He _ IH]; [done|].
    rewrite fmap_cons, IH. f_equal. by eapply enrich_node_fields.
  - intros e [i Hi]%list_elem_of_lookup.
    destruct (Forall2_lookup_r _ _ _ _ _ Hall Hi) as (t & Ht & He).
    rewrite (enrich_node_fields _ _ _ _ _ He). split; [|done].
    by eapply list_elem_of_lookup_2.
Qed.

Lemma filter_entry_node (all : list trace_entry) :
  entry_node <$> filter (λ tmp, is_Some (nid tmp)) all =
  filter (λ t, recorded false t = true) (entry_node <$> all).
Proof.
  induction all as [|e all IH]; [done|].
  rewrite fmap_cons, !filter_cons.
  assert (Hiff : recorded false (entry_node e) = true ↔ is_Some (nid e)).
  { unfold recorded. simpl. by rewrite bool_decide_eq_true. }
  destruct (decide (is_Some (nid e))) as [Hn|Hn].
  - rewrite decide_True by (by apply Hiff). by rewrite fmap_cons, IH.
  - rewrite decide_False by (by rewrite Hiff). done.
Qed.

Lemma omap_filter_recorded keep (tr : list id_node) :
  omap id_nid (filter (λ t, recorded keep t = true) tr) = omap id_nid tr.
Proof.
  induction tr as [|t tr IH]; [done|]. rewrite filter_cons.
  destruct (decide (recorded keep t = true)) as [Hr|Hr].
  - simpl. destruct (id_nid t); [f_equal|]; exact IH.
  - simpl. destruct (id_nid t) as [n|] eqn:Hn; [|exact IH].
    destruct Hr. unfold recorded. rewrite Hn.
    rewrite bool_decide_eq_true_2 by (by eexists). by destruct keep.
Qed.

Lemma enriched_trace_numbering keep trace entries :
  enrich_trace keep trace = Ok entries →
  entry_node <$> entries
    = filter (λ t, recorded keep t = true) (enrich_with_nids 0 trace) ∧
  omap nid entries = seq 0 (length (applied_nodes trace)) ∧
  (∀ e n, e ∈ entries → nid e = Some n →
     applied_nodes trace !! n = Some (entry_layer e, Xs e, Ys e)) ∧
  (∀ e, e ∈ entries → nid e = None ↔ is_input_layer (entry_layer e) = true).
Proof.
  intros He.
  destruct (enrich_trace_Ok keep trace entries He)
    as (itn & otn & ntn & all & _ & Hall & -> & _).
  destruct (enriched_entries _ _ _ _ _ Hall) as [Hnodes Hmem].
  assert (Hfields : entry_node <$> (if keep then all
                      else filter (λ tmp, is_Some (nid tmp)) all)
            = filter (λ t, recorded keep t = true) (enrich_with_nids 0 trace)).
  { destruct keep.
    - rewrite Hnodes. generalize (enrich_with_nids 0 trace). intros tr.
      induction tr as [|t tr IH]; [done|]. by rewrite filter_cons_True, <-IH.
    - by rewrite filter_entry_node, Hnodes. }
  assert (Hin : ∀ e, e ∈ (if keep then all else filter (λ tmp, is_Some (nid tmp)) all) →
            entry_node e ∈ enrich_with_nids 0 trace).
  { intros e Hel. apply Hmem. destruct keep; [done|].
    by apply list_elem_of_filter in Hel as [_ ?]. }
  split; [done|]. split; [|split].
  - rewrite <-enrich_with_nids_numbers, <-(omap_filter_recorded keep), <-Hfields.
    generalize (if keep then all else filter (λ tmp, is_Some (nid tmp)) all).
    intros l. induction l as [|e l IH]; [done|].
    simpl. unfold id_nid at 1, entry_node at 1. simpl.
    destruct (nid e); [f_equal|]; exact IH.
  - intros e n Hel Hn.
    destruct (enrich_with_nids_applied trace 0 (entry_node e) n (Hin e Hel) Hn) as [_ Hl].
    by rewrite Nat.sub_0_r in Hl.
  - intros e Hel. apply Hin, list_elem_of_lookup in Hel as [i Hi].
    destruct (Forall2_lookup_r _ _ _ _ _ (enrich_with_nids_nodes trace 0) Hi)
      as (n & _ & Hl & _ & _ & Hnid).
    unfold id_layer, id_nid, entry_node in Hl, Hnid. simpl in Hl, Hnid.
    rewrite Hl. destruct (is_input_layer (node_layer n)), (nid e) as [k|];
      split; try done.
    + intros _. destruct Hnid as [Hnid _]. discriminate Hnid. by eexists.
    + intros _. destruct Hnid as [_ Hnid]. by destruct (Hnid eq_refl).
Qed.

(** What [enrich_trace] returns for an execution list [trace]: one entry
    per entry of the list -- without [keep_input_layers], per entry that
    is no input layer -- in the order of the list, with the layer and the
    tensors of that entry; the node ids count the entries that are no
    input layers from 0 on. *)
Theorem enrich_trace_entries keep trace entries :
  enrich_trace keep trace = Ok entries →
  entry_node <$> entries
    = filter (λ t, recorded keep t = true) (enrich_with_nids 0 trace) ∧
  omap nid entries = seq 0 (length (applied_nodes trace)) ∧
  (∀ e n, e ∈ entries → nid e = Some n →
     applied_nodes trace !! n = Some (entry_layer e, Xs e, Ys e)) ∧
  (∀ e, e ∈ entries → nid e = None ↔ is_input_layer (entry_layer e) = true).
Proof. apply enriched_trace_numbering. Qed.

Lemma readers_applied trace Y j :
  j ∈ readers Y (enrich_with_nids 0 trace) ↔
  ∃ k, applied_nodes trace !! j = Some k ∧ Y ∈ node_Xs k.
Proof.
  rewrite readers_elem. split.
  - intros (t & Ht & Hn & HY).
    destruct (enrich_with_nids_applied trace 0 t j Ht Hn) as [_ Hl].
    rewrite Nat.sub_0_r in Hl. eexists. split; [exact Hl|done].
  - intros (k & Hk & HY).
    destruct (applied_enrich_with_nids trace 0 j k Hk) as (t & Ht & Hn & <-).
    exists t. done.
Qed.

Lemma producers_applied keep trace X j :
  Some j ∈ producers keep X (enrich_with_nids 0 trace) ↔
  ∃ k, applied_nodes trace !! j = Some k ∧ X ∈ node_Ys k.
Proof.
  rewrite producers_elem. split.
  - intros (t & Ht & Hn & _ & HX).
    destruct (enrich_with_nids_applied trace 0 t j Ht Hn) as [_ Hl].
    rewrite Nat.sub_0_r in Hl. eexists. split; [exact Hl|done].
  - intros (k & Hk & HX).
    destruct (applied_enrich_with_nids trace 0 j k Hk) as (t & Ht & Hn & <-).
    exists t. split; [done|]. split; [done|]. split; [|done].
    unfold recorded. rewrite Hn, bool_decide_eq_true_2 by (by eexists).
    by destruct keep.
Qed.

(** The links of the enriched trace.  For the entry of a node, [Ys_nids]
    lists per output the ids of the nodes that read it, in the order of
    the trace and as often as they read it, or [[None]] when no node
    does; [Xs_nids] gives per input the id of the last recorded entry
    that gives it, or [None]; [Xs_layers] and [Ys_layers] are the layers
    of these nodes.  The entry of an input layer has no [Xs_nids]. *)
Theorem enrich_trace_links keep trace entries :
  enrich_trace keep trace = Ok entries →
  let tr := enrich_with_nids 0 trace in
  ∀ e, e ∈ entries →
    Ys_nids e = fmap (M := list)
                  (λ Y, if decide (readers Y tr = []) then [None]
                        else fmap (M := list) Some (readers Y tr)) (Ys e) ∧
    Xs_nids e = (if is_input_layer (entry_layer e) then []
                 else fmap (M := list)
                        (λ X, default None (list.last (producers keep X tr))) (Xs e)) ∧
    Xs_layers e = omap (M := list) (layer_at trace) (Xs_nids e) ∧
    Ys_layers e = fmap (M := list) (omap (M := list) (layer_at trace)) (Ys_nids e) ∧
    (∀ p Y nids j, Ys e !! p = Some Y → Ys_nids e !! p = Some nids →
       Some j ∈ nids ↔ ∃ k, applied_nodes trace !! j = Some k ∧ Y ∈ node_Xs k) ∧
    (∀ p X j, Xs e !! p = Some X → Xs_nids e !! p = Some (Some j) →
       ∃ k, applied_nodes trace !! j = Some k ∧ X ∈ node_Ys k).
Proof.
  intros He tr e Hel.
  destruct (enrich_trace_Ok keep trace entries He)
    as (itn & otn & ntn & all & _ & Hall & -> & Hitn & Hotn & Hntn & Hdict).
  fold tr in Hall, Hitn, Hotn, Hntn, Hdict.
  assert (Hotn' : ∀ y v, otn !! y = Some v → v ∈ producers keep y tr).
  { intros y v Hy. rewrite Hotn in Hy. by apply last_elem_of. }
  assert (Hlayer : ∀ v : option nat,
            (t ← v ≫= (λ n, ntn !! Some n); Some (id_layer t)) = layer_at trace v).
  { intros [n|]; [|done]. rewrite Hdict. apply nid_to_nodes_lookup. }
  assert (Hlayers : ∀ vs : list (option nat),
            omap (λ v : option nat, t ← v ≫= (λ n, ntn !! Some n); Some (id_layer t)) vs
            = omap (layer_at trace) vs).
  { intros vs. induction vs as [|v vs IH]; [done|]. simpl. rewrite Hlayer.
    destruct (layer_at trace v); [f_equal|]; exact IH. }
  destruct (enriched_entries _ _ _ _ _ Hall) as [_ Hmem].
  destruct (Hmem e) as [_ Hnode].
  { destruct keep; [done|]. by apply list_elem_of_filter in Hel as [_ ?]. }
  unfold entry_node in Hnode.
  assert (Hform :
    Ys_nids e = fmap (M := list)
                  (λ Y, if decide (readers Y tr = []) then [None]
                        else fmap (M := list) Some (readers Y tr)) (Ys e) ∧
    Xs_nids e = (if is_input_layer (entry_layer e) then []
                 else fmap (M := list)
                        (λ X, default None (list.last (producers keep X tr))) (Xs e)) ∧
    Xs_layers e = omap (M := list) (layer_at trace) (Xs_nids e) ∧
    Ys_layers e = fmap (M := list) (omap (M := list) (layer_at trace)) (Ys_nids e)).
  { destruct (is_input_layer (entry_layer e)) eqn:Hl.
    - destruct (enrich_node_input keep tr itn otn ntn Hitn Hotn' Hntn
                  (nid e) (entry_layer e) (Xs e) (Ys e) Hl) as [HOk HRaise].
      destruct (decide (Forall (λ y, readers y tr ≠ []) (Ys e))) as [HYs|HYs];
        [|by rewrite (HRaise HYs) in Hnode].
      rewrite (HOk HYs) in Hnode. injection Hnode as Hnode. rewrite <-Hnode. simpl.
      rewrite Forall_forall in HYs.
      split; [|split; [done|split; [done|]]].
      + apply list_fmap_ext. intros i Y HY%list_elem_of_lookup_2.
        by rewrite decide_False by (by apply HYs).
      + rewrite <-list_fmap_compose. apply list_fmap_ext. intros i Y _. apply Hlayers.
    - rewrite (enrich_node_applied keep tr itn otn ntn Hitn Hotn' Hntn _ _ _ _ Hl) in Hnode.
      injection Hnode as Hnode. rewrite <-Hnode. simpl.
      split; [|split; [|split]].
      + apply list_fmap_ext. intros i Y _. rewrite Hitn.
        destruct (readers Y tr); [by rewrite decide_True|by rewrite decide_False].
      + apply list_fmap_ext. intros i X _. by rewrite Hotn.
      + apply Hlayers.
      + rewrite <-list_fmap_compose. apply list_fmap_ext. intros i Y _. apply Hlayers. }
  destruct Hform as (HYn & HXn & HXl & HYl).
  split; [done|]. split; [done|]. split; [done|]. split; [done|]. split.
  - intros p Y nids j HY Hnids. rewrite HYn, list_lookup_fmap, HY in Hnids.
    injection Hnids as <-. rewrite <-readers_applied. fold tr.
    destruct (decide (readers Y tr = [])) as [Hr|Hr].
    + rewrite Hr. split; [|by intros ?%elem_of_nil].
      by intros [=]%list_elem_of_singleton.
    + rewrite list_elem_of_fmap. split; [by intros (? & [= ->] & ?)|eauto].
  - intros p X j HX Hnid. rewrite HXn in Hnid.
    destruct (is_input_layer (entry_layer e)); [done|].
    rewrite list_lookup_fmap, HX in Hnid. injection Hnid as Hnid.
    apply (producers_applied keep). fold tr.
    destruct (list.last (producers keep X tr)) as [v|] eqn:Hlast; [|done].
    simpl in Hnid. subst v. by apply last_elem_of.
Qed.

(** ** get_model_execution_graph *)

Lemma filter_ext_in {A} (P1 P2 : A → Prop)
    `{!∀ x, Decision (P1 x), !∀ x, Decision (P2 x)} (l : list A) :
  (∀ x, x ∈ l → P1 x ↔ P2 x) → filter P1 l = filter P2 l.
Proof.
  induction l as [|a l IH]; intros Hiff; [done|].
  rewrite !filter_cons, IH by (intros x Hx; apply Hiff; by right).
  destruct (decide (P1 a)) as [H1|H1].
  - rewrite decide_True; [done|]. apply Hiff; [by left|done].
  - rewrite decide_False; [done|]. intros H2. apply H1, Hiff; [by left|done].
Qed.

Section ExecutionGraphKeys.
Context `{Framework}.

(** The graph that [get_model_execution_graph] returns has, for the
    execution list [trace] of the model, the keys [0 .. k-1], [k] the
    number of entries of [trace] that are no input layers: under the key
    [n] stands the entry of the [n]-th of them, which carries [n] as its
    node id.  With [keep_input_layers] the key [None] holds the list of
    the entries of the input layers (the empty list when there is none);
    without, there is no such key. *)
Theorem get_model_execution_graph_keys m keep h graph h' :
  get_model_execution_graph m keep h = (Ok graph, h') →
  ∃ layers trace outputs entries,
    trace_model_execution m false h = (Ok (layers, trace, outputs), h') ∧
    enrich_trace keep trace = Ok entries ∧
    (∀ n, n < length (applied_nodes trace) →
       ∃ e, graph !! Some n = Some (GraphNode e) ∧ e ∈ entries ∧ nid e = Some n ∧
            applied_nodes trace !! n = Some (entry_layer e, Xs e, Ys e)) ∧
    (∀ n, length (applied_nodes trace) ≤ n → graph !! Some n = None) ∧
    graph !! None =
      (if keep
       then Some (GraphInputLayers
                    (filter (λ e, is_input_layer (entry_layer e) = true) entries))
       else None).
Proof.
  unfold get_model_execution_graph, get_model_execution_trace. intros Hg.
  apply M_bind_Ok in Hg as (entries & h1 & Ht & Hg).
  apply mret_inv in Hg as [[= ->] ->].
  apply M_bind_Ok in Ht as ([[layers trace] outputs] & h2 & Ht & He).
  apply lift_inv in He as [He ->].
  exists layers, trace, outputs, entries. split; [done|]. split; [done|].
  destruct (enriched_trace_numbering keep trace entries He) as (_ & Hnum & Happ & Hinp).
  set (pairs := (λ tmp, (nid tmp, GraphNode tmp)) <$> entries).
  assert (Hnode : ∀ v g, dict_update (∅ : gmap (option nat) graph_value) pairs !! v = Some g →
            ∃ e, g = GraphNode e ∧ e ∈ entries ∧ nid e = v).
  { intros v g [Hin|Hl]%dict_update_lookup; [|by rewrite lookup_empty in Hl].
    apply list_elem_of_fmap in Hin as (e & [= -> ->] & Hel). eauto. }
  assert (Hkey : ∀ e n, e ∈ entries → nid e = Some n →
            n < length (applied_nodes trace)).
  { intros e n Hel Hn. eapply lookup_lt_Some. exact (Happ e n Hel Hn). }
  assert (Hsome : ∀ n,
            execution_graph keep entries !! Some n =
            dict_update (∅ : gmap (option nat) graph_value) pairs !! Some n).
  { intros n. unfold execution_graph. fold pairs.
    destruct keep; [by rewrite lookup_insert_ne|done]. }
  split; [|split].
  - intros n Hn.
    assert (Hin : n ∈ omap nid entries).
    { rewrite Hnum. apply elem_of_seq. lia. }
    apply list_elem_of_omap in Hin as (e0 & Hel0 & Hn0).
    destruct (dict_update_is_Some pairs (∅ : gmap (option nat) graph_value) (Some n))
      as [g Hg].
    { unfold pairs. rewrite <-list_fmap_compose.
      apply list_elem_of_fmap. by exists e0. }
    destruct (Hnode _ _ Hg) as (e & -> & Hel & Hnid).
    exists e. rewrite Hsome. split; [done|]. split; [done|]. split; [done|].
    by apply Happ.
  - intros n Hn. rewrite Hsome.
    destruct (dict_update _ pairs !! Some n) as [g|] eqn:Hg; [|done].
    destruct (Hnode _ _ Hg) as (e & -> & Hel & Hnid).
    specialize (Hkey e n Hel Hnid). lia.
  - unfold execution_graph. fold pairs. destruct keep.
    + rewrite lookup_insert_eq. do 2 f_equal.
      apply filter_ext_in. intros e Hel. by apply Hinp.
    + destruct (dict_update _ pairs !! None) as [g|] eqn:Hg; [|done].
      destruct (Hnode _ _ Hg) as (e & -> & Hel & Hnid).
      destruct (enriched_trace_numbering false trace entries He) as (Hf & _).
      assert (Hin : entry_node e ∈ entry_node <$> entries) by (by apply list_elem_of_fmap_2).
      rewrite Hf in Hin. apply list_elem_of_filter in Hin as [Hr _].
      unfold recorded, id_nid, entry_node in Hr. simpl in Hr. rewrite Hnid in Hr.
      rewrite bool_decide_eq_false_2 in Hr by (by intros [??]). done.
Qed.

End ExecutionGraphKeys.

(** ** get_bottleneck_tensors: what it needs and what it marks *)

Lemma connect_is_Some Ys Xs : ∀ (fc : gmap tensor (list tensor)) x,
  is_Some (foldl (connect Ys) fc Xs !! x) ↔ is_Some (fc !! x) ∨ x ∈ Xs.
Proof.
  induction Xs as [|X Xs IH]; intros fc x; simpl.
  { split; [by left|]. intros [?|?%elem_of_nil]; done. }
  rewrite IH, elem_of_cons. unfold connect.
  destruct (decide (x = X)) as [->|Hne].
  - split; [auto|]. intros _. left. destruct (fc !! X); by rewrite lookup_insert_eq.
  - destruct (fc !! X); rewrite lookup_insert_ne by done; naive_solver.
Qed.

Lemma forward_connections_is_Some l x :
  is_Some (forward_connections_of l !! x) ↔
  ∃ n, n ∈ l ∧ is_input_layer (node_layer n) = false ∧ x ∈ node_Xs n.
Proof.
  unfold forward_connections_of.
  assert (Hgen : ∀ fc : gmap tensor (list tensor),
    is_Some (foldl (λ fc (n : exec_node),
                let '(l, Xs, Ys) := n in
                if is_input_layer l then fc else foldl (connect Ys) fc Xs) fc l !! x) ↔
    is_Some (fc !! x) ∨
    ∃ n, n ∈ l ∧ is_input_layer (node_layer n) = false ∧ x ∈ node_Xs n).
  { induction l as [|[[la xs] ys] l IH]; intros fc; simpl.
    { split; [by left|]. intros [?|(? & ?%elem_of_nil & _)]; done. }
    rewrite IH. unfold node_layer, node_Xs. split.
    - intros [Hs|(n & Hn & Hl & Hx)].
      + destruct (is_input_layer la) eqn:Hla; [by left|].
        apply connect_is_Some in Hs as [?|?]; [by left|].
        right. exists (la, xs, ys). split; [by left|done].
      + right. exists n. split; [by right|done].
    - intros [Hs|(n & Hn & Hl & Hx)].
      + left. destruct (is_input_layer la); [done|]. apply connect_is_Some. by left.
      + apply elem_of_cons in Hn as [->|Hn].
        * left. simpl in Hl, Hx. rewrite Hl. apply connect_is_Some. by right.
        * right. by exists n. }
  rewrite Hgen, lookup_empty. split; [|by right].
  intros [[? ?]|?]; done.
Qed.

Lemma open_from_inputs_KeyError (fc : gmap tensor (list tensor)) inputs : ∀ oc x,
  x ∈ inputs → fc !! x = None →
  foldl_result (open_from fc) oc inputs = Raise KeyError.
Proof.
  induction inputs as [|x0 inputs IH]; intros oc x Hx Hfc; [by apply elem_of_nil in Hx|].
  rewrite foldl_result_cons.
  change (open_from fc oc x0)
    with (getitem fc x0 ≫= λ c, Ok (oc ∪ list_to_set c) : result (gset tensor)).
  destruct (getitem fc x0) as [c|e] eqn:Hx0; cbn [mbind result_bind].
  - apply elem_of_cons in Hx as [->|Hx]; [|by eapply IH].
    apply getitem_Ok in Hx0. congruence.
  - unfold getitem in Hx0. destruct (fc !! x0); congruence.
Qed.

Lemma bottleneck_walk_marks fc outputs l : ∀ oc ret oc' ret',
  foldl_result (bottleneck_step fc outputs) (oc, ret) l = Ok (oc', ret') →
  ∀ t, t ∈ ret' → t ∈ ret ∨
    ∃ n x, n ∈ l ∧ is_input_layer (node_layer n) = false ∧ node_Xs n = [x] ∧
           (t = x ∨ head (node_Ys n) = Some t).
Proof.
  induction l as [|[[la xs] ys] l IH]; intros oc ret oc' ret' Hw t Ht.
  { injection Hw as _ <-. by left. }
  rewrite foldl_result_cons in Hw.
  apply result_bind_Ok in Hw as ([oc1 ret1] & Hstep & Hw).
  destruct (IH _ _ _ _ Hw t Ht) as [Ht1|(n & x & Hn & Hl & Hx & Hmark)].
  2:{ right. exists n, x. split; [by right|done]. }
  destruct (is_input_layer la) eqn:Hla.
  { unfold bottleneck_step in Hstep. rewrite Hla in Hstep.
    injection Hstep as _ <-. by left. }
  destruct (bottleneck_step_marks _ _ _ _ _ _ _ _ _ Hla Hstep)
    as (oc2 & _ & [(_ & x & y & ys' & -> & -> & ->)|(_ & ->)]); [|by left].
  apply elem_of_union in Ht1 as [[Ht1|Ht1]%elem_of_union|Ht1]; [by left| |].
  - apply elem_of_singleton in Ht1 as ->. right.
    exists (la, [x], y :: ys'), x. split; [by left|]. split; [done|]. split; [done|by left].
  - apply elem_of_singleton in Ht1 as ->. right.
    exists (la, [x], y :: ys'), x. split; [by left|]. split; [done|]. split; [done|by right].
Qed.

(** [get_bottleneck_tensors] looks every input of the model up in
    [forward_connections]: an input that no entry applying a layer reads
    makes it raise [KeyError] (line 557).  What it returns are inputs and
    first outputs of entries that apply a layer to a single input.
    Entries of input layers are skipped in both loops. *)
Theorem get_bottleneck_tensors_needs_read_inputs inputs outputs execution_list :
  ((∃ x, x ∈ inputs ∧
         ∀ n, n ∈ execution_list → is_input_layer (node_layer n) = false →
              x ∉ node_Xs n) →
     get_bottleneck_tensors inputs outputs execution_list = Raise KeyError) ∧
  (∀ ret t, get_bottleneck_tensors inputs outputs execution_list = Ok ret → t ∈ ret →
     ∃ n x, n ∈ execution_list ∧ is_input_layer (node_layer n) = false ∧
            node_Xs n = [x] ∧ (t = x ∨ head (node_Ys n) = Some t)) ∧
  get_bottleneck_tensors inputs outputs execution_list
    = get_bottleneck_tensors inputs outputs (applied_nodes execution_list).
Proof.
  split; [|split].
  - intros (x & Hx & Hunread). unfold get_bottleneck_tensors.
    rewrite (open_from_inputs_KeyError _ inputs ∅ x Hx); [done|].
    destruct (forward_connections_of execution_list !! x) as [c|] eqn:Hfc; [|done].
    assert (Hs : is_Some (forward_connections_of execution_list !! x)) by (by eexists).
    apply forward_connections_is_Some in Hs as (n & Hn & Hl & Hxn).
    by destruct (Hunread n Hn Hl).
  - intros ret t Hg Ht. unfold get_bottleneck_tensors in Hg.
    apply result_bind_Ok in Hg as (oc & _ & Hg).
    apply result_bind_Ok in Hg as ([oc' ret'] & Hw & [= <-]).
    destruct (bottleneck_walk_marks _ _ _ _ _ _ _ Hw t Ht) as [Hin|?]; [|done].
    by apply elem_of_empty in Hin.
  - apply get_bottleneck_tensors_applied.
Qed.

Lemma bottleneck_step_nothing_open fc outputs ret l Xs0 y ys :
  is_input_layer l = false →
  bottleneck_step fc outputs (∅, ret) (l, Xs0, y :: ys) = Raise AssertionError.
Proof.
  intros Hl. unfold bottleneck_step. rewrite Hl, foldl_result_cons.
  assert (Hc : close_output ∅ y = Raise AssertionError).
  { unfold close_output.
    by rewrite (bool_decide_eq_false_2 (y ∈ (∅ : gset tensor))) by apply not_elem_of_empty. }
  by rewrite Hc.
Qed.

(** The walk along a chain one of whose tensors, not the last, is among
    [outputs]: behind it nothing is opened, and the next operator fails
    the assertion of line 569. *)
Lemma bottleneck_walk_intermediate_output fc outputs steps : ∀ l t0 t1 ret,
  NoDup (t0 :: t1 :: steps.*2) →
  Forall (λ s, is_input_layer s.1 = false) ((l, t1) :: steps) →
  (∀ k, k ∈ t1 :: steps.*2 →
        fc !! k = (λ t', [t']) <$> chain_succ t1 steps k) →
  (∃ i t, (t1 :: steps.*2) !! i = Some t ∧ i < length steps ∧ t ∈ outputs) →
  foldl_result (bottleneck_step fc outputs) ({[t1]}, ret)
    (chain_nodes t0 ((l, t1) :: steps)) = Raise AssertionError.
Proof.
  induction steps as [|[l2 t2] steps IH]; intros l t0 t1 ret Hnd Hl Hfc (i & t & Hi & Hlt & Ht).
  { simpl in Hlt. lia. }
  apply list.Forall_cons in Hl as [Hl Hl2]. simpl in Hl.
  rewrite chain_nodes_cons, foldl_result_cons, bottleneck_step_chain by done.
  destruct (bool_decide (t1 ∈ outputs)) eqn:Hout.
  - cbn [mbind result_bind].
    rewrite chain_nodes_cons, foldl_result_cons, bottleneck_step_nothing_open; [done|].
    by apply list.Forall_cons in Hl2 as [? _].
  - apply bool_decide_eq_false in Hout.
    rewrite (open_from_single fc t1 t2).
    2:{ rewrite (Hfc t1) by (by left). cbn [chain_succ]. by rewrite decide_True. }
    cbn [mbind result_bind].
    apply (IH l2 t1 t2).
    + by apply list.NoDup_cons in Hnd as [_ Hnd].
    + done.
    + intros k Hk. rewrite (Hfc k) by (by right). simpl.
      rewrite decide_False; [done|]. intros ->.
      apply list.NoDup_cons in Hnd as [_ Hnd].
      by apply list.NoDup_cons in Hnd as [Hnd _].
    + destruct i as [|i]; [simpl in Hi; congruence|].
      exists i, t. simpl in Hi, Hlt. split; [done|]. split; [lia|done].
Qed.

(** A chain of operators one of whose tensors, not the last, is also an
    output of the model: [get_bottleneck_tensors] does not open the
    connections behind an output (line 579), so the operator that reads
    this tensor fails the assertion of line 569. *)
Theorem intermediate_output_is_refused t0 steps outputs i t :
  NoDup (t0 :: steps.*2) →
  Forall (λ s, is_input_layer s.1 = false) steps →
  steps.*2 !! i = Some t → S i < length steps → t ∈ outputs →
  get_bottleneck_tensors [t0] outputs (chain_nodes t0 steps) = Raise AssertionError.
Proof.
  intros Hnd Hl Hi Hlt Ht. destruct steps as [|[l t1] steps]; [simpl in Hlt; lia|].
  rewrite fmap_cons in Hnd, Hi. simpl in Hnd, Hi, Hlt.
  unfold get_bottleneck_tensors.
  cbn [foldl_result]. rewrite (open_from_single _ t0 t1).
  2:{ rewrite forward_connections_of_chain by done.
      cbn [chain_succ]. by rewrite decide_True. }
  cbn [mbind result_bind].
  rewrite (bottleneck_walk_intermediate_output _ outputs steps l t0 t1 ∅); [done..| |].
  - intros k Hk. rewrite forward_connections_of_chain by done.
    by rewrite (chain_succ_tail l t0 t1 steps k).
  - exists i, t. split; [done|]. split; [lia|done].
Qed.

(** ** The table of reversed tensors: errors, and what persists *)

Section ReversedTensorsTable.
Context `{TensorOps}.

Lemma add_reversed_tensor_lookup reverse_id t i X v t' :
  add_reversed_tensor reverse_id t i X v = Ok t' →
  (∀ Y, Y ≠ X → t' !! Y = t !! Y) ∧
  (∃ e', t' !! X = Some e' ∧
     match t !! X with
     | None => e' = Entry (reverse_id, i) (Some v) None None
     | Some e => entry_id e' = entry_id e ∧
                 entry_final_tensor e' = entry_final_tensor e
     end).
Proof.
  unfold add_reversed_tensor. destruct (t !! X) as [e|] eqn:HX.
  - destruct (entry_tensor e), (entry_tensors e) as [ts|]; intros [= <-].
    + split; [intros Y HY; by rewrite lookup_insert_ne|].
      eexists. by rewrite lookup_insert_eq.
    + split; [intros Y HY; by rewrite lookup_insert_ne|].
      eexists. by rewrite lookup_insert_eq.
  - intros [= <-]. split; [intros Y HY; by rewrite lookup_insert_ne|].
    eexists. by rewrite lookup_insert_eq.
Qed.

Lemma get_reversed_tensor_lookup cfg x t v t' :
  get_reversed_tensor cfg x t = Ok (v, t') →
  (∀ Y, Y ≠ x → t' !! Y = t !! Y) ∧
  ∃ e, t !! x = Some e ∧
       t' !! x = Some (Entry (entry_id e) (entry_tensor e) (entry_tensors e) (Some v)) ∧
       (∀ f, entry_final_tensor e = Some f → f = v ∧ t' = t).
Proof.
  unfold get_reversed_tensor, getitem. destruct (t !! x) as [e|] eqn:Hx; [|done].
  cbn [mbind result_bind].
  destruct (entry_final_tensor e) as [f|] eqn:Hf.
  - intros [= <- <-]. split; [done|]. exists e. split; [done|]. split.
    + rewrite Hx. f_equal. destruct e; simpl in *. by subst.
    + intros f0 Hf0. rewrite Hf in Hf0. by injection Hf0 as <-.
  - intros (f & _ & [= <- <-])%result_bind_Ok.
    split; [intros Y HY; by rewrite lookup_insert_ne|].
    exists e. split; [done|]. split; [by rewrite lookup_insert_eq|].
    intros f0 Hf0. congruence.
Qed.

Lemma run_op_persists cfg t op t' X e :
  run_op cfg t op = Ok t' → t !! X = Some e →
  ∃ e', t' !! X = Some e' ∧ entry_id e' = entry_id e ∧
        ∀ v, entry_final_tensor e = Some v → entry_final_tensor e' = Some v.
Proof.
  intros Hop HX. destruct op as [rid i X' v'|x]; simpl in Hop.
  - apply add_reversed_tensor_lookup in Hop as [Hother (e' & HX' & Hsame)].
    destruct (decide (X = X')) as [->|Hne].
    + rewrite HX in Hsame. destruct Hsame as [Hid Hfin].
      exists e'. split; [done|]. split; [done|]. intros v Hv. by rewrite Hfin.
    + exists e. rewrite Hother by done. done.
  - destruct (get_reversed_tensor cfg x t) as [[v t1]|] eqn:Hg; [|done].
    injection Hop as <-.
    apply get_reversed_tensor_lookup in Hg as [Hother (e0 & Hx & Hx' & Hfin)].
    destruct (decide (X = x)) as [->|Hne].
    + rewrite HX in Hx. injection Hx as <-. eexists. split; [done|].
      split; [done|]. simpl. intros f Hf. by destruct (Hfin f Hf) as [-> _].
    + exists e. rewrite Hother by done. done.
Qed.

Lemma run_ops_persists cfg ops : ∀ t t' X e,
  run_ops cfg t ops = Ok t' → t !! X = Some e →
  ∃ e', t' !! X = Some e' ∧ entry_id e' = entry_id e ∧
        ∀ v, entry_final_tensor e = Some v → entry_final_tensor e' = Some v.
Proof.
  unfold run_ops. induction ops as [|op ops IH]; intros t t' X e Hrun HX.
  - injection Hrun as <-. eauto.
  - rewrite foldl_result_cons in Hrun.
    apply result_bind_Ok in Hrun as (t1 & Hop & Hrun).
    destruct (run_op_persists _ _ _ _ _ _ Hop HX) as (e1 & HX1 & Hid1 & Hfin1).
    destruct (IH _ _ _ _ Hrun HX1) as (e' & HX' & Hid & Hfin).
    exists e'. split; [done|]. split; [congruence|]. auto.
Qed.

(** An entry of [reversed_tensors] stays, with its ["id"] -- the one of
    the first contribution -- whatever the two closures are called with
    afterwards; and once [get_reversed_tensor] has returned a reversed
    tensor for [X], every later call returns that same tensor, the
    contributions that arrive in between changing nothing of it. *)
Theorem reversed_tensor_is_read_once cfg reversed_tensors X :
  (∀ e ops reversed_tensors',
     reversed_tensors !! X = Some e →
     run_ops cfg reversed_tensors ops = Ok reversed_tensors' →
     ∃ e', reversed_tensors' !! X = Some e' ∧ entry_id e' = entry_id e) ∧
  (∀ v t1 ops t2,
     get_reversed_tensor cfg X reversed_tensors = Ok (v, t1) →
     run_ops cfg t1 ops = Ok t2 →
     get_reversed_tensor cfg X t2 = Ok (v, t2)).
Proof.
  split.
  - intros e ops t' HX Hrun.
    destruct (run_ops_persists _ _ _ _ _ _ Hrun HX) as (e' & ? & ? & _). eauto.
  - intros v t1 ops t2 Hg Hrun.
    apply get_reversed_tensor_lookup in Hg as [_ (e & _ & HX1 & _)].
    destruct (run_ops_persists _ _ _ _ _ _ Hrun HX1) as (e' & HX2 & _ & Hfin).
    unfold get_reversed_tensor, getitem. rewrite HX2. cbn [mbind result_bind].
    by rewrite (Hfin v eq_refl).
Qed.




Lemma add_reversed_tensors_from_dom reverse_id pairs : ∀ i t t',
  add_reversed_tensors_from reverse_id i pairs t = Ok t' →
  ∀ Y, is_Some (t' !! Y) ↔ is_Some (t !! Y) ∨ Y ∈ pairs.*1.
Proof.
  induction pairs as [|[X v] pairs IH]; intros i t t' Ha Y.
  { injection Ha as <-. split; [by left|]. by intros [?|?%elem_of_nil]. }
  cbn [add_reversed_tensors_from] in Ha.
  apply result_bind_Ok in Ha as (t1 & Hadd & Ha).
  rewrite (IH _ _ _ Ha), fmap_cons, elem_of_cons.
  apply add_reversed_tensor_lookup in Hadd as [Hother (e' & HX' & _)].
  destruct (decide (Y = X)) as [->|Hne].
  - rewrite HX'. split; [auto|]. intros _. left. by eexists.
  - rewrite Hother by done. simpl. naive_solver.
Qed.

Lemma zip_fst_take {A B} (l : list A) (k : list B) :
  (zip l k).*1 = take (length k) l.
Proof.
  revert k. induction l as [|a l IH]; intros [|b k]; simpl; try done.
  by rewrite IH.
Qed.

Lemma zip_take_both {A B} (l : list A) (k : list B) :
  zip l k = zip (take (length k) l) (take (length l) k).
Proof.
  revert k. induction l as [|a l IH]; intros [|b k]; simpl; try done.
  by rewrite <-IH.
Qed.

(** [add_reversed_tensors] pairs the tensors with the reversed tensors by
    [zip]: when the two lists differ in length, what is left over of the
    longer one is dropped without an error.  So the tensors that have an
    entry afterwards are the ones that had one and the first
    [len(reversed_tensors_list)] of [tensors_list]. *)
Theorem add_reversed_tensors_drops_the_rest reverse_id tensors_list
    reversed_tensors_list reversed_tensors :
  add_reversed_tensors reverse_id tensors_list reversed_tensors_list reversed_tensors
    = add_reversed_tensors reverse_id
        (take (length reversed_tensors_list) tensors_list)
        (take (length tensors_list) reversed_tensors_list) reversed_tensors ∧
  ∀ reversed_tensors',
    add_reversed_tensors reverse_id tensors_list reversed_tensors_list reversed_tensors
      = Ok reversed_tensors' →
    ∀ Y, is_Some (reversed_tensors' !! Y) ↔
         is_Some (reversed_tensors !! Y) ∨
         Y ∈ take (length reversed_tensors_list) tensors_list.
Proof.
  unfold add_reversed_tensors. split.
  - by rewrite <-zip_take_both.
  - intros t' Ha Y. rewrite (add_reversed_tensors_from_dom _ _ _ _ _ Ha Y).
    by rewrite zip_fst_take.
Qed.

End ReversedTensorsTable.

(** ** The reverse walk: order of the calls, and the node ids *)

Section ReverseWalk.
Context `{Framework} `{TensorOps}.

Lemma initialize_reverse_mappings_constructs m args layers : ∀ initialized h,
  ∃ initialized' h' cons,
    initialize_reverse_mappings m args initialized layers h = (Ok initialized', h') ∧
    events h' = events h ++ cons ∧ Forall is_construction cons.
Proof.
  induction layers as [|l layers IH]; intros init h.
  { exists init, h, []. by rewrite app_nil_r. }
  destruct (initialize_reverse_mapping_spec m args l h) as (r & h1 & Hone & Hev1).
  destruct (IH (<[layer_id l := r]> init) h1) as (init' & h' & cons & Hrest & Hev & Hcons).
  cbn [initialize_reverse_mappings]. rewrite (M_bind_eq_Ok _ _ _ _ _ Hone).
  destruct (resolve_reverse_mapping args l) as [[fn f|cls fn]|].
  - exists init', h', cons. by rewrite Hev, Hev1.
  - destruct Hev1 as [_ Hev1]. eexists init', h', (_ :: cons).
    split; [done|]. rewrite Hev, Hev1, <-app_assoc. split; [done|]. by constructor.
  - exists init', h', cons. by rewrite Hev, Hev1.
Qed.

(** One iteration of the walk calls at most one mapping, for an entry
    that applies a layer, with the node id computed at line 754. *)
Lemma reverse_node_calls m cfg initialized len reversed_tensors i n h r h' :
  reverse_node m cfg initialized len reversed_tensors i n h = (r, h') →
  events h' = events h ∨
  (is_input_layer (node_layer n) = false ∧
   ∃ ref, events h' = events h ++
            [Invoked ref (len - Z.of_nat i - 1) (layer_id (node_layer n))]).
Proof.
  destruct n as [[l xs] ys]. unfold reverse_node, node_layer. simpl.
  destruct (is_input_layer l) eqn:Hl; [intros [_ ->]%mret_inv; by left|].
  destruct (is_container l); [intros [= _ <-]; by left|].
  destruct (negb _); [intros [_ ->]%mret_inv; by left|].
  intros [([rys t'] & h1 & Hg & Hrun)|(e & Hg & ->)]%M_bind_inv.
  2:{ apply lift_inv in Hg as [_ ->]. by left. }
  apply lift_inv in Hg as [_ ->].
  apply M_bind_inv in Hrun as [(mp & h1 & Hg & Hrun)|(e & Hg & ->)].
  2:{ apply lift_inv in Hg as [_ ->]. by left. }
  apply lift_inv in Hg as [_ ->].
  assert (Hcall : ∀ rc hc, call_reverse_mapping mp xs ys rys
                    (ReverseState (len - Z.of_nat i - 1) m l) h = (rc, hc) →
            events hc = events h ∨
            ∃ ref, events hc = events h ++ [Invoked ref (len - Z.of_nat i - 1) (layer_id l)]).
  { intros rc hc Hc. unfold call_reverse_mapping in Hc.
    destruct mp as [[ref f]|]; [|injection Hc as _ <-; by left].
    right. exists ref.
    apply M_bind_inv in Hc as [(u & h2 & Hlog & Hc)|(e & Hlog & _)]; [|done].
    injection Hlog as _ <-. apply lift_inv in Hc as [_ ->]. done. }
  apply M_bind_inv in Hrun as [(rxs & h2 & Hc & Hrun)|(e & Hc & ->)].
  - apply lift_inv in Hrun as [_ ->].
    destruct (Hcall _ _ Hc) as [?|?]; [by left|by right].
  - destruct (Hcall _ _ Hc) as [?|?]; [by left|by right].
Qed.

Lemma reverse_walk_calls m cfg initialized len nodes : ∀ reversed_tensors i h r h',
  reverse_walk m cfg initialized len reversed_tensors i nodes h = (r, h') →
  ∃ ks invs,
    events h' = events h ++ invs ∧
    Forall2 (λ k e, ∃ node ref, nodes !! k = Some node ∧
               is_input_layer (node_layer node) = false ∧
               e = Invoked ref (len - Z.of_nat (i + k) - 1) (layer_id (node_layer node)))
            ks invs ∧
    StronglySorted lt ks.
Proof.
  induction nodes as [|n nodes IH]; intros t i h r h' Hw.
  { apply mret_inv in Hw as [_ ->]. exists [], []. rewrite app_nil_r.
    repeat split; constructor. }
  cbn [reverse_walk] in Hw.
  assert (Hrest : ∀ h1, (events h1 = events h ∨
              (is_input_layer (node_layer n) = false ∧
               ∃ ref, events h1 = events h ++
                 [Invoked ref (len - Z.of_nat i - 1) (layer_id (node_layer n))])) →
            ∀ ks invs, events h' = events h1 ++ invs →
              Forall2 (λ k e, ∃ node ref, nodes !! k = Some node ∧
                         is_input_layer (node_layer node) = false ∧
                         e = Invoked ref (len - Z.of_nat (S i + k) - 1)
                               (layer_id (node_layer node))) ks invs →
              StronglySorted lt ks →
            ∃ ks invs,
              events h' = events h ++ invs ∧
              Forall2 (λ k e, ∃ node ref, (n :: nodes) !! k = Some node ∧
                         is_input_layer (node_layer node) = false ∧
                         e = Invoked ref (len - Z.of_nat (i + k) - 1)
                               (layer_id (node_layer node))) ks invs ∧
              StronglySorted lt ks).
  { intros h1 Hstep ks invs Hev Hks Hsorted.
    assert (Hshift : Forall2 (λ k e, ∃ node ref, (n :: nodes) !! k = Some node ∧
                         is_input_layer (node_layer node) = false ∧
                         e = Invoked ref (len - Z.of_nat (i + k) - 1)
                               (layer_id (node_layer node))) (S <$> ks) invs).
    { apply Forall2_fmap_l. eapply Forall2_impl; [done|]. simpl.
      intros k e (node & ref & Hk & Hl & ->). exists node, ref.
      split; [done|]. split; [done|]. do 2 f_equal. lia. }
    assert (Hsorted' : StronglySorted lt (S <$> ks)).
    { clear -Hsorted. induction Hsorted as [|k ks Hs IH Hk]; [constructor|].
      rewrite fmap_cons. constructor; [done|].
      apply Forall_fmap. eapply Forall_impl; [done|]. simpl. lia. }
    destruct Hstep as [Hsame|(Hl & ref & Hone)].
    - exists (S <$> ks), invs. by rewrite Hev, Hsame.
    - exists (0 :: (S <$> ks)), (Invoked ref (len - Z.of_nat i - 1)
                                   (layer_id (node_layer n)) :: invs).
      split; [by rewrite Hev, Hone, <-app_assoc|]. split.
      + constructor; [|done]. exists n, ref. split; [done|]. split; [done|].
        do 2 f_equal. lia.
      + constructor; [done|]. apply Forall_fmap, Forall_forall. simpl. lia. }
  apply M_bind_inv in Hw as [(t1 & h1 & Hnode & Hw)|(e & Hnode & ->)].
  - apply reverse_node_calls in Hnode.
    destruct (IH _ _ _ _ _ Hw) as (ks & invs & Hev & Hks & Hsorted).
    by eapply Hrest.
  - apply reverse_node_calls in Hnode.
    apply (Hrest h' Hnode [] []); [by rewrite app_nil_r|constructor|constructor].
Qed.

Lemma positions_reversed len ks :
  StronglySorted lt ks → Forall (λ k, k < len) ks →
  StronglySorted (λ j j', j' < j) ((λ k, len - S k) <$> ks).
Proof.
  induction 1 as [|k ks Hs IH Hk]; intros Hlen; [constructor|].
  apply list.Forall_cons in Hlen as [Hklen Hlen].
  rewrite fmap_cons. constructor; [by apply IH|].
  apply Forall_fmap, Forall_forall. intros k' Hk'. simpl.
  rewrite Forall_forall in Hk, Hlen. specialize (Hk k' Hk'). specialize (Hlen k' Hk'). lia.
Qed.

Lemma filter_input_layers_front (ins rest : list exec_node) :
  Forall (λ n, is_input_layer (node_layer n) = true) ins →
  Forall (λ n, is_input_layer (node_layer n) = false) rest →
  length (filter (λ n : exec_node, is_input_layer (node_layer n)) (ins ++ rest))
    = length ins ∧
  applied_nodes (ins ++ rest) = rest.
Proof.
  intros Hins Hrest. unfold applied_nodes. rewrite !filter_app, length_app. split.
  - assert (H1 : filter (λ n : exec_node, is_input_layer (node_layer n)) ins = ins).
    { clear -Hins. induction Hins as [|n ins Hn _ IH]; [done|].
      rewrite filter_cons, decide_True by (by rewrite Hn). by rewrite IH. }
    assert (H2 : filter (λ n : exec_node, is_input_layer (node_layer n)) rest = []).
    { clear -Hrest. induction Hrest as [|n rest Hn _ IH]; [done|].
      rewrite filter_cons, decide_False by (rewrite Hn; by intros []). done. }
    rewrite H1, H2. simpl. lia.
  - assert (H1 : filter (λ n : exec_node, is_input_layer (node_layer n) = false) ins = []).
    { clear -Hins. induction Hins as [|n ins Hn _ IH]; [done|].
      rewrite filter_cons, decide_False by (by rewrite Hn). done. }
    assert (H2 : filter (λ n : exec_node, is_input_layer (node_layer n) = false) rest = rest).
    { clear -Hrest. induction Hrest as [|n rest Hn _ IH]; [done|].
      rewrite filter_cons, decide_True by done. by rewrite IH. }
    by rewrite H1, H2.
Qed.

(** Once the model is traced and the mappings are resolved,
    [reverse_model] calls the mappings for entries at strictly
    decreasing positions [js] of the execution list, entries that apply
    a layer, at most once each; the node id it hands over for the entry
    at position [j] is [j] minus the number of input-layer entries of
    the whole list.  When the input-layer entries stand in front of all
    others this is the number of the entry among those that apply a
    layer, the node id [get_model_execution_trace] gives it. *)
Theorem reverse_model_visits_backwards m args h layers execution_list outputs h1 r h' :
  trace_model_execution m (reapply_on_copied_layers args) h
    = (Ok (layers, execution_list, outputs), h1) →
  reverse_model m args h = (r, h') →
  let num_input_layers :=
    length (filter (λ n : exec_node, is_input_layer (node_layer n)) execution_list) in
  ∃ cons invs js,
    events h' = events h1 ++ cons ++ invs ∧
    Forall is_construction cons ∧
    Forall2 (λ j e, ∃ node ref,
               execution_list !! j = Some node ∧
               is_input_layer (node_layer node) = false ∧
               e = Invoked ref (Z.of_nat j - Z.of_nat num_input_layers)
                     (layer_id (node_layer node))) js invs ∧
    StronglySorted (λ j j', j' < j) js ∧
    (∀ ins rest, execution_list = ins ++ rest →
       Forall (λ n, is_input_layer (node_layer n) = true) ins →
       Forall (λ n, is_input_layer (node_layer n) = false) rest →
       Forall (λ e, ∃ ref k node,
                 e = Invoked ref (Z.of_nat k) (layer_id (node_layer node)) ∧
                 applied_nodes execution_list !! k = Some node) invs).
Proof.
  intros Htrace Hrun num_input_layers.
  unfold reverse_model in Hrun. rewrite (M_bind_eq_Ok _ _ _ _ _ Htrace) in Hrun.
  unfold reverse_traced in Hrun. fold num_input_layers in Hrun.
  destruct (initialize_reverse_mappings_constructs m args layers ∅ h1)
    as (init & h2 & cons & Hinit & Hev & Hcons).
  rewrite (M_bind_eq_Ok _ _ _ _ _ Hinit) in Hrun.
  set (len := (Z.of_nat (length execution_list) - Z.of_nat num_input_layers)%Z) in *.
  assert (Hwalk : ∃ ks invs,
    events h' = events h2 ++ invs ∧
    Forall2 (λ k e, ∃ node ref, reverse execution_list !! k = Some node ∧
               is_input_layer (node_layer node) = false ∧
               e = Invoked ref (len - Z.of_nat (0 + k) - 1) (layer_id (node_layer node)))
            ks invs ∧
    StronglySorted lt ks).
  { assert (Hnone : events h' = events h2 → ∃ ks invs,
      events h' = events h2 ++ invs ∧
      Forall2 (λ k e, ∃ node ref, reverse execution_list !! k = Some node ∧
                 is_input_layer (node_layer node) = false ∧
                 e = Invoked ref (len - Z.of_nat (0 + k) - 1) (layer_id (node_layer node)))
              ks invs ∧
      StronglySorted lt ks).
    { intros Hsame. exists [], []. rewrite app_nil_r. repeat split; [done|constructor..]. }
    apply M_bind_inv in Hrun as [(bt & h3 & Hb & Hrun)|(e & Hb & _)];
      [|apply lift_inv in Hb as [_ ->]; by apply Hnone].
    apply lift_inv in Hb as [_ ->].
    apply M_bind_inv in Hrun as [(t0 & h3 & Ha & Hrun)|(e & Ha & _)];
      [|apply lift_inv in Ha as [_ ->]; by apply Hnone].
    apply lift_inv in Ha as [_ ->].
    apply M_bind_inv in Hrun as [(t1 & h3 & Hw & Hrun)|(e & Hw & _)].
    - apply reverse_walk_calls in Hw as (ks & invs & Hevw & Hks & Hsorted).
      exists ks, invs. split; [|done].
      apply M_bind_inv in Hrun as [([vs t2] & h4 & Hg & Hrun)|(e & Hg & _)].
      + apply lift_inv in Hg as [_ ->]. by apply mret_inv in Hrun as [_ ->].
      + by apply lift_inv in Hg as [_ ->].
    - by apply reverse_walk_calls in Hw. }
  destruct Hwalk as (ks & invs & Hev' & Hks & Hsorted).
  assert (Hklen : Forall (λ k, k < length execution_list) ks).
  { clear -Hks. induction Hks as [|k e ks invs (node & ref & Hk & _) _ IH]; constructor; [|done].
    apply lookup_lt_Some in Hk. by rewrite length_reverse in Hk. }
  assert (Hjs : Forall2 (λ j e, ∃ node ref,
               execution_list !! j = Some node ∧
               is_input_layer (node_layer node) = false ∧
               e = Invoked ref (Z.of_nat j - Z.of_nat num_input_layers)
                     (layer_id (node_layer node)))
             ((λ k, length execution_list - S k) <$> ks) invs).
  { apply Forall2_fmap_l. clear -Hks. eapply Forall2_impl; [done|]. simpl.
    intros k e (node & ref & Hk & Hl & ->).
    pose proof (lookup_lt_Some _ _ _ Hk) as Hlt. rewrite length_reverse in Hlt.
    rewrite reverse_lookup in Hk by done.
    exists node, ref. split; [done|]. split; [done|]. f_equal. unfold len. lia. }
  exists cons, invs, ((λ k, length execution_list - S k) <$> ks).
  split; [by rewrite Hev', Hev, app_assoc|]. split; [done|]. split; [done|].
  split; [by apply positions_reversed|].
  intros ins rest Heq Hins Hrest.
  destruct (filter_input_layers_front ins rest Hins Hrest) as [Hnum Happ].
  rewrite Heq, Happ. unfold num_input_layers in Hjs. rewrite Heq, Hnum in Hjs.
  clear -Hjs Hins. induction Hjs as [|j e js invs (node & ref & Hj & Hl & ->) _ IH];
    constructor; [|done].
  destruct (decide (j < length ins)) as [Hlt|Hge].
  - rewrite lookup_app_l in Hj by done.
    rewrite Forall_forall in Hins.
    rewrite (Hins node) in Hl by (by eapply list_elem_of_lookup_2). done.
  - rewrite lookup_app_r in Hj by lia.
    exists ref, (j - length ins), node. split; [|done]. f_equal. lia.
Qed.

Lemma get_reversed_tensors_finals cfg ts : ∀ t vs t',
  get_reversed_tensors cfg ts t = Ok (vs, t') →
  Forall2 (λ x v, ∃ e, t' !! x = Some e ∧ entry_final_tensor e = Some v) ts vs ∧
  ∀ x e v, t !! x = Some e → entry_final_tensor e = Some v →
           ∃ e', t' !! x = Some e' ∧ entry_final_tensor e' = Some v.
Proof.
  induction ts as [|x ts IH]; intros t vs t' Hg.
  { injection Hg as <- <-. split; [constructor|eauto]. }
  cbn [get_reversed_tensors] in Hg.
  apply result_bind_Ok in Hg as ([v t1] & Hx & Hg).
  apply result_bind_Ok in Hg as ([vs' t2] & Hts & [= <- <-]).
  apply get_reversed_tensor_lookup in Hx as [Hother (e & He & He1 & Hfin)].
  destruct (IH _ _ _ Hts) as [Hall Hkeep].
  split.
  - constructor; [|done]. by eapply Hkeep.
  - intros y ey vy Hy Hvy. destruct (decide (y = x)) as [->|Hne].
    + rewrite He in Hy. injection Hy as <-.
      destruct (Hfin vy Hvy) as [-> _]. by eapply Hkeep.
    + eapply Hkeep; [|done]. by rewrite Hother.
Qed.

(** What [reverse_model] returns: one reversed tensor per input of the
    model, in the order of [model.inputs]; with
    [return_all_reversed_tensors] also the table, in which each input
    has an entry whose final tensor is the one returned for it, else
    nothing more. *)
Theorem reverse_model_returns_per_input m args h reversed_input_tensors all h' :
  reverse_model m args h = (Ok (reversed_input_tensors, all), h') →
  length reversed_input_tensors = length (model_inputs m) ∧
  (return_all_reversed_tensors args = false → all = None) ∧
  (return_all_reversed_tensors args = true →
     ∃ reversed_tensors, all = Some reversed_tensors ∧
       Forall2 (λ x v, ∃ e, reversed_tensors !! x = Some e ∧
                            entry_final_tensor e = Some v)
               (model_inputs m) reversed_input_tensors).
Proof.
  unfold reverse_model. intros Hrun.
  apply M_bind_Ok in Hrun as ([[layers nodes] outs] & h1 & _ & Hrun).
  unfold reverse_traced in Hrun.
  apply M_bind_Ok in Hrun as (init & h2 & _ & Hrun).
  apply M_bind_Ok in Hrun as (bt & h3 & _ & Hrun).
  apply M_bind_Ok in Hrun as (t0 & h4 & _ & Hrun).
  apply M_bind_Ok in Hrun as (t1 & h5 & _ & Hrun).
  apply M_bind_Ok in Hrun as ([vs t2] & h6 & Hg & Hrun).
  apply lift_inv in Hg as [Hg ->].
  apply mret_inv in Hrun as [[= -> ->] _].
  apply get_reversed_tensors_finals in Hg as [Hall _].
  split; [symmetry; by eapply Forall2_length|].
  split; [by intros ->|]. intros ->. eauto.
Qed.

Lemma initialize_reverse_mappings_handlers m args layers : ∀ initialized h initialized' h',
  NoDup (layer_id <$> layers) →
  initialize_reverse_mappings m args initialized layers h = (Ok initialized', h') →
  ∀ l, l ∈ layers →
    ∃ r, initialized' !! layer_id l = Some r ∧ snd <$> r = handler_of m args l.
Proof.
  induction layers as [|l0 layers IH]; intros init h init' h' Hnd Hinit l Hl.
  { by apply elem_of_nil in Hl. }
  rewrite fmap_cons in Hnd. apply list.NoDup_cons in Hnd as [Hl0 Hnd].
  cbn [initialize_reverse_mappings] in Hinit.
  apply M_bind_Ok in Hinit as (r0 & h1 & Hone & Hrest).
  apply elem_of_cons in Hl as [->|Hl]; [|by eapply IH].
  destruct (initialize_reverse_mappings_spec m args layers
              (<[layer_id l0 := r0]> init) h1 Hnd)
    as (init2 & h2 & cons & Hrest' & _ & _ & Hframe & _).
  rewrite Hrest' in Hrest. injection Hrest as -> ->.
  exists r0. rewrite (Hframe _ Hl0), lookup_insert_eq. split; [done|].
  unfold initialize_reverse_mapping, handler_of in *.
  destruct (resolve_reverse_mapping args l0) as [[fn f|cls fn]|].
  - by apply mret_inv in Hone as [[= ->] _].
  - apply M_bind_Ok in Hone as (obj & h3 & _ & Hone).
    apply M_bind_Ok in Hone as (u & h4 & _ & Hone).
    by apply mret_inv in Hone as [[= ->] _].
  - by apply mret_inv in Hone as [[= ->] _].
Qed.

Lemma post_process_plain cfg t v :
  project_bottleneck_tensors cfg = ProjectFalse →
  clip_all_reversed_tensors cfg = None → post_process cfg t v = v.
Proof. intros Hp Hc. unfold post_process. by rewrite Hp, Hc. Qed.

Lemma reverse_walk_input_layers m cfg initialized len nodes : ∀ reversed_tensors i h,
  Forall (λ n, is_input_layer (node_layer n) = true) nodes →
  reverse_walk m cfg initialized len reversed_tensors i nodes h = (Ok reversed_tensors, h).
Proof.
  induction nodes as [|[[l xs] ys] nodes IH]; intros t i h Hin; [done|].
  apply list.Forall_cons in Hin as [Hl Hin]. unfold node_layer in Hl. simpl in Hl.
  cbn [reverse_walk]. unfold reverse_node. rewrite Hl.
  rewrite (M_bind_eq_Ok _ _ h t h) by done. by apply IH.
Qed.

(** One iteration of the walk at an operator with one input and one
    output, whose output has received a single contribution and whose
    mapping returns one reversed tensor. *)
Lemma reverse_node_single m cfg initialized len reversed_tensors i l tp t v idt ref g w h :
  project_bottleneck_tensors cfg = ProjectFalse →
  clip_all_reversed_tensors cfg = None →
  is_input_layer l = false → is_container l = false →
  reversed_tensors !! t = Some (Entry idt (Some v) None None) →
  reversed_tensors !! tp = None → tp ≠ t →
  initialized !! layer_id l = Some (Some (ref, g)) →
  g [tp] [t] [v] (ReverseState (len - Z.of_nat i - 1) m l) = Ok [w] →
  reverse_node m cfg initialized len reversed_tensors i (l, [tp], [t]) h =
  (Ok (<[tp := Entry ((len - Z.of_nat i - 1)%Z, 0) (Some w) None None]>
         (<[t := Entry idt (Some v) None (Some v)]> reversed_tensors)),
   Heap (call_attr h) (next_tensor h) (next_object h)
        (events h ++ [Invoked ref (len - Z.of_nat i - 1) (layer_id l)])).
Proof.
  intros Hp Hc Hl Hcont Ht Htp Hne Hinit Hg.
  unfold reverse_node. rewrite Hl, Hcont.
  assert (Hall : forallb (λ ys, bool_decide (is_Some (reversed_tensors !! ys))) [t] = true).
  { simpl. rewrite bool_decide_eq_true_2; [done|]. by rewrite Ht. }
  rewrite Hall. cbn [negb].
  assert (Hget : get_reversed_tensors cfg [t] reversed_tensors =
            Ok ([v], <[t := Entry idt (Some v) None (Some v)]> reversed_tensors)).
  { cbn [get_reversed_tensors]. unfold get_reversed_tensor, getitem. rewrite Ht.
    cbn. by rewrite post_process_plain. }
  assert (Hitem : getitem initialized (layer_id l) = Ok (Some (ref, g))).
  { by apply getitem_Ok. }
  assert (Hadd : add_reversed_tensors (len - Z.of_nat i - 1) [tp] [w]
                   (<[t := Entry idt (Some v) None (Some v)]> reversed_tensors) =
            Ok (<[tp := Entry ((len - Z.of_nat i - 1)%Z, 0) (Some w) None None]>
                  (<[t := Entry idt (Some v) None (Some v)]> reversed_tensors))).
  { unfold add_reversed_tensors. cbn [zip zip_with add_reversed_tensors_from].
    unfold add_reversed_tensor. rewrite lookup_insert_ne by done. by rewrite Htp. }
  rewrite Hget. rewrite (M_bind_eq_Ok _ _ h _ h) by done.
  rewrite Hitem. rewrite (M_bind_eq_Ok _ _ h _ h) by done.
  unfold call_reverse_mapping.
  set (h1 := Heap (call_attr h) (next_tensor h) (next_object h)
               (events h ++ [Invoked ref (len - Z.of_nat i - 1) (layer_id l)])).
  assert (Hcall : (_ ← log_event (Invoked ref
                        (state_nid (ReverseState (len - Z.of_nat i - 1) m l))
                        (layer_id (state_layer (ReverseState (len - Z.of_nat i - 1) m l))));
                   lift (g [tp] [t] [v] (ReverseState (len - Z.of_nat i - 1) m l))) h
                  = (Ok [w], h1)).
  { rewrite (M_bind_eq_Ok _ _ h () h1) by done. by rewrite Hg. }
  rewrite (M_bind_eq_Ok _ _ h _ h1 Hcall). by rewrite Hadd.
Qed.

Lemma chain_nodes_snoc steps : ∀ t0 l t tp,
  list.last (t0 :: steps.*2) = Some tp →
  chain_nodes t0 (steps ++ [(l, t)]) = chain_nodes t0 steps ++ [(l, [tp], [t])].
Proof.
  induction steps as [|[l1 t1] steps IH]; intros t0 l t tp Hlast.
  - simpl in Hlast. by injection Hlast as ->.
  - rewrite <-app_comm_cons, !chain_nodes_cons, <-app_comm_cons. f_equal.
    apply IH. rewrite fmap_cons in Hlast. exact Hlast.
Qed.

Lemma chain_reversed_snoc F steps l t (v : value) :
  chain_reversed F (steps ++ [(l, t)]) v = chain_reversed F steps (F l v).
Proof. induction steps as [|[l1 t1] steps IH]; simpl; [done|]. by rewrite IH. Qed.

(** The walk back along a chain, and on to what follows it in the
    reversed execution list. *)
Lemma reverse_walk_chain m cfg initialized len F steps : ∀ t0 tN vN idN reversed_tensors i h,
  project_bottleneck_tensors cfg = ProjectFalse →
  clip_all_reversed_tensors cfg = None →
  NoDup (t0 :: steps.*2) → list.last (t0 :: steps.*2) = Some tN →
  reversed_tensors !! tN = Some (Entry idN (Some vN) None None) →
  (∀ t, t ∈ t0 :: steps.*2 → t ≠ tN → reversed_tensors !! t = None) →
  Forall (λ n, is_input_layer (node_layer n) = false ∧
               is_container (node_layer n) = false ∧
               ∃ ref g, initialized !! layer_id (node_layer n) = Some (Some (ref, g)) ∧
                 ∀ v nid, g (node_Xs n) (node_Ys n) [v] (ReverseState nid m (node_layer n))
                          = Ok [F (node_layer n) v])
         (chain_nodes t0 steps) →
  ∃ reversed_tensors' h' id0,
    (∀ tail, reverse_walk m cfg initialized len reversed_tensors i
               (reverse (chain_nodes t0 steps) ++ tail) h
             = reverse_walk m cfg initialized len reversed_tensors'
                 (i + length steps) tail h') ∧
    reversed_tensors' !! t0 = Some (Entry id0 (Some (chain_reversed F steps vN)) None None).
Proof.
  induction steps as [|[l t] steps IH] using rev_ind;
    intros t0 tN vN idN rt i h Hp Hc Hnd Hlast HtN Hfree Hsteps.
  { simpl in Hlast. injection Hlast as <-. exists rt, h, idN.
    split; [|done]. intros tail. simpl. by rewrite Nat.add_0_r. }
  rewrite fmap_app in Hnd, Hlast, Hfree. simpl in Hnd, Hlast, Hfree.
  rewrite app_comm_cons, last_snoc in Hlast. injection Hlast as <-.
  rewrite app_comm_cons in Hnd. apply NoDup_app in Hnd as (Hnd & Hdis & _).
  assert (Ht : t ∉ t0 :: steps.*2).
  { intros Hin. apply (Hdis t Hin). by left. }
  destruct (list.last (t0 :: steps.*2)) as [tp|] eqn:Htp.
  2:{ by destruct (steps.*2) as [|a k] using rev_ind;
        [|rewrite app_comm_cons, last_snoc in Htp]. }
  pose proof (last_elem_of _ _ Htp) as Htp_in.
  assert (Hne : tp ≠ t) by (by intros ->).
  rewrite (chain_nodes_snoc steps t0 l t tp Htp) in Hsteps.
  apply Forall_app in Hsteps as [Hsteps Hlast].
  apply list.Forall_cons in Hlast as [(Hl & Hcont & ref & g & Hinit & Hg) _].
  unfold node_layer, node_Xs, node_Ys in Hl, Hcont, Hinit, Hg. simpl in Hl, Hcont, Hinit, Hg.
  pose proof (reverse_node_single m cfg initialized len rt i l tp t vN idN ref g
                (F l vN) h Hp Hc Hl Hcont HtN) as Hnode.
  set (rt1 := <[tp := Entry ((len - Z.of_nat i - 1)%Z, 0) (Some (F l vN)) None None]>
                (<[t := Entry idN (Some vN) None (Some vN)]> rt)) in *.
  set (h1 := Heap (call_attr h) (next_tensor h) (next_object h)
               (events h ++ [Invoked ref (len - Z.of_nat i - 1) (layer_id l)])) in *.
  assert (Hfree' : ∀ x, x ∈ t0 :: steps.*2 → x ≠ t → rt !! x = None).
  { intros x Hx Hxt. apply Hfree; [|done].
    rewrite app_comm_cons. apply elem_of_app. by left. }
  specialize (Hnode (Hfree' tp Htp_in Hne) Hne Hinit (Hg _ _)).
  destruct (IH t0 tp (F l vN) ((len - Z.of_nat i - 1)%Z, 0) rt1 (S i) h1 Hp Hc Hnd Htp)
    as (rt' & h' & id0 & Hwalk & Hrt'); [| |done|].
  - unfold rt1. by rewrite lookup_insert_eq.
  - intros t' Ht' Hne'. unfold rt1.
    rewrite lookup_insert_ne by done.
    rewrite lookup_insert_ne by (by intros <-).
    apply Hfree'; [done|by intros ->].
  - exists rt', h', id0. split; [|by rewrite chain_reversed_snoc].
    intros tail. rewrite (chain_nodes_snoc steps t0 l t tp Htp), reverse_app. simpl.
    rewrite (M_bind_eq_Ok _ _ h rt1 h1 Hnode), Hwalk.
    f_equal. rewrite length_app. simpl. lia.
Qed.

(** A model that is a chain of operators behind its one input: when the
    mapping of every operator turns the reversed tensor [v] of the
    operator's output into the single reversed tensor [F l v], with no
    projection and no clipping [reverse_model] returns for the input
    what the operators, reversed from the last to the first, make of
    [head_mapping(output)]. *)
Theorem reverse_model_reverses_a_chain m args h layers ins t0 steps tN h1 F :
  copy_layer_allocates →
  trace_model_execution m (reapply_on_copied_layers args) h
    = (Ok (layers, ins ++ chain_nodes t0 steps, [tN]), h1) →
  model_inputs m = [t0] →
  Forall (λ n, is_input_layer (node_layer n) = true) ins →
  NoDup (t0 :: steps.*2) → list.last (t0 :: steps.*2) = Some tN →
  project_bottleneck_tensors_arg args = ProjectFalse →
  clip_all_reversed_tensors_arg args = None →
  Forall (λ n, node_layer n ∈ layers ∧
               is_input_layer (node_layer n) = false ∧
               is_container (node_layer n) = false ∧
               ∃ g, handler_of m args (node_layer n) = Some g ∧
                 ∀ v nid, g (node_Xs n) (node_Ys n) [v] (ReverseState nid m (node_layer n))
                          = Ok [F (node_layer n) v])
         (chain_nodes t0 steps) →
  ∃ all h',
    reverse_model m args h =
    (Ok ([chain_reversed F steps (default tensor_value (head_mapping args) tN)], all), h').
Proof.
  intros Hcopy Htrace Hin Hins Hnd Hlast Hp Hc Hsteps.
  assert (Hlayers := trace_model_execution_layers_NoDup _ _ _ _ _ _ _ Hcopy Htrace).
  unfold reverse_model. rewrite (M_bind_eq_Ok _ _ _ _ _ Htrace).
  unfold reverse_traced.
  destruct (initialize_reverse_mappings_constructs m args layers ∅ h1)
    as (init & h2 & cons & Hinit & _ & _).
  rewrite (M_bind_eq_Ok _ _ _ _ _ Hinit).
  assert (Hfind : find_bottleneck_tensors m args [tN] (ins ++ chain_nodes t0 steps) = Ok ∅).
  { unfold find_bottleneck_tensors. by rewrite Hp. }
  rewrite Hfind. rewrite (M_bind_eq_Ok _ _ h2 ∅ h2) by done.
  set (vN := default tensor_value (head_mapping args) tN).
  set (cfg := Aggregation (project_bottleneck_tensors_arg args)
                (clip_all_reversed_tensors_arg args) ∅).
  set (len := (Z.of_nat (length (ins ++ chain_nodes t0 steps)) -
               Z.of_nat (length (filter (λ n : exec_node, is_input_layer (node_layer n))
                                   (ins ++ chain_nodes t0 steps))))%Z).
  assert (Hadd : add_reversed_tensors (-1) [tN] (default tensor_value (head_mapping args) <$> [tN]) ∅
            = Ok {[tN := Entry ((-1)%Z, 0) (Some vN) None None]}).
  { unfold add_reversed_tensors. simpl. unfold add_reversed_tensor.
    rewrite lookup_empty. by rewrite insert_empty. }
  rewrite Hadd. rewrite (M_bind_eq_Ok _ _ h2 _ h2) by done.
  destruct (reverse_walk_chain m cfg init len F steps t0 tN vN ((-1)%Z, 0)
              {[tN := Entry ((-1)%Z, 0) (Some vN) None None]} 0 h2)
    as (rt' & h3 & id0 & Hwalk & Hrt'); [done|done|done|done| | | |].
  - by rewrite lookup_singleton_eq.
  - intros t _ Hne. by rewrite lookup_singleton_ne.
  - eapply Forall_impl; [exact Hsteps|]. simpl.
    intros n (Hl & Hnin & Hncont & g & Hh & Hg).
    split; [done|]. split; [done|].
    destruct (initialize_reverse_mappings_handlers m args layers ∅ h1 init h2
                Hlayers Hinit _ Hl) as (r & Hr & Hsnd).
    rewrite Hh in Hsnd. destruct r as [[ref g']|]; [|done].
    injection Hsnd as ->. by exists ref, g.
  - rewrite reverse_app.
    assert (Hall : reverse_walk m cfg init len
                     {[tN := Entry ((-1)%Z, 0) (Some vN) None None]} 0
                     (reverse (chain_nodes t0 steps) ++ reverse ins) h2 = (Ok rt', h3)).
    { rewrite Hwalk. apply reverse_walk_input_layers. apply Forall_reverse. exact Hins. }
    rewrite (M_bind_eq_Ok _ _ h2 rt' h3 Hall).
    rewrite Hin.
    assert (Hget : get_reversed_tensors cfg [t0] rt' =
              Ok ([chain_reversed F steps vN],
                  <[t0 := Entry id0 (Some (chain_reversed F steps vN)) None
                            (Some (chain_reversed F steps vN))]> rt')).
    { cbn [get_reversed_tensors]. unfold get_reversed_tensor, getitem. rewrite Hrt'.
      cbn. by rewrite post_process_plain. }
    rewrite Hget. rewrite (M_bind_eq_Ok _ _ h3 _ h3) by done.
    by eexists _, _.
Qed.

End ReverseWalk.

(** ** get_kernel and pre_softmax_tensors *)

Lemma filter_singleton {A} (P : A → Prop) `{!∀ x, Decision (P x)} (l : list A) k :
  filter P l = [k] ↔
  ∃ pre post, l = pre ++ k :: post ∧ P k ∧ Forall (λ x, ¬ P x) (pre ++ post).
Proof.
  split.
  - induction l as [|a l IH]; [done|]. rewrite filter_cons.
    destruct (decide (P a)) as [Ha|Ha].
    + intros [= -> Hnil]. exists [], l. split; [done|]. split; [done|].
      simpl. apply Forall_forall. intros x Hx Hpx.
      assert (Hin : x ∈ filter P l) by (by apply list_elem_of_filter).
      rewrite Hnil in Hin. by apply elem_of_nil in Hin.
    + intros Hf. destruct (IH Hf) as (pre & post & -> & Hk & Hall).
      exists (a :: pre), post. split; [done|]. split; [done|]. by constructor.
  - intros (pre & post & -> & Hk & Hall). apply Forall_app in Hall as [Hpre Hpost].
    assert (Hnone : ∀ l', Forall (λ x, ¬ P x) l' → filter P l' = []).
    { intros l' Hl'. induction Hl' as [|x l' Hx _ IH]; [done|].
      by rewrite filter_cons, decide_False. }
    rewrite filter_app, filter_cons, decide_True by done.
    by rewrite (Hnone pre), (Hnone post).
Qed.

(** [get_kernel] returns the weight array [k] of a layer exactly when
    [k] is the only one of the layer's weight arrays with more than one
    dimension, wherever it stands among them; with no such array, or
    with several, the assertion of line 61 fails. *)
Theorem get_kernel_is_the_only_matrix weights :
  (∀ k, get_kernel weights = Ok k ↔
        ∃ pre post, weights = pre ++ k :: post ∧ 1 < length (shape k) ∧
          Forall (λ x, ¬ 1 < length (shape x)) (pre ++ post)) ∧
  (∀ e, get_kernel weights = Raise e → e = AssertionError).
Proof.
  unfold get_kernel. split.
  - intros k. rewrite <-(filter_singleton (λ x, 1 < length (shape x))).
    destruct (filter (λ x, 1 < length (shape x)) weights) as [|a [|b ret]] eqn:Hf; simpl.
    + split; [done|done].
    + split; [by intros [= ->]|by intros [= ->]].
    + split; [done|done].
  - intros e. destruct (filter _ weights) as [|a [|b ret]]; simpl; by intros [= <-].
Qed.

Section PreSoftmaxProperties.
Context `{SoftmaxOps}.

Lemma softmax_outputs_cons x Xs :
  softmax_outputs (x :: Xs) =
  if contains_softmax (keras_history x).1.1 then x :: softmax_outputs Xs
  else softmax_outputs Xs.
Proof.
  unfold softmax_outputs. rewrite filter_cons.
  destruct (contains_softmax _); [by rewrite decide_True|by rewrite decide_False].
Qed.

Lemma pre_softmax_loop_Ok Xs : ∀ found ret h found' ret' h',
  pre_softmax_loop Xs (found, ret) h = (Ok (found', ret'), h') →
  found' = found || bool_decide (softmax_outputs Xs ≠ []) ∧
  length ret' = length ret + length (softmax_outputs Xs).
Proof.
  induction Xs as [|x Xs IH]; intros found ret h found' ret' h' Hl.
  { apply mret_inv in Hl as [[= -> ->] _]. simpl.
    by rewrite orb_false_r, Nat.add_0_r. }
  cbn [pre_softmax_loop] in Hl. rewrite softmax_outputs_cons.
  destruct (keras_history x) as [[layer node_index] tensor_index]. simpl.
  apply M_bind_Ok in Hl as ([found1 ret1] & h1 & Hstep & Hl).
  apply IH in Hl as [-> ->].
  destruct (contains_softmax layer).
  - apply M_bind_Ok in Hstep as (t & h2 & _ & Hstep).
    apply mret_inv in Hstep as [[= -> ->] _].
    rewrite (bool_decide_eq_true_2 (_ :: _ ≠ [])) by done.
    rewrite length_app. simpl. split; [by rewrite orb_true_r|lia].
  - by apply mret_inv in Hstep as [[= -> ->] _].
Qed.

Lemma pre_softmax_loop_none Xs : ∀ st h,
  softmax_outputs Xs = [] → pre_softmax_loop Xs st h = (Ok st, h).
Proof.
  induction Xs as [|x Xs IH]; intros [found ret] h Hnone; [done|].
  rewrite softmax_outputs_cons in Hnone. cbn [pre_softmax_loop].
  destruct (keras_history x) as [[layer node_index] tensor_index]. simpl in *.
  destruct (contains_softmax layer); [done|].
  rewrite (M_bind_eq_Ok _ _ h (found, ret) h) by done. by apply IH.
Qed.

(** [pre_softmax_tensors] returns one tensor for every tensor of [Xs]
    that a layer with a softmax gave and drops the others, so that the
    result may be shorter than [Xs].  When no tensor of [Xs] comes from
    such a layer it calls nothing of Keras: it raises "No softmax found."
    or, without [should_find_softmax], returns the empty list.  When one
    does, [should_find_softmax] makes no difference. *)
Theorem pre_softmax_tensors_keeps_softmax_outputs Xs h :
  (∀ should_find_softmax ret h',
     pre_softmax_tensors Xs should_find_softmax h = (Ok ret, h') →
     length ret = length (softmax_outputs Xs)) ∧
  (softmax_outputs Xs = [] →
     pre_softmax_tensors Xs true h = (Raise (Exception "No softmax found."), h) ∧
     pre_softmax_tensors Xs false h = (Ok [], h)) ∧
  (softmax_outputs Xs ≠ [] →
     pre_softmax_tensors Xs true h = pre_softmax_tensors Xs false h).
Proof.
  unfold pre_softmax_tensors. split; [|split].
  - intros should ret h' Hp.
    apply M_bind_Ok in Hp as ([found ret1] & h1 & Hl & Hp).
    apply pre_softmax_loop_Ok in Hl as [_ Hlen].
    destruct (should && negb found); [done|].
    apply mret_inv in Hp as [[= ->] _]. by rewrite Hlen.
  - intros Hnone.
    by rewrite !(M_bind_eq_Ok _ _ h _ h (pre_softmax_loop_none Xs (false, []) h Hnone)).
  - intros Hsome.
    destruct (pre_softmax_loop Xs (false, []) h) as [[[found ret]|e] h1] eqn:Hl.
    + rewrite !(M_bind_eq_Ok _ _ h _ h1 Hl).
      apply pre_softmax_loop_Ok in Hl as [-> _].
      by rewrite bool_decide_eq_true_2.
    + by rewrite !(M_bind_eq_Raise _ _ h _ h1 Hl).
Qed.

End PreSoftmaxProperties.

(** ** The statements applied to the example models *)



Lemma example_copy_layer_allocates : @copy_layer_allocates example_framework.
Proof. intros l h l' h' [= <- <-]. destruct l; simpl; lia. Qed.

Lemma example_kapply_keeps_call : @kapply_keeps_call example_framework.
Proof. by intros l xs h r h' [= _ <-]. Qed.

Lemma example_copy_layer_keeps_call : @copy_layer_keeps_call example_framework.
Proof. by intros l h r h' [= _ <-]. Qed.




#[local] Existing Instance example_tensor_ops.

Lemma reversed_tensors_hold_one_key_witness :
  let ops := [@AddOp example_tensor_ops (-1) 0 5 [1; 2]%Z; AddOp 1 0 5 [10; 20]%Z;
              GetOp 5; AddOp 0 1 6 [7]%Z] in
  ∃ reversed_tensors,
    run_ops plain_aggregation ∅ ops = Ok reversed_tensors ∧
    (∀ X e, reversed_tensors !! X = Some e → one_key e) ∧
    add_reversed_tensor 0 reversed_tensors 0 5 [3; 4]%Z ≠
      Raise (Exception "Wrong order, tensors already aggregated!").
Proof.
  intros ops.
  destruct (run_ops plain_aggregation ∅ ops) as [reversed_tensors|e] eqn:Hrun;
    [|by vm_compute in Hrun].
  exists reversed_tensors. split; [done|].
  destruct (@reversed_tensors_hold_one_key example_tensor_ops plain_aggregation
              ops reversed_tensors Hrun) as (Hone & Hadd & _).
  split; [exact Hone|apply Hadd].
Defined.


Lemma prune_removes_unneeded_invocations_witness :
  let pre := [(InputLayer 10, [], [0]); (Layer 11, [0], [1]); (Layer 12, [0], [2])] in
  let n := (Layer 11, [7], [9]) in
  let post := [(Layer 13, [1; 2], [3])] in
  prune [3] (pre ++ n :: post) = pre ++ post ∧
  (∃ kept_pre, kept_pre `sublist_of` pre ∧
     prune [3] (pre ++ post) = kept_pre ++ [(Layer 13, [1; 2], [3])]) ∧
  filter (λ k, layer_is (node_layer k) (Layer 11)) (prune [3] (pre ++ n :: post))
    = [(Layer 11, [0], [1])].
Proof.
  intros pre n post.
  destruct (prune_removes_unneeded_invocations [3] pre n post)
    as (Hdrop & _ & _ & Honce).
  destruct (prune_removes_unneeded_invocations [3] pre (Layer 13, [1; 2], [3]) [])
    as (_ & Hkeep & _ & _).
  split; [|split].
  - etrans; [apply Hdrop|done]. exists 9. split; [by left|].
    intros Hn%needed_used. vm_compute in Hn.
    repeat (apply elem_of_cons in Hn as [?|Hn]; [done|]). by apply elem_of_nil in Hn.
  - apply Hkeep. intros y Hy. apply list_elem_of_singleton in Hy as ->. left. by left.
  - apply (Honce (Layer 11, [0], [1])).
    + exists 9. split; [by left|]. split.
      * intros Hin. by apply list_elem_of_singleton in Hin.
      * intros k Hk Hx. unfold pre, n, post in Hk. simpl in Hk.
        repeat (apply elem_of_cons in Hk as [->|Hk];
                [simpl in Hx;
                 repeat (apply elem_of_cons in Hx as [?|Hx]; [done|]);
                 by apply elem_of_nil in Hx|]).
        by apply elem_of_nil in Hk.
    + done.
    + vm_compute. right. by left.
Defined.

Lemma instrumentation_is_reverted_witness :
  let layers := [InputLayer 10; Container 11 [InputLayer 12; Layer 13];
                 InputLayer 12; Layer 13; Layer 14] in
  let patched := Heap (<[13 := Patched 13 (Method 13)]> Method) 0 0 [] in
  (∃ nodes h',
     @trace_model_execution example_framework nested_model false empty_heap
       = (Ok (layers, nodes, [5]), h') ∧
     call_attr h' 13 = Method 13 ∧ call_attr h' 11 = Method 11) ∧
  (∃ h',
     @instrumented_replay example_framework nested_model layers patched
       = (Raise (Exception "Should not happen as we patch objects not classes."), h') ∧
     call_attr h' 10 = Method 10 ∧
     call_attr h' 13 = Patched 13 (Method 13)).
Proof.
  intros layers patched.
  destruct (@instrumentation_is_reverted example_framework nested_model)
    as [Hreplay Htrace].
  split.
  - assert (Ht : ∃ nodes h',
       @trace_model_execution example_framework nested_model false empty_heap
         = (Ok (layers, nodes, [5]), h')).
    { eexists _, _. vm_compute. reflexivity. }
    destruct Ht as (nodes & h' & Ht). exists nodes, h'. split; [exact Ht|].
    assert (Hl : @get_model_layers nested_model = Ok layers) by (by vm_compute).
    split.
    + apply (Htrace example_kapply_keeps_call example_copy_layer_keeps_call
               false layers empty_heap _ h' (Layer 13) Hl Ht).
      unfold layers. do 3 right. by left.
    + apply (Htrace example_kapply_keeps_call example_copy_layer_keeps_call
               false layers empty_heap _ h'
               (Container 11 [InputLayer 12; Layer 13]) Hl Ht).
      unfold layers. right. by left.
  - assert (Hr : ∃ h',
       @instrumented_replay example_framework nested_model layers patched
         = (Raise (Exception "Should not happen as we patch objects not classes."), h')).
    { eexists. vm_compute. reflexivity. }
    destruct Hr as (h' & Hr). exists h'. split; [exact Hr|]. split.
    + apply (Hreplay layers patched _ h' (InputLayer 10) Hr). by left.
    + apply (Hreplay layers patched _ h' (Layer 13) Hr). unfold layers. do 3 right. by left.
Defined.



(** ** The further properties applied to the example models *)


Lemma replay_runs_instrumented_witness :
  let layers := [InputLayer 10; Container 11 [InputLayer 12; Layer 13];
                 InputLayer 12; Layer 13; Layer 14] in
  ∃ hp,
    same_allocation empty_heap hp ∧
    call_attr hp 13 = Patched 13 (Method 13) ∧ call_attr hp 99 = Method 99 ∧
    ∃ r h1 h',
      @replay_model example_framework nested_model hp = (r, h1) ∧
      @instrumented_replay example_framework nested_model layers empty_heap = (r, h') ∧
      call_attr h' 13 = Method 13.
Proof.
  intros layers.
  destruct (@replay_runs_instrumented example_framework nested_model layers empty_heap)
    as (hp & Halloc & Hcall & Hrun).
  - by apply (bool_decide_unpack _).
  - done.
  - exists hp. split; [done|]. split; [|split].
    + rewrite Hcall. by rewrite decide_True by (by apply (bool_decide_unpack _)).
    + rewrite Hcall. by rewrite decide_False by (by apply (bool_decide_unpack _)).
    + destruct (@replay_model example_framework nested_model hp) as [r h1] eqn:Hrep.
      destruct (Hrun r h1 eq_refl) as (h' & Hi & _ & Hback).
      exists r, h1, h'. split; [done|]. split; [done|].
      rewrite Hback. by rewrite decide_True by (by apply (bool_decide_unpack _)).
Defined.

Lemma reapply_keeps_structure_witness :
  let layers := [InputLayer 10; Container 11 [InputLayer 12; Layer 13];
                 InputLayer 12; Layer 13; Layer 14] in
  ∃ nodes outs' h',
    @reapply example_framework nested_model false layers example_log [2]
      (Heap Method 3 0 []) = (Ok (layers, nodes, outs'), h') ∧
    length outs' = 1 ∧
    Forall2 (λ logged new, node_layer new ∈ layers ∧
               layer_id (node_layer new) = layer_id (node_layer logged))
            example_log nodes.
Proof.
  intros layers.
  assert (Hr : ∃ layers' nodes outs' h',
    @reapply example_framework nested_model false layers example_log [2]
      (Heap Method 3 0 []) = (Ok (layers', nodes, outs'), h')).
  { eexists _, _, _, _. vm_compute. reflexivity. }
  destruct Hr as (layers' & nodes & outs' & h' & Hr).
  destruct (@reapply_keeps_structure example_framework _ _ _ _ _ _ _ _ _ _ Hr)
    as (layer_mapping & _ & _ & Hlen & Hsame).
  destruct (Hsame eq_refl) as [-> Hnodes]; [by apply (bool_decide_unpack _)|].
  exists nodes, outs', h'. done.
Defined.

Lemma reapply_needs_closed_record_witness :
  let layers := [InputLayer 10; Container 11 [InputLayer 12; Layer 13];
                 InputLayer 12; Layer 13; Layer 14] in
  ∃ layers' nodes outs' h',
    @reapply example_framework nested_model false layers example_log [2]
      (Heap Method 3 0 []) = (Ok (layers', nodes, outs'), h') ∧
    ∀ x, x ∈ [2] →
         x ∈ model_inputs nested_model ∨ ∃ k, k ∈ example_log ∧ x ∈ node_Ys k.
Proof.
  intros layers.
  assert (Hr : ∃ layers' nodes outs' h',
    @reapply example_framework nested_model false layers example_log [2]
      (Heap Method 3 0 []) = (Ok (layers', nodes, outs'), h')).
  { eexists _, _, _, _. vm_compute. reflexivity. }
  destruct Hr as (layers' & nodes & outs' & h' & Hr).
  exists layers', nodes, outs', h'. split; [done|].
  by destruct (@reapply_needs_closed_record example_framework _ _ _ _ _ _ _ _ _ _ Hr)
    as [_ Houts].
Defined.

Lemma enrich_trace_succeeds_witness :
  let unread := [(InputLayer 10, [], [0]); (InputLayer 11, [], [5]);
                 (Layer 12, [0], [1])] in
  enrich_trace false unread = Raise KeyError ∧
  no_early_reader false (enrich_with_nids 0 unread) ∧
  ¬ inputs_are_read (enrich_with_nids 0 unread).
Proof.
  intros unread.
  destruct (enrich_trace_succeeds false unread) as (_ & Hraise & _).
  assert (He : enrich_trace false unread = Raise KeyError) by (by vm_compute).
  split; [done|].
  by destruct (Hraise KeyError He) as [[? _]|(_ & ? & ?)].
Defined.

Lemma enrich_trace_entries_witness :
  let trace := [(InputLayer 10, [], [0]); (Layer 11, [0], [1]); (Layer 12, [0], [2]);
                (Layer 13, [1; 2], [3])] in
  ∃ entries,
    enrich_trace false trace = Ok entries ∧
    omap nid entries = [0; 1; 2] ∧
    entry_layer <$> entries = [Layer 11; Layer 12; Layer 13].
Proof.
  intros trace.
  assert (He : ∃ entries, enrich_trace false trace = Ok entries ∧
                 entry_layer <$> entries = [Layer 11; Layer 12; Layer 13]).
  { eexists. split; vm_compute; reflexivity. }
  destruct He as (entries & He & Hlayers). exists entries. split; [done|].
  by destruct (enrich_trace_entries false trace entries He) as (_ & Hnum & _).
Defined.

Lemma enrich_trace_links_witness :
  let trace := [(InputLayer 10, [], [0]); (Layer 11, [0], [1]); (Layer 12, [0], [2]);
                (Layer 13, [1; 2], [3])] in
  ∃ entries e,
    enrich_trace true trace = Ok entries ∧ entries !! 0 = Some e ∧
    Ys_nids e = [[Some 0; Some 1]] ∧ Xs_nids e = [] ∧
    Ys_layers e = [[Layer 11; Layer 12]].
Proof.
  intros trace.
  assert (He : ∃ entries e, enrich_trace true trace = Ok entries ∧ entries !! 0 = Some e).
  { eexists _, _. split; vm_compute; reflexivity. }
  destruct He as (entries & e & He & H0). exists entries, e.
  split; [done|]. split; [done|].
  destruct (enrich_trace_links true trace entries He e) as (HYn & HXn & _ & HYl & _).
  { by eapply list_elem_of_lookup_2. }
  assert (Hfields : entry_layer e = InputLayer 10 ∧ Ys e = [0]).
  { vm_compute in He. injection He as <-. by injection H0 as <-. }
  destruct Hfields as [Hl HY]. rewrite Hl in HXn. rewrite HY in HYn.
  split; [by rewrite HYn|]. split; [done|]. by rewrite HYl, HYn.
Defined.

Lemma get_model_execution_graph_keys_witness :
  ∃ graph h' e,
    @get_model_execution_graph example_framework diamond_model false empty_heap
      = (Ok graph, h') ∧
    graph !! Some 2 = Some (GraphNode e) ∧ nid e = Some 2 ∧
    entry_layer e = Layer 13 ∧
    graph !! Some 3 = None ∧ graph !! None = None.
Proof.
  assert (Hg : ∃ graph h',
    @get_model_execution_graph example_framework diamond_model false empty_heap
      = (Ok graph, h')).
  { eexists _, _. vm_compute. reflexivity. }
  destruct Hg as (graph & h' & Hg).
  destruct (@get_model_execution_graph_keys example_framework _ _ _ _ _ Hg)
    as (layers & trace & outputs & entries & Ht & He & Hnode & Hnone & Hin).
  assert (Htrace : trace = [(InputLayer 10, [], [0]); (Layer 12, [0], [2]);
                            (Layer 11, [0], [1]); (Layer 13, [1; 2], [3])]).
  { vm_compute in Ht. injection Ht as _ Htr _ _. by rewrite <-Htr. }
  subst trace.
  destruct (Hnode 2) as (e & Hk & _ & Hn & Happ); [simpl; lia|].
  exists graph, h', e. split; [done|]. split; [done|]. split; [done|].
  split; [by injection Happ as <- _ _|]. split; [|done].
  apply Hnone. simpl. lia.
Defined.

Lemma intermediate_output_is_refused_witness :
  get_bottleneck_tensors [0] [1; 2] [(Layer 1, [0], [1]); (Layer 2, [1], [2])]
    = Raise AssertionError.
Proof.
  apply (intermediate_output_is_refused 0 [(Layer 1, 1); (Layer 2, 2)] [1; 2] 0 1).
  - by apply (bool_decide_unpack _).
  - by repeat constructor.
  - done.
  - simpl. lia.
  - by left.
Defined.


Lemma reverse_model_visits_backwards_witness :
  ∃ h' cons invs js,
    @reverse_model example_framework example_tensor_ops shared_layer_model
      example_reverse_args empty_heap = (Ok ([[2%Z]], None), h') ∧
    events h' = [Constructed 7 10 0; Constructed 7 11 1;
                 Invoked (ApplyOf 1) 1 11; Invoked (ApplyOf 1) 0 11] ∧
    events h' = cons ++ invs ∧
    Forall is_construction cons ∧
    StronglySorted (λ j j', j' < j) js ∧
    Forall2 (λ j e, ∃ node ref,
               [(InputLayer 10, [], [0]); (Layer 11, [0], [1]); (Layer 11, [1], [2])]
                 !! j = Some node ∧
               e = Invoked ref (Z.of_nat j - 1) (layer_id (node_layer node)))
            js invs.
Proof.
  assert (Ht : ∃ h1,
     @trace_model_execution example_framework shared_layer_model
       (reapply_on_copied_layers example_reverse_args) empty_heap
       = (Ok ([InputLayer 10; Layer 11],
              [(InputLayer 10, [], [0]); (Layer 11, [0], [1]); (Layer 11, [1], [2])],
              [2]), h1) ∧ events h1 = []).
  { eexists. split; [vm_compute; reflexivity|done]. }
  destruct Ht as (h1 & Ht & Hev1).
  assert (Hr : ∃ h',
     @reverse_model example_framework example_tensor_ops shared_layer_model
       example_reverse_args empty_heap = (Ok ([[2%Z]], None), h') ∧
     events h' = [Constructed 7 10 0; Constructed 7 11 1;
                  Invoked (ApplyOf 1) 1 11; Invoked (ApplyOf 1) 0 11]).
  { eexists. split; [vm_compute; reflexivity|done]. }
  destruct Hr as (h' & Hr & Hev).
  destruct (@reverse_model_visits_backwards example_framework example_tensor_ops
              shared_layer_model example_reverse_args empty_heap _ _ _ h1 _ h' Ht Hr)
    as (cons & invs & js & Hsplit & Hcons & Hjs & Hsorted & _).
  rewrite Hev1 in Hsplit. simpl in Hsplit.
  exists h', cons, invs, js. split; [done|]. split; [done|]. split; [done|].
  split; [done|]. split; [done|].
  eapply Forall2_impl; [exact Hjs|]. simpl.
  intros j e (node & ref & Hj & _ & ->). by exists node, ref.
Defined.

Lemma reverse_model_returns_per_input_witness :
  ∃ h',
    @reverse_model example_framework example_tensor_ops shared_layer_model
      example_reverse_args empty_heap = (Ok ([[2%Z]], None), h') ∧
    length [[2%Z]] = length (model_inputs shared_layer_model).
Proof.
  assert (Hr : ∃ h',
     @reverse_model example_framework example_tensor_ops shared_layer_model
       example_reverse_args empty_heap = (Ok ([[2%Z]], None), h')).
  { eexists. vm_compute. reflexivity. }
  destruct Hr as (h' & Hr). exists h'. split; [done|].
  by destruct (@reverse_model_returns_per_input example_framework example_tensor_ops
                 _ _ _ _ _ _ Hr) as [Hlen _].
Defined.

Lemma reverse_model_reverses_a_chain_witness :
  ∃ all h',
    @reverse_model example_framework example_tensor_ops shared_layer_model
      example_reverse_args empty_heap = (Ok ([[2%Z]], all), h').
Proof.
  assert (Ht : ∃ h1,
     @trace_model_execution example_framework shared_layer_model
       (reapply_on_copied_layers example_reverse_args) empty_heap
       = (Ok ([InputLayer 10; Layer 11],
              [(InputLayer 10, [], [0])] ++ chain_nodes 0 [(Layer 11, 1); (Layer 11, 2)],
              [2]), h1)).
  { eexists. vm_compute. reflexivity. }
  destruct Ht as (h1 & Ht).
  apply (@reverse_model_reverses_a_chain example_framework example_tensor_ops
           shared_layer_model example_reverse_args empty_heap
           [InputLayer 10; Layer 11] [(InputLayer 10, [], [0])] 0
           [(Layer 11, 1); (Layer 11, 2)] 2 h1 (λ _ v, v)).
  - apply example_copy_layer_allocates.
  - exact Ht.
  - done.
  - by repeat constructor.
  - by apply (bool_decide_unpack _).
  - done.
  - done.
  - done.
  - simpl. repeat apply list.Forall_cons_2; [| |apply Forall_nil_2];
      (split; [|split; [done|split; [done|]]]).
    + apply list_elem_of_further, list_elem_of_here.
    + eexists. split; [vm_compute; reflexivity|done].
    + apply list_elem_of_further, list_elem_of_here.
    + eexists. split; [vm_compute; reflexivity|done].
Defined.
